(** * Verifiable-shuffle poker server (app.py): a shallow embedding

    The development follows the layout of [app.py]: the deterministic
    generator [SplitMix64] and [deterministic_shuffle], the deck
    utilities, the room state, the deal engine and the websocket handler
    [ws]; the properties come after the definitions.

    Conventions of the embedding.
    - A Python string is represented by its UTF-8 encoding (a Rocq
      [string] is a sequence of bytes): [encode("utf-8")] is the identity
      on the representation, equality and ordering are those of Python
      (UTF-8 preserves code-point order), and [len] counts the bytes
      that start a code point.
    - [hashlib.sha256] is the SHA-256 function itself, computed here.
    - Player objects live in a heap and [room.players] holds their
      addresses, so that a handler keeps its own object when the room
      drops or replaces it.
    - Code that can raise runs in a state monad whose state survives the
      exception, as the mutations of a Python object do.
    - One room is modelled (the entry of [rooms] for one code). A
      handler runs from one [await receive_text()] to the next without
      another handler in between; what a [send_text] does is an input of
      the step.
    - The fields of an inbound JSON object are strings or absent. *)

From Stdlib Require Import ZArith Lia.
From Stdlib.Strings Require Import Ascii Byte.
From Stdlib Require String.
From stdpp Require Import base list strings sorting.

Local Open Scope Z_scope.

(* ================================================================== *)
(** ** Python runtime: exceptions, truthiness, strings                  *)
(* ================================================================== *)

(** The exceptions the modelled code can raise. *)
Inductive exn : Type :=
| WebSocketDisconnect
| ValueError (msg : string)
| IndexError (msg : string)
| KeyError (msg : string)
| Exception (msg : string).

(** [str(e)]. *)
Definition str_exn (e : exn) : string :=
  match e with
  | WebSocketDisconnect => ""
  | ValueError msg | IndexError msg | KeyError msg | Exception msg => msg
  end.

(** The outcome of a call: a value, a raised exception, or [Hang] when
    the call never returns (a [while True] loop that never exits). *)
Inductive result (A : Type) : Type :=
| Ok (a : A)
| Raise (e : exn)
| Hang.
Arguments Ok {A} a.
Arguments Raise {A} e.
Arguments Hang {A}.

(** [bool(s)] for an [Optional[str]]: [None] and [""] are falsy. *)
Definition truthy (s : option string) : bool :=
  match s with
  | Some (String _ _) => true
  | _ => false
  end.

(** [x or d] for an [Optional[str]] [x] and a string default [d]. *)
Definition or_default (x : option string) (d : string) : string :=
  if truthy x then default d x else d.

(** A byte of the form 10xxxxxx continues a UTF-8 code point. *)
Definition is_continuation (c : ascii) : bool :=
  let n := N_of_ascii c in (128 <=? n)%N && (n <? 192)%N.

(** [len(s)]: the number of code points. *)
Fixpoint len (s : string) : nat :=
  match s with
  | EmptyString => O
  | String c s' => if is_continuation c then len s' else S (len s')
  end.

(** [s[:n]]: the first [n] code points, each with its continuation bytes. *)
Fixpoint slice_to (n : nat) (s : string) : string :=
  match s with
  | EmptyString => EmptyString
  | String c s' =>
      if is_continuation c then String c (slice_to n s')
      else match n with
           | O => EmptyString
           | S n' => String c (slice_to n' s')
           end
  end.

(** [s.upper()] on the ASCII letters.  The only other characters whose
    upper case contains an ASCII letter yield an [I], an [S] or a
    ligature expansion, none of which can complete the word OMAHA, the
    single comparison whose outcome the caller distinguishes. *)
Definition upper_ascii (c : ascii) : ascii :=
  let n := N_of_ascii c in
  if (97 <=? n)%N && (n <=? 122)%N then ascii_of_N (n - 32) else c.

Fixpoint upper (s : string) : string :=
  match s with
  | EmptyString => EmptyString
  | String c s' => String (upper_ascii c) (upper s')
  end.

(** [sep.join(items)]. *)
Fixpoint join (sep : string) (items : list string) : string :=
  match items with
  | [] => ""
  | [x] => x
  | x :: rest => x +:+ sep +:+ join sep rest
  end.

(** [s.encode("utf-8")] on the UTF-8 representation. *)
Definition encode_utf8 (s : string) : list byte := String.list_byte_of_string s.

(** [int.from_bytes(b, "big", signed=False)]. *)
Definition int_from_bytes_big (b : list byte) : Z :=
  fold_left (fun acc x => acc * 256 + Z.of_N (Byte.to_N x)) b 0.

(* ================================================================== *)
(** ** hashlib.sha256                                                   *)
(* ================================================================== *)

Module hashlib.

Definition w32 (x : Z) : Z := x mod 2 ^ 32.
Definition add32 (x y : Z) : Z := w32 (x + y).
Definition rotr (n x : Z) : Z :=
    w32 (Z.lor (Z.shiftr x n) (Z.shiftl x (32 - n))).
Definition not32 (x : Z) : Z := Z.lxor x (2 ^ 32 - 1).

(** The round constants are the first 32 bits of the fractional parts
    of the cube roots of the first 64 primes, the initial hash value
    those of the square roots of the first 8. *)
Definition is_prime (n : Z) : bool :=
  forallb (fun d => negb (n mod Z.of_nat d =? 0)) (seq 2 (Z.to_nat n - 2)).

Definition primes : list Z :=
  Eval vm_compute in filter (fun n => is_prime n = true) (map Z.of_nat (seq 2 310)).

(** The integer cube root of [x], one bit at a time from bit [bits - 1]. *)
Fixpoint cube_root (bits : nat) (x r : Z) : Z :=
  match bits with
  | O => r
  | S bits' =>
      let r' := r + 2 ^ Z.of_nat bits' in
      if r' * r' * r' <=? x then cube_root bits' x r' else cube_root bits' x r
  end.

Definition K : list Z :=
  Eval vm_compute in map (fun p => w32 (cube_root 36 (p * 2 ^ 96) 0)) primes.

Definition H0 : list Z :=
  Eval vm_compute in map (fun p => w32 (Z.sqrt (p * 2 ^ 64))) (firstn 8 primes).

Definition small_sigma0 (x : Z) : Z :=
    Z.lxor (Z.lxor (rotr 7 x) (rotr 18 x)) (Z.shiftr x 3).
Definition small_sigma1 (x : Z) : Z :=
    Z.lxor (Z.lxor (rotr 17 x) (rotr 19 x)) (Z.shiftr x 10).
Definition big_sigma0 (x : Z) : Z :=
    Z.lxor (Z.lxor (rotr 2 x) (rotr 13 x)) (rotr 22 x).
Definition big_sigma1 (x : Z) : Z :=
    Z.lxor (Z.lxor (rotr 6 x) (rotr 11 x)) (rotr 25 x).
Definition ch (e f g : Z) : Z :=
    Z.lxor (Z.land e f) (Z.land (not32 e) g).
Definition maj (a b c : Z) : Z :=
    Z.lxor (Z.lxor (Z.land a b) (Z.land a c)) (Z.land b c).

  (** Message padding: 0x80, zeros up to 56 mod 64, the bit length on
      eight big-endian bytes. *)
Definition be_bytes (count : nat) (x : Z) : list Z :=
    map (fun i => Z.shiftr x (8 * Z.of_nat (count - 1 - i)) mod 256) (seq 0 count).

Definition pad (msg : list Z) : list Z :=
    let l := Z.of_nat (length msg) in
    let zeros := Z.to_nat ((55 - l) mod 64) in
    msg ++ [128] ++ repeat 0 zeros ++ be_bytes 8 (8 * l).

Definition be_word (bs : list Z) : Z :=
    fold_left (fun acc b => acc * 256 + b) bs 0.

Fixpoint words (count : nat) (bs : list Z) : list Z :=
    match count with
    | O => []
    | S count' => be_word (firstn 4 bs) :: words count' (skipn 4 bs)
    end.

  (** The message schedule, kept newest-first: [sched] holds
      w[t-1], w[t-2], ... *)
Fixpoint extend (count : nat) (sched : list Z) : list Z :=
    match count with
    | O => sched
    | S count' =>
        let w := add32 (add32 (small_sigma1 (nth 1 sched 0)) (nth 6 sched 0))
                       (add32 (small_sigma0 (nth 14 sched 0)) (nth 15 sched 0)) in
        extend count' (w :: sched)
    end.

Definition schedule (block : list Z) : list Z :=
    rev (extend 48 (rev (words 16 block))).

Definition round (v : list Z) (kw : Z * Z) : list Z :=
    match v with
    | [a; b; c; d; e; f; g; h] =>
        let t1 := add32 (add32 (add32 h (big_sigma1 e)) (add32 (ch e f g) (fst kw))) (snd kw) in
        let t2 := add32 (big_sigma0 a) (maj a b c) in
        [add32 t1 t2; a; b; c; add32 d t1; e; f; g]
    | _ => v
    end.

Definition compress (h : list Z) (block : list Z) : list Z :=
    let v := fold_left round (combine K (schedule block)) h in
    map (fun p => add32 (fst p) (snd p)) (combine h v).

Fixpoint blocks (count : nat) (h : list Z) (bs : list Z) : list Z :=
    match count with
    | O => h
    | S count' => blocks count' (compress h (firstn 64 bs)) (skipn 64 bs)
    end.

Definition byte_of_Z (x : Z) : byte :=
    default x00 (Byte.of_N (Z.to_N (x mod 256))).

  (** [hashlib.sha256(b).digest()]: 32 bytes. *)
Definition sha256 (b : list byte) : list byte :=
    let padded := pad (map (fun x => Z.of_N (Byte.to_N x)) b) in
    let h := blocks (length padded / 64) H0 padded in
    map byte_of_Z (flat_map (be_bytes 4) h).

Definition hex_digit (n : N) : ascii :=
    ascii_of_N (if (n <? 10)%N then 48 + n else 87 + n).

  (** [bytes.hex()]: two lowercase hexadecimal digits per byte. *)
Fixpoint hex (b : list byte) : string :=
    match b with
    | [] => ""
    | x :: rest =>
        let n := Byte.to_N x in
        String (hex_digit (n / 16)) (String (hex_digit (n mod 16)) (hex rest))
    end.

End hashlib.

Definition sha256_hex (s : string) : string :=
  hashlib.hex (hashlib.sha256 (encode_utf8 s)).

Definition sha256_bytes (b : list byte) : list byte :=
  hashlib.sha256 b.

(* ================================================================== *)
(** ** Deterministic PRNG + shuffle (SplitMix64)                        *)
(* ================================================================== *)

Definition MASK64 : Z := Z.shiftl 1 64 - 1.

Definition _u64 (x : Z) : Z := Z.land x MASK64.

Record SplitMix64 : Type := { state : Z }.

Definition SplitMix64_init (seed_u64 : Z) : SplitMix64 :=
  {| state := _u64 seed_u64 |}.

(** [next_u64] returns the output together with the advanced generator. *)
Definition next_u64 (self : SplitMix64) : Z * SplitMix64 :=
  let s := _u64 (state self + 0x9E3779B97F4A7C15) in
  let z := s in
  let z := _u64 (Z.lxor z (Z.shiftr z 30) * 0xBF58476D1CE4E5B9) in
  let z := _u64 (Z.lxor z (Z.shiftr z 27) * 0x94D049BB133111EB) in
  (_u64 (Z.lxor z (Z.shiftr z 31)), {| state := s |}).

(** The [while True] loop of [randbelow], cut after [fuel] draws. *)
Fixpoint randbelow_loop (fuel : nat) (self : SplitMix64) (n limit : Z)
  : result (Z * SplitMix64) :=
  match fuel with
  | O => Hang
  | S fuel' =>
      let '(r, self') := next_u64 self in
      if r <? limit then Ok (r mod n, self')
      else randbelow_loop fuel' self' n limit
  end.

(** [randbelow]: the loop is run for [n] draws, which is as good as any
    larger number ([randbelow_loop_enough], [randbelow_loop_never]). *)
Definition randbelow (self : SplitMix64) (n : Z) : result (Z * SplitMix64) :=
  if n <=? 0 then Raise (ValueError "n must be > 0")
  else
    let limit := Z.shiftl 1 64 - (Z.shiftl 1 64) mod n in
    randbelow_loop (Z.to_nat n) self n limit.

(** [arr[i], arr[j] = arr[j], arr[i]]. *)
Definition swap {A : Type} (arr : list A) (i j : nat) : result (list A) :=
  match arr !! j, arr !! i with
  | Some aj, Some ai => Ok (<[j := ai]> (<[i := aj]> arr))
  | _, _ => Raise (IndexError "list index out of range")
  end.

(** The Fisher-Yates loop [for i in range(len(arr) - 1, 0, -1)], started
    at index [i]. *)
Fixpoint fisher_yates {A : Type} (i : nat) (rng : SplitMix64) (arr : list A)
  : result (list A) :=
  match i with
  | O => Ok arr
  | S i' =>
      match randbelow rng (Z.of_nat i + 1) with
      | Ok (j, rng') =>
          match swap arr i (Z.to_nat j) with
          | Ok arr' => fisher_yates i' rng' arr'
          | Raise e => Raise e
          | Hang => Hang
          end
      | Raise e => Raise e
      | Hang => Hang
      end
  end.

Definition deterministic_shuffle {A : Type} (items : list A) (master_seed_bytes : list byte)
  : result (list A) :=
  let seed_u64 := int_from_bytes_big (take 8 master_seed_bytes) in
  let rng := SplitMix64_init seed_u64 in
  let arr := items in
  fisher_yates (length arr - 1) rng arr.

(* ================================================================== *)
(** ** Poker deck utilities                                             *)
(* ================================================================== *)

Definition RANKS : list string :=
  ["A"; "K"; "Q"; "J"; "10"; "9"; "8"; "7"; "6"; "5"; "4"; "3"; "2"].

Definition SUITS : list string := ["♠"; "♥"; "♦"; "♣"].

Definition make_deck : list string :=
  flat_map (fun s => map (fun r => r +:+ s) RANKS) SUITS.


(* ================================================================== *)
(** ** Ordered dictionaries                                             *)
(* ================================================================== *)

(** A Python [dict] with string keys, in insertion order. *)
Section dict.
Context {V : Type}.

Fixpoint dict_get (k : string) (d : list (string * V)) : option V :=
    match d with
    | [] => None
    | (k', v) :: d' => if decide (k = k') then Some v else dict_get k d'
    end.

  (** [d[k] = v]: an existing key keeps its position. *)
Fixpoint dict_set (k : string) (v : V) (d : list (string * V)) : list (string * V) :=
    match d with
    | [] => [(k, v)]
    | (k', v') :: d' =>
        if decide (k = k') then (k, v) :: d' else (k', v') :: dict_set k v d'
    end.

  (** [d.pop(k, None)]. *)
Fixpoint dict_pop (k : string) (d : list (string * V)) : list (string * V) :=
    match d with
    | [] => []
    | (k', v) :: d' => if decide (k = k') then d' else (k', v) :: dict_pop k d'
    end.

  (** [sorted(d.items(), key=lambda kv: kv[0])], a stable sort. *)
Fixpoint insert_by_key (x : string * V) (l : list (string * V)) : list (string * V) :=
    match l with
    | [] => [x]
    | y :: l' => if String.leb x.1 y.1 then x :: l else y :: insert_by_key x l'
    end.

Definition sorted_by_key (l : list (string * V)) : list (string * V) :=
    foldr insert_by_key [] l.
End dict.

(* ================================================================== *)
(** ** Room state                                                       *)
(* ================================================================== *)

(** The [ws] field of a player is the connection that created the
    object; it is the object's address in the heap below. *)
Record Player : Type := mkPlayer {
  pid : string;
  name : string;
  avatar : string;
  is_host : bool;
  commitment : option string;
  seed : option string;
  salt : option string;
  hole : list string
}.

Inductive Stage : Type := LOBBY | COMMIT | REVEAL | HAND | AUDIT.

Global Instance Stage_eq_dec : EqDecision Stage.
Proof. solve_decision. Defined.

(** [room.transcript] once a hand is dealt ([created_at], a wall-clock
    stamp, is left out). *)
Record Transcript : Type := mkTranscript {
  t_variant : string;
  holes : list (string * list nat);
  community_indices : list nat
}.

(** [players] maps a pid to a player object, by address. [transcript] is
    [None] for the empty dictionary. *)
Record Room : Type := mkRoom {
  code : string;
  players : list (string * nat);
  variant : string;
  stage : Stage;
  community : list string;
  deck : list string;
  deal_index : nat;
  master_seed_hex : option string;
  transcript : option Transcript
}.

Definition Room_new (code : string) : Room :=
  mkRoom code [] "TEXAS" LOBBY [] [] 0 None None.

(** Outbound messages. The content of a [state] message
    ([room_public_state]) is not represented. *)
Inductive payload : Type :=
| Log (text : string)
| State
| AuditPayload (master_seed_hex : option string) (deck : list string)
    (deck_hash : string) (reveals : list (string * option string * option string))
    (transcript : option Transcript).

(** The world: one room, the player objects, the connections whose
    handler is still running, and everything sent so far. *)
Record World : Type := mkWorld {
  room : Room;
  heap : list Player;
  running : list nat;
  outbox : list (nat * payload)
}.

Definition init_world (code : string) : World :=
  mkWorld (Room_new code) [] [] [].

Definition no_player : Player := mkPlayer "" "" "" false None None None [].

(** The object at address [r]. *)
Definition obj (w : World) (r : nat) : Player := default no_player (heap w !! r).

(** [room.players.items()] with the objects read. *)
Definition items (w : World) : list (string * Player) :=
  map (fun kr => (kr.1, obj w kr.2)) (players (room w)).

(** [room.players.values()]. *)
Definition values (w : World) : list Player := map snd (items w).

(** Field updates. *)
Definition set_players v (r : Room) : Room :=
  mkRoom (code r) v (variant r) (stage r) (community r) (deck r) (deal_index r)
    (master_seed_hex r) (transcript r).
Definition set_variant v (r : Room) : Room :=
  mkRoom (code r) (players r) v (stage r) (community r) (deck r) (deal_index r)
    (master_seed_hex r) (transcript r).
Definition set_stage v (r : Room) : Room :=
  mkRoom (code r) (players r) (variant r) v (community r) (deck r) (deal_index r)
    (master_seed_hex r) (transcript r).
Definition set_community v (r : Room) : Room :=
  mkRoom (code r) (players r) (variant r) (stage r) v (deck r) (deal_index r)
    (master_seed_hex r) (transcript r).
Definition set_deck v (r : Room) : Room :=
  mkRoom (code r) (players r) (variant r) (stage r) (community r) v (deal_index r)
    (master_seed_hex r) (transcript r).
Definition set_deal_index v (r : Room) : Room :=
  mkRoom (code r) (players r) (variant r) (stage r) (community r) (deck r) v
    (master_seed_hex r) (transcript r).
Definition set_master_seed_hex v (r : Room) : Room :=
  mkRoom (code r) (players r) (variant r) (stage r) (community r) (deck r) (deal_index r)
    v (transcript r).
Definition set_transcript v (r : Room) : Room :=
  mkRoom (code r) (players r) (variant r) (stage r) (community r) (deck r) (deal_index r)
    (master_seed_hex r) v.

Definition set_name v (p : Player) : Player :=
  mkPlayer (pid p) v (avatar p) (is_host p) (commitment p) (seed p) (salt p) (hole p).
Definition set_avatar v (p : Player) : Player :=
  mkPlayer (pid p) (name p) v (is_host p) (commitment p) (seed p) (salt p) (hole p).
Definition set_is_host v (p : Player) : Player :=
  mkPlayer (pid p) (name p) (avatar p) v (commitment p) (seed p) (salt p) (hole p).
Definition set_commitment v (p : Player) : Player :=
  mkPlayer (pid p) (name p) (avatar p) (is_host p) v (seed p) (salt p) (hole p).
Definition set_seed v (p : Player) : Player :=
  mkPlayer (pid p) (name p) (avatar p) (is_host p) (commitment p) v (salt p) (hole p).
Definition set_salt v (p : Player) : Player :=
  mkPlayer (pid p) (name p) (avatar p) (is_host p) (commitment p) (seed p) v (hole p).
Definition set_hole v (p : Player) : Player :=
  mkPlayer (pid p) (name p) (avatar p) (is_host p) (commitment p) (seed p) (salt p) v.

(* ================================================================== *)
(** ** The handler monad: state that survives a raised exception        *)
(* ================================================================== *)

Definition M (A : Type) : Type := World -> result A * World.

Definition ret {A : Type} (a : A) : M A := fun w => (Ok a, w).

Definition bind {A B : Type} (m : M A) (k : A -> M B) : M B :=
  fun w =>
    match m w with
    | (Ok a, w') => k a w'
    | (Raise e, w') => (Raise e, w')
    | (Hang, w') => (Hang, w')
    end.

Definition raise {A : Type} (e : exn) : M A := fun w => (Raise e, w).

(** A pure call that may raise. *)
Definition lift {A : Type} (r : result A) : M A := fun w => (r, w).

Definition get : M World := fun w => (Ok w, w).

Definition update_room (f : Room -> Room) : M unit :=
  fun w => (Ok tt, mkWorld (f (room w)) (heap w) (running w) (outbox w)).

(** Assignment to the fields of the object at address [r]. *)
Definition update_obj (r : nat) (f : Player -> Player) : M unit :=
  fun w => (Ok tt, mkWorld (room w) (alter f r (heap w)) (running w) (outbox w)).

Definition emit (to : nat) (p : payload) : M unit :=
  fun w => (Ok tt, mkWorld (room w) (heap w) (running w) (outbox w ++ [(to, p)])).

(** A new object, at the next free address. *)
Definition new_object (p : Player) : M nat :=
  fun w => (Ok (length (heap w)), mkWorld (room w) (heap w ++ [p]) (running w) (outbox w)).

(** The handler of connection [h] enters, and leaves, its receive loop. *)
Definition start (h : nat) : M unit :=
  fun w => (Ok tt, mkWorld (room w) (heap w) (running w ++ [h]) (outbox w)).

Definition stop (h : nat) : M unit :=
  fun w => (Ok tt, mkWorld (room w) (heap w) (filter (fun x => x ≠ h) (running w)) (outbox w)).

Notation "'let*' x ':=' m 'in' k" := (bind m (fun x => k))
  (at level 10, x name, m at level 100, k at level 200).

(** [for x in l: body(x)]. *)
Fixpoint for_each {A : Type} (l : list A) (body : A -> M unit) : M unit :=
  match l with
  | [] => ret tt
  | x :: l' => let* _ := body x in for_each l' body
  end.

(** [for _ in range(n): body]. *)
Fixpoint repeat_n (n : nat) (body : M unit) : M unit :=
  match n with
  | O => ret tt
  | S n' => let* _ := body in repeat_n n' body
  end.

(* ================================================================== *)
(** ** WebSocket game server                                            *)
(* ================================================================== *)

(** What a [send_text] on a connection does during one handler step. *)
Inductive delivery : Type :=
| Delivered
| Fails (e : exn).

Definition delivered (d : delivery) : bool :=
  match d with Delivered => true | Fails _ => false end.

(** Inbound messages: the JSON object of a text frame, by its [type],
    with the fields the handler reads ([None] for an absent or null
    field). *)
Inductive message : Type :=
| Join (name avatar : option string)
| Commit (commitment : option string)
| Reveal (seed salt : option string)
| StartHand (variant : option string)
| Deal (what : option string)
| NewHand
| Audit
| Unknown (mtype : string).

(** A text frame: a message, or text on which [json.loads] or the first
    field access raises. *)
Inductive frame : Type :=
| Text (msg : message)
| Malformed (error : string).

(** The loop of [compute_master_seed] over the sorted items: it raises at
    the first participant without a seed or a salt. *)
Fixpoint master_seed_items (l : list (string * Player)) : result (list string) :=
  match l with
  | [] => Ok []
  | (k, p) :: l' =>
      if negb (truthy (seed p) && truthy (salt p))
      then Raise (ValueError "Missing reveal for player")
      else match master_seed_items l' with
           | Ok items =>
               Ok ((k +:+ ":" +:+ default "" (seed p) +:+ ":" +:+ default "" (salt p)) :: items)
           | other => other
           end
  end.

(** [compute_master_seed], on [room.players.items()]. *)
Definition compute_master_seed (players : list (string * Player))
  : result (list byte * string) :=
  match master_seed_items (sorted_by_key players) with
  | Ok items =>
      let joined := join "|" items +:+ "|" in
      let digest := sha256_bytes (encode_utf8 joined) in
      Ok (digest, hashlib.hex digest)
  | Raise e => Raise e
  | Hang => Hang
  end.

Definition reset_hand : M unit :=
  let* _ := update_room (set_community []) in
  let* _ := update_room (set_deck []) in
  let* _ := update_room (set_deal_index 0%nat) in
  let* _ := update_room (set_master_seed_hex None) in
  let* _ := update_room (set_transcript None) in
  let* w := get in
  for_each (map snd (players (room w))) (fun r => update_obj r (set_hole [])).

(** [room.transcript["holes"][k] = v]. *)
Definition set_holes (k : string) (v : list nat) (r : Room) : result Room :=
  match transcript r with
  | Some t =>
      Ok (set_transcript
            (Some (mkTranscript (t_variant t) (dict_set k v (holes t)) (community_indices t))) r)
  | None => Raise (KeyError "'holes'")
  end.

(** [room.transcript["holes"][k].append(idx)]. *)
Definition append_hole (k : string) (idx : nat) (r : Room) : result Room :=
  match transcript r with
  | Some t =>
      match dict_get k (holes t) with
      | Some l => set_holes k (l ++ [idx]) r
      | None => Raise (KeyError k)
      end
  | None => Raise (KeyError "'holes'")
  end.

(** [room.transcript["community_indices"].append(idx)]. *)
Definition append_community_index (idx : nat) (r : Room) : result Room :=
  match transcript r with
  | Some t =>
      Ok (set_transcript
            (Some (mkTranscript (t_variant t) (holes t) (community_indices t ++ [idx]))) r)
  | None => Raise (KeyError "'community_indices'")
  end.

(** A room update that may raise. *)
Definition try_update_room (f : Room -> result Room) : M unit :=
  let* w := get in
  let* r := lift (f (room w)) in
  update_room (fun _ => r).

(** [room.deck[idx]]. *)
Definition deck_at (idx : nat) : M string :=
  let* w := get in
  match deck (room w) !! idx with
  | Some card => ret card
  | None => raise (IndexError "list index out of range")
  end.

(** The bodies of the three loops of the deal engine: a player's hand
    and transcript entry are emptied; the card at the cursor goes to a
    player; the card at the cursor goes to the community. *)
Definition clear_hole (r : nat) : M unit :=
  let* _ := update_obj r (set_hole []) in
  let* w := get in
  try_update_room (set_holes (pid (obj w r)) []).

Definition deal_to (r : nat) : M unit :=
  let* w := get in
  let idx := deal_index (room w) in
  let* card := deck_at idx in
  let* _ := update_obj r (fun p => set_hole (hole p ++ [card]) p) in
  let* _ := try_update_room (append_hole (pid (obj w r)) idx) in
  update_room (set_deal_index (idx + 1)%nat).

Definition deal_to_community : M unit :=
  let* w := get in
  let idx := deal_index (room w) in
  let* card := deck_at idx in
  let* _ := update_room (fun r => set_community (community r ++ [card]) r) in
  let* _ := try_update_room (append_community_index idx) in
  update_room (set_deal_index (idx + 1)%nat).

Definition deal_hole : M unit :=
  let* w := get in
  let* seed := lift (compute_master_seed (items w)) in
  let* _ := update_room (set_master_seed_hex (Some seed.2)) in
  let* shuffled := lift (deterministic_shuffle make_deck seed.1) in
  let* _ := update_room (set_deck shuffled) in
  let* _ := update_room (set_deal_index 0%nat) in
  let* _ := update_room (set_transcript (Some (mkTranscript (variant (room w)) [] []))) in
  let hole_n := if decide (variant (room w) = "TEXAS") then 2%nat else 4%nat in
  let order := map snd (players (room w)) in
  let* _ := for_each order clear_hole in
  repeat_n hole_n (for_each order deal_to).

Definition deal_community (count : nat) : M unit :=
  repeat_n count deal_to_community.

Section server.
  (** The outcome of sending on each connection during the step. *)
Variable net : nat -> delivery.

  (** [await websocket.send_text(...)] on the handler's own connection. *)
Definition send_text (h : nat) (p : payload) : M unit :=
    match net h with
    | Delivered => emit h p
    | Fails e => raise e
    end.

  (** [broadcast]: players whose send fails are collected by [pid] and
      popped afterwards. *)
Definition broadcast (p : payload) : M unit :=
    let* w := get in
    let targets := map snd (players (room w)) in
    let* _ := for_each (filter (fun r => delivered (net r) = true) targets)
                (fun r => emit r p) in
    let dead := map (fun r => pid (obj w r))
                  (filter (fun r => delivered (net r) = false) targets) in
    for_each dead (fun k => update_room (fun r => set_players (dict_pop k (players r)) r)).

  (** [send_state]: every player is sent the room state; a failed send
      pops the player at once. *)
Definition send_state : M unit :=
    let* w := get in
    for_each (players (room w)) (fun kr =>
      match net kr.2 with
      | Delivered => emit kr.2 State
      | Fails _ => update_room (fun r => set_players (dict_pop kr.1 (players r)) r)
      end).

  (** The first participant, in join order, that blocks [start_hand],
      with the notice sent for it. *)
Fixpoint first_unready (ps : list Player) : option string :=
    match ps with
    | [] => None
    | p :: ps' =>
        if negb (truthy (commitment p)) then Some (name p +:+ " has not committed.")
        else if negb (truthy (seed p) && truthy (salt p))
             then Some (name p +:+ " has not revealed to server.")
             else first_unready ps'
    end.

  (** One iteration of the receive loop of [ws], for the handler at
      address [h], after a frame arrived. [Ok] is the next iteration. *)
Definition on_frame (h : nat) (f : frame) : M unit :=
    match f with
    | Malformed error => raise (Exception error)
    | Text (Join n a) =>
        let* _ := update_obj h (set_name (slice_to 18 (or_default n "Player"))) in
        let* _ := update_obj h (set_avatar (slice_to 2 (or_default a ""))) in
        let* w := get in
        let* _ := broadcast (Log (name (obj w h) +:+ " joined the table.")) in
        send_state
    | Text (Commit c) =>
        if negb (truthy c) || negb (len (default "" c) =? 64)%nat
        then send_text h (Log "Invalid commitment.")
        else
          let* _ := update_obj h (set_commitment c) in
          let* w := get in
          let* _ := broadcast (Log (name (obj w h) +:+ " committed.")) in
          let* w := get in
          let* _ := (if decide (stage (room w) = LOBBY)
                     then update_room (set_stage COMMIT) else ret tt) in
          send_state
    | Text (Reveal sd sl) =>
        let seed := or_default sd "" in
        let salt := or_default sl "" in
        let* w := get in
        if negb (truthy (commitment (obj w h)))
        then send_text h (Log "Commit first.")
        else
          let calc := sha256_hex (seed +:+ "|" +:+ salt) in
          if negb (bool_decide (Some calc = commitment (obj w h)))
          then send_text h (Log "Reveal does not match commitment ❌")
          else
            let* _ := update_obj h (set_seed (Some seed)) in
            let* _ := update_obj h (set_salt (Some salt)) in
            let* _ := broadcast (Log (name (obj w h) +:+ " revealed to server.")) in
            let* _ := update_room (set_stage REVEAL) in
            send_state
    | Text (StartHand v) =>
        let* w := get in
        if negb (is_host (obj w h))
        then send_text h (Log "Host only.")
        else
          let variant := upper (or_default v "TEXAS") in
          let variant := if bool_decide (variant = "TEXAS") || bool_decide (variant = "OMAHA")
                         then variant else "TEXAS" in
          let* _ := update_room (set_variant variant) in
          if (length (players (room w)) <? 2)%nat
          then send_text h (Log "Need at least 2 players.")
          else
            match first_unready (values w) with
            | Some notice => send_text h (Log notice)
            | None =>
                let* _ := reset_hand in
                let* _ := deal_hole in
                let* _ := update_room (set_stage HAND) in
                let* _ := broadcast (Log ("New hand started • " +:+ variant
                                          +:+ " • Dealt hole cards.")) in
                send_state
            end
    | Text (Deal what) =>
        let* w := get in
        if negb (is_host (obj w h))
        then send_text h (Log "Host only.")
        else if negb (bool_decide (stage (room w) = HAND)) || bool_decide (deck (room w) = [])
        then send_text h (Log "Start a hand first.")
        else
          let n := length (community (room w)) in
          let* _ :=
            (if bool_decide (what = Some "flop") && (n =? 0)%nat
             then let* _ := deal_community 3 in broadcast (Log "Flop dealt.")
             else if bool_decide (what = Some "turn") && (n =? 3)%nat
             then let* _ := deal_community 1 in broadcast (Log "Turn dealt.")
             else if bool_decide (what = Some "river") && (n =? 4)%nat
             then let* _ := deal_community 1 in broadcast (Log "River dealt.")
             else send_text h (Log "That deal action is not valid right now.")) in
          send_state
    | Text NewHand =>
        let* w := get in
        if negb (is_host (obj w h))
        then send_text h (Log "Host only.")
        else
          let* _ := reset_hand in
          let* _ := update_room (set_stage HAND) in
          let* _ := deal_hole in
          let* _ := broadcast (Log "New hand (same commitments) • Dealt hole cards.") in
          send_state
    | Text Audit =>
        let* w := get in
        if negb (bool_decide (stage (room w) = HAND)) || bool_decide (deck (room w) = [])
           || negb (truthy (master_seed_hex (room w)))
        then send_text h (Log "Nothing to audit yet.")
        else
          let reveals := map (fun kv => (kv.1, seed kv.2, salt kv.2)) (sorted_by_key (items w)) in
          let deck_hash := sha256_hex (join "|" (deck (room w)) +:+ "|") in
          let payload := AuditPayload (master_seed_hex (room w)) (deck (room w)) deck_hash
                           reveals (transcript (room w)) in
          let* _ := update_room (set_stage AUDIT) in
          let* _ := broadcast (Log "AUDIT broadcast: seeds revealed. Verify now.") in
          let* _ := broadcast payload in
          send_state
    | Text (Unknown _) => send_text h (Log "Unknown message.")
    end.

  (** [except WebSocketDisconnect]. *)
Definition on_disconnect (h : nat) : M unit :=
    let* w := get in
    let* _ := update_room (fun r => set_players (dict_pop (pid (obj w h)) (players r)) r) in
    let* _ := broadcast (Log (name (obj w h) +:+ " left.")) in
    let* w := get in
    let* _ :=
      (if negb (existsb is_host (values w)) && (0 <? length (players (room w)))%nat
       then match players (room w) with
            | (_, first) :: _ =>
                let* _ := update_obj first (set_is_host true) in
                let* w := get in
                broadcast (Log (name (obj w first) +:+ " is now HOST."))
            | [] => ret tt
            end
       else ret tt) in
    send_state.

  (** [except Exception as e]. *)
Definition on_exception (h : nat) (e : exn) : M unit :=
    let* w := get in
    let* _ := update_room (fun r => set_players (dict_pop (pid (obj w h)) (players r)) r) in
    let* _ := broadcast (Log ("Error: " +:+ str_exn e)) in
    send_state.

  (** The [try] statement around the receive loop: what the handler at
      [h] does with the result [r] of an iteration. *)
Definition handle (h : nat) (body : M unit) : M unit :=
    fun w =>
      match body w with
      | (Ok tt, w') => (Ok tt, w')
      | (Raise WebSocketDisconnect, w') => (let* _ := on_disconnect h in stop h) w'
      | (Raise e, w') => (let* _ := on_exception h e in stop h) w'
      | (Hang, w') => (Hang, w')
      end.

  (** [ws] up to the receive loop, for a new connection with path
      parameter [pid]. An exception of the first [send_text] leaves the
      handler, which never runs its loop. *)
Definition ws_connect (pid : string) : M unit :=
    let* w := get in
    let* h := new_object
                (mkPlayer pid "Player" "" (length (players (room w)) =? 0)%nat
                   None None None []) in
    let* _ := update_room (fun r => set_players (dict_set pid h (players r)) r) in
    let* _ := send_text h State in
    let* _ := broadcast (Log ("Player connected: " +:+ slice_to 8 pid +:+ "…")) in
    start h.
End server.

(** What happens to the server: a connection is opened, a frame arrives
    on a running connection, or a running connection is closed by the
    peer ([receive_text] raises [WebSocketDisconnect]). *)
Inductive event : Type :=
| Connect (pid : string)
| Receive (h : nat) (f : frame)
| Close (h : nat).

Definition is_running (w : World) (h : nat) : bool := bool_decide (h ∈ running w).

(** One event, under the deliveries [net]. An event of a connection that
    is not running cannot occur and is skipped. *)
Definition step (net : nat -> delivery) (ev : event) (w : World) : result unit * World :=
  match ev with
  | Connect pid => ws_connect net pid w
  | Receive h f =>
      if is_running w h then handle net h (on_frame net h f) w else (Ok tt, w)
  | Close h =>
      if is_running w h then handle net h (raise WebSocketDisconnect) w else (Ok tt, w)
  end.

(** A run of the server from a fresh room. *)
Definition run (code : string) (evs : list ((nat -> delivery) * event)) : World :=
  fold_left (fun w e => (step e.1 e.2 w).2) evs (init_world code).

Definition reliable : nat -> delivery := fun _ => Delivered.


(* ================================================================== *)
(** ** The state message                                                *)
(* ================================================================== *)

(** One entry of the ["players"] object of a state message. *)
Record PublicPlayer : Type := mkPublicPlayer {
  pp_pid : string;
  pp_name : string;
  pp_avatar : string;
  pp_is_host : bool;
  pp_commitment : option string;
  pp_revealed : bool
}.

(** The dictionary [room_public_state] returns. *)
Record PublicState : Type := mkPublicState {
  ps_room : string;
  ps_stage : Stage;
  ps_variant : string;
  ps_players : list (string * PublicPlayer);
  ps_community : list string;
  ps_my_hole : list string;
  ps_audit_pending : bool
}.

(** [room_public_state(room, pid)]: the entries are keyed by the [pid]
    field of the objects; [me] is looked up by the key. *)
Definition room_public_state (w : World) (pid' : string) : PublicState :=
  let r := room w in
  let players :=
    fold_left
      (fun players p =>
         dict_set (pid p)
           (mkPublicPlayer (pid p) (name p) (avatar p) (is_host p) (commitment p)
              (if bool_decide (stage r = HAND) || bool_decide (stage r = AUDIT)
               then truthy (seed p) && truthy (salt p) else false))
           players)
      (values w) [] in
  let me := dict_get pid' (items w) in
  let my_hole := match me with Some p => hole p | None => [] end in
  mkPublicState (code r) (stage r) (variant r) players (community r) my_hole
    (bool_decide (stage r = HAND)).

(* ================================================================== *)
(** ** Vocabulary of the statements                                     *)
(* ================================================================== *)

(** The xor-shift step. *)
Definition xorshift (k x : Z) : Z := Z.lxor x (Z.shiftr x k).

(** The output function of the generator, on an advanced state. *)
Definition mix (s : Z) : Z :=
  let z := _u64 (xorshift 30 s * 0xBF58476D1CE4E5B9) in
  let z := _u64 (xorshift 27 z * 0x94D049BB133111EB) in
  _u64 (xorshift 31 z).

Definition advance (s : Z) : Z := _u64 (s + 0x9E3779B97F4A7C15).

(** The generator after [k] calls, and the raw output of call [k+1]. *)
Fixpoint skip (k : nat) (self : SplitMix64) : SplitMix64 :=
  match k with
  | O => self
  | S k' => skip k' (next_u64 self).2
  end.

Definition draw (self : SplitMix64) (k : nat) : Z := (next_u64 (skip k self)).1.

Definition GAMMA : Z := 0x9E3779B97F4A7C15.


(** Order of the entries of a dictionary by key. *)
Definition key_le {V : Type} (a b : string * V) : Prop := String.le a.1 b.1.

(** A participant has a reveal on file. *)
Definition revealed (p : Player) : bool := truthy (seed p) && truthy (salt p).

(** What the master seed depends on. *)
Definition triple (kv : string * Player) : string * (option string * option string) :=
  (kv.1, (seed kv.2, salt kv.2)).




(** Lowercase hexadecimal digits. *)
Definition is_lower_hex_digit (c : ascii) : bool :=
  let n := N_of_ascii c in
  ((48 <=? n) && (n <=? 57) || (97 <=? n) && (n <=? 102))%N.

Fixpoint is_lower_hex (s : string) : bool :=
  match s with
  | EmptyString => true
  | String c s' => is_lower_hex_digit c && is_lower_hex s'
  end.

(** A notice sent to one connection, and nothing else. *)
Definition notify (w : World) (h : nat) (text : string) : World :=
  mkWorld (room w) (heap w) (running w) (outbox w ++ [(h, Log text)]).

(** A commitment as the specification words it: a 256-bit digest in
    lowercase hexadecimal, 64 characters. *)
Definition is_sha256_hex (s : string) : bool :=
  (len s =? 64)%nat && is_lower_hex s.

(** What the commit branch accepts. *)
Definition commit_accepts (c : option string) : bool :=
  truthy c && (len (default "" c) =? 64)%nat.

(** [respects R m]: whatever its outcome, [m] takes a world to one
    related by [R]. *)
Definition respects {A} (R : relation World) (m : M A) : Prop :=
  forall w, R w (m w).2.


(** [broadcast] and [send_state] always return; they change the room's
    players and extend the outbox, nothing else. *)
Definition only_players (w w' : World) : Prop :=
  room w' = set_players (players (room w')) (room w) /\
  heap w' = heap w /\ running w' = running w /\
  exists out, outbox w' = outbox w ++ out.


(** The invariant of the room's deck: the cursor is within the deck, and
    the deck is empty or a duplicate-free arrangement of the 52 cards. *)
Definition deck_inv (r : Room) : Prop :=
  (deal_index r <= length (deck r))%nat /\
  (deck r = [] \/ (deck r ≡ₚ make_deck /\ NoDup (deck r))).

(** A step that keeps the invariant, whatever its outcome. *)
Definition keeps_deck_inv (w w' : World) : Prop :=
  deck_inv (room w) -> deck_inv (room w').

(** A step that leaves deck and cursor alone. *)
Definition same_deck (w w' : World) : Prop :=
  deck (room w') = deck (room w) /\ deal_index (room w') = deal_index (room w).

(** Every deck index a transcript records, hole cards first. *)
Definition recorded_indices (t : Transcript) : list nat :=
  concat (holes t).*2 ++ community_indices t.

(** The state of a hand while it is dealt: deck [d], cursor [c], the
    identities [pids] of the objects, a transcript that records exactly
    the indices below the cursor, with an entry for every player of
    [order] and the community indices [comm]. *)
Definition dealing (pids : nat -> string) (order : list nat) (d : list string)
    (comm : list nat) (c : nat) (w : World) : Prop :=
  deck (room w) = d /\ deal_index (room w) = c /\
  (forall r, pid (obj w r) = pids r) /\
  exists t, transcript (room w) = Some t /\
            community_indices t = comm /\
            recorded_indices t ≡ₚ seq 0 c /\
            (forall r, r ∈ order -> is_Some (dict_get (pids r) (holes t))).

(** The two-hole variant deals 2 cards to each player, the other 4. *)
Definition hole_n (variant : string) : nat :=
  if decide (variant = "TEXAS") then 2%nat else 4%nat.

(** Hole cards, then flop, turn and river. *)
Definition deal_full_hand : M unit :=
  let* _ := deal_hole in
  let* _ := deal_community 3 in
  let* _ := deal_community 1 in
  deal_community 1.

(** The variant a [start_hand] message selects. *)
Definition chosen_variant (v : option string) : string :=
  let variant := upper (or_default v "TEXAS") in
  if bool_decide (variant = "TEXAS") || bool_decide (variant = "OMAHA")
  then variant else "TEXAS".

(** The stored reveal of a participant does not hash to the commitment
    the participant currently holds. *)
Definition stale_reveal (p : Player) : Prop :=
  exists c sd sl,
    commitment p = Some c /\ seed p = Some sd /\ salt p = Some sl /\
    sha256_hex (sd +:+ "|" +:+ sl) <> c.

(** A step that leaves the stage alone. *)
Definition same_stage (w w' : World) : Prop := stage (room w') = stage (room w).

(** The transcript entries of the players [keys], in join order, after
    [n] complete rounds and the first [i] cards of the next one: round
    [m] gave player [j] the index [m * k + j], for [k] players. *)
Definition holes_after (keys : list string) (n i : nat) : list (string * list nat) :=
  imap (fun j key =>
          (key, (fun m => (m * length keys + j)%nat)
                  <$> seq 0 (if decide (j < i)%nat then S n else n)))
       keys.

(** The state of a hand with its transcript entries known exactly. *)
Definition in_round (pids : nat -> string) (order : list nat) (d : list string)
    (n i : nat) (w : World) : Prop :=
  deck (room w) = d /\ deal_index (room w) = (n * length order + i)%nat /\
  (forall r, pid (obj w r) = pids r) /\
  exists t, transcript (room w) = Some t /\ holes t = holes_after (pids <$> order) n i.

(** A step that leaves the transcript entries of the players alone. *)
Definition same_holes (w w' : World) : Prop :=
  holes <$> transcript (room w') = holes <$> transcript (room w).

(** Well-formed worlds: the keys of [room.players] are distinct, every
    key is the [pid] of the object it maps to, and every address in use
    is allocated. *)
Definition wf (w : World) : Prop :=
  NoDup (players (room w)).*1 /\
  (forall k r, (k, r) ∈ players (room w) ->
               (r < length (heap w))%nat /\ pid (obj w r) = k) /\
  (forall h, h ∈ running w -> (h < length (heap w))%nat).

Definition keeps_wf (w w' : World) : Prop := wf w -> wf w'.

(* ================================================================== *)
(** ** Vocabulary of the further properties                             *)
(* ================================================================== *)





(** The entries of [room.players] whose connection takes a send. *)
Definition live (net : nat -> delivery) (ps : list (string * nat)) : list (string * nat) :=
  filter (fun kr => delivered (net kr.2) = true) ps.

(** The world after [payload] went to every live player and the others
    were dropped. *)
Definition sent_to_live (net : nat -> delivery) (p : payload) (w : World) : World :=
  mkWorld (set_players (live net (players (room w))) (room w)) (heap w) (running w)
    (outbox w ++ map (fun kr => (kr.2, p)) (live net (players (room w)))).


(** A step that keeps a property of worlds, whatever its outcome. *)
Definition keeps (P : World -> Prop) : relation World := fun w w' => P w -> P w'.

(** The hand of a room and its audit trail agree.  With no transcript
    nothing is dealt; with one, the deck is the shuffle under the
    published master seed of 32 bytes, the transcript records each deck position
    below the cursor once, and the community cards are the deck cards at
    the recorded community positions. *)
Definition hand_inv (r : Room) : Prop :=
  match transcript r with
  | None =>
      community r = [] /\ deck r = [] /\ deal_index r = 0%nat /\ master_seed_hex r = None
  | Some t =>
      (exists b, length b = 32%nat /\ master_seed_hex r = Some (hashlib.hex b) /\
                 deterministic_shuffle make_deck b = Ok (deck r)) /\
      (deal_index r <= length (deck r))%nat /\
      recorded_indices t ≡ₚ seq 0 (deal_index r) /\
      Some <$> community r = (fun i => deck r !! i) <$> community_indices t
  end.

(** What an audit message must satisfy for a client to check it: the
    deck hash is the digest of the deck it carries, the deck is the
    shuffle under the master seed it carries, and its transcript records
    each of the first [c] deck positions once. *)
Definition audit_sound (p : payload) : Prop :=
  match p with
  | AuditPayload seed_hex d deck_hash _ t =>
      deck_hash = sha256_hex (join "|" d +:+ "|") /\
      (exists b, length b = 32%nat /\ seed_hex = Some (hashlib.hex b) /\
                 deterministic_shuffle make_deck b = Ok d) /\
      exists t' c, t = Some t' /\ (c <= 52)%nat /\ recorded_indices t' ≡ₚ seq 0 c
  | _ => True
  end.

(** The invariant of the table: the hand is consistent, at most five
    community cards are out, and every audit message sent is sound. *)
Definition table_inv (w : World) : Prop :=
  hand_inv (room w) /\ (length (community (room w)) <= 5)%nat /\
  Forall (fun m => audit_sound m.2) (outbox w).

(** A step that leaves the hand alone and sends sound messages only. *)
Definition quiet (w w' : World) : Prop :=
  (community (room w') = community (room w) /\ deck (room w') = deck (room w) /\
   deal_index (room w') = deal_index (room w) /\
   master_seed_hex (room w') = master_seed_hex (room w) /\
   transcript (room w') = transcript (room w)) /\
  exists out, outbox w' = outbox w ++ out /\ Forall (fun m => audit_sound m.2) out.

(** The number of hosts among the players of the room. *)
Definition hosts (w : World) : nat :=
  length (filter (fun p => is_host p = true) (values w)).

(** The host flags of the players of the room, in join order. *)
Definition host_flags (w : World) : list bool :=
  (fun kr => is_host (obj w kr.2)) <$> players (room w).

(** A step that makes nobody a host and adds no player. *)
Definition fewer_hosts (w w' : World) : Prop :=
  host_flags w' `sublist_of` host_flags w.

(** Well-formed worlds with at most one host. *)
Definition one_host (w : World) : Prop := wf w /\ (hosts w <= 1)%nat.

(** A display name as the join branch leaves it: not empty, at most 18
    characters; an avatar of at most 2. *)
Definition name_ok (p : Player) : Prop :=
  name p <> "" /\ (len (name p) <= 18)%nat /\ (len (avatar p) <= 2)%nat.



(** The public entry of a player at stage [st]. *)
Definition public_entry (st : Stage) (p : Player) : PublicPlayer :=
  mkPublicPlayer (pid p) (name p) (avatar p) (is_host p) (commitment p)
    (match st with HAND | AUDIT => revealed p | _ => false end).

(** The hands agree with the transcript: every player of [order] holds
    the deck cards at the positions the transcript lists for the
    player's pid. *)
Definition hands_match (order : list nat) (w : World) : Prop :=
  exists t, transcript (room w) = Some t /\
    forall r, r ∈ order ->
      exists idxs, dict_get (pid (obj w r)) (holes t) = Some idxs /\
                   Some <$> hole (obj w r) = (fun i => deck (room w) !! i) <$> idxs.

(** The messages the handler takes from the host only. *)
Definition host_action (m : message) : bool :=
  match m with
  | StartHand _ | Deal _ | NewHand => true
  | _ => false
  end.

(** The part of a room that a hand consists of. *)
Definition hand_of (r : Room)
  : list string * list string * nat * option string * option Transcript :=
  (community r, deck r, deal_index r, master_seed_hex r, transcript r).

(** A step that starts and stops no handler. *)
Definition same_running (w w' : World) : Prop := running w' = running w.

(** A step that adds no player to the room. *)
Definition shrinks (w w' : World) : Prop :=
  players (room w') `sublist_of` players (room w).


(** A step that leaves deck, master seed and community alone. *)
Definition same_seed (w w' : World) : Prop :=
  deck (room w') = deck (room w) /\ master_seed_hex (room w') = master_seed_hex (room w) /\
  community (room w') = community (room w).

(** The number of cards a deal request puts out when [n] community
    cards are on the table, if it is valid then. *)
Definition deal_count (what : option string) (n : nat) : option nat :=
  if bool_decide (what = Some "flop") && (n =? 0)%nat then Some 3%nat
  else if bool_decide (what = Some "turn") && (n =? 3)%nat then Some 1%nat
  else if bool_decide (what = Some "river") && (n =? 4)%nat then Some 1%nat
  else None.

(** The audit message of a room. *)
Definition audit_payload (w : World) : payload :=
  AuditPayload (master_seed_hex (room w)) (deck (room w))
    (sha256_hex (join "|" (deck (room w)) +:+ "|"))
    (map (fun kv => (kv.1, seed kv.2, salt kv.2)) (sorted_by_key (items w)))
    (transcript (room w)).

(** A message to every player of the room, in join order. *)
Definition to_all (w : World) (p : payload) : list (nat * payload) :=
  map (fun kr => (kr.2, p)) (players (room w)).

(* ================================================================== *)
(** * Properties                                                        *)
(* ================================================================== *)

(** ** SplitMix64: the output function is a bijection on 64-bit words    *)

Lemma u64_mod x : _u64 x = x mod 2 ^ 64.
Proof. unfold _u64, MASK64. change (Z.shiftl 1 64 - 1) with (Z.ones 64). apply Z.land_ones. lia. Qed.

Lemma u64_range x : 0 <= _u64 x < 2 ^ 64.
Proof. rewrite u64_mod. apply Z.mod_pos_bound. lia. Qed.

Lemma u64_small x : 0 <= x < 2 ^ 64 -> _u64 x = x.
Proof. intros. rewrite u64_mod. apply Z.mod_small. done. Qed.

Lemma testbit_high a n i : 0 <= a < 2 ^ n -> 0 <= n <= i -> Z.testbit a i = false.
Proof.
  intros Ha Hi. rewrite <- (Z.mod_small a (2 ^ n)) by done.
  apply Z.mod_pow2_bits_high. done.
Qed.

Lemma small_of_bits a n :
  0 <= n -> 0 <= a -> (forall i, n <= i -> Z.testbit a i = false) -> 0 <= a < 2 ^ n.
Proof.
  intros Hn Ha Hbits.
  assert (a = a mod 2 ^ n) as ->.
  { apply Z.bits_inj'. intros i Hi.
    destruct (Z_lt_le_dec i n).
    - by rewrite Z.mod_pow2_bits_low.
    - rewrite Z.mod_pow2_bits_high by lia. by apply Hbits. }
  apply Z.mod_pos_bound. lia.
Qed.

Lemma xorshift_range k x : 0 <= k -> 0 <= x < 2 ^ 64 -> 0 <= xorshift k x < 2 ^ 64.
Proof.
  intros Hk Hx. unfold xorshift. apply small_of_bits; [lia| |].
  - apply Z.lxor_nonneg. rewrite Z.shiftr_nonneg. lia.
  - intros i Hi. rewrite Z.lxor_spec, Z.shiftr_spec by lia.
    rewrite !(testbit_high x 64) by lia. done.
Qed.

Lemma xorshift_inv k x :
  0 <= k -> 64 <= 3 * k -> 0 <= x < 2 ^ 64 ->
  let y := xorshift k x in
  Z.lxor (Z.lxor y (Z.shiftr y k)) (Z.shiftr y (2 * k)) = x.
Proof.
  intros Hk H3 Hx y. subst y. unfold xorshift.
  apply Z.bits_inj'. intros i Hi.
  rewrite !Z.lxor_spec, !Z.shiftr_spec, !Z.lxor_spec, !Z.shiftr_spec by lia.
  replace (i + 2 * k + k) with (i + 3 * k) by lia.
  replace (i + k + k) with (i + 2 * k) by lia.
  rewrite (testbit_high x 64 (i + 3 * k)) by lia.
  destruct (Z.testbit x i), (Z.testbit x (i + k)), (Z.testbit x (i + 2 * k)); done.
Qed.

Lemma xorshift_inj k x x' :
  0 <= k -> 64 <= 3 * k -> 0 <= x < 2 ^ 64 -> 0 <= x' < 2 ^ 64 ->
  xorshift k x = xorshift k x' -> x = x'.
Proof.
  intros Hk H3 Hx Hx' Heq.
  rewrite <- (xorshift_inv k x), <- (xorshift_inv k x') by done.
  simpl. by rewrite Heq.
Qed.

Lemma mul_inj c cinv x x' :
  (c * cinv) mod 2 ^ 64 = 1 -> 0 <= x < 2 ^ 64 -> 0 <= x' < 2 ^ 64 ->
  (x * c) mod 2 ^ 64 = (x' * c) mod 2 ^ 64 -> x = x'.
Proof.
  intros Hc Hx Hx' Heq.
  assert (forall y, 0 <= y < 2 ^ 64 -> (((y * c) mod 2 ^ 64) * cinv) mod 2 ^ 64 = y) as Hinv.
  { intros y Hy. rewrite Z.mul_mod_idemp_l by lia.
    rewrite <- Z.mul_assoc, <- Z.mul_mod_idemp_r, Hc, Z.mul_1_r by lia.
    by apply Z.mod_small. }
  rewrite <- (Hinv x), <- (Hinv x') by done. by rewrite Heq.
Qed.

Lemma next_u64_eq self :
  next_u64 self = (mix (advance (state self)), {| state := advance (state self) |}).
Proof. done. Qed.

Lemma mix_range s : 0 <= mix s < 2 ^ 64.
Proof. apply u64_range. Qed.

Lemma mix_inj s s' :
  0 <= s < 2 ^ 64 -> 0 <= s' < 2 ^ 64 -> mix s = mix s' -> s = s'.
Proof.
  intros Hs Hs'. unfold mix. cbv zeta.
  rewrite !(u64_small (xorshift 31 _)) by (apply xorshift_range; [lia | apply u64_range]).
  intros H. apply xorshift_inj in H; [|lia|lia|apply u64_range..].
  rewrite !u64_mod in H.
  apply (mul_inj _ 0x319642b2d24d8ec3) in H;
    [|done|apply xorshift_range; [lia|apply Z.mod_pos_bound; lia]..].
  apply xorshift_inj in H; [|lia|lia|apply Z.mod_pos_bound; lia..].
  apply (mul_inj _ 0x96de1b173f119089) in H; [|done|by apply xorshift_range..].
  by apply xorshift_inj in H.
Qed.

Lemma skip_S k self : skip (S k) self = (next_u64 (skip k self)).2.
Proof.
  revert self. induction k as [|k IH]; intros self; [done|].
  change (skip (S (S k)) self) with (skip (S k) (next_u64 self).2).
  by rewrite IH.
Qed.

Lemma state_skip k self :
  state (skip (S k) self) = (state self + Z.of_nat (S k) * GAMMA) mod 2 ^ 64.
Proof.
  induction k as [|k IH].
  - simpl skip. unfold next_u64. simpl state. rewrite u64_mod. f_equal; unfold GAMMA; lia.
  - rewrite skip_S, next_u64_eq. cbn [snd state]. unfold advance. rewrite IH, u64_mod.
    rewrite Z.add_mod_idemp_l by lia. f_equal; unfold GAMMA; lia.
Qed.

Lemma draw_eq self k :
  draw self k = mix ((state self + Z.of_nat (S k) * GAMMA) mod 2 ^ 64).
Proof.
  unfold draw. rewrite next_u64_eq. simpl fst.
  change (advance (state (skip k self))) with (state (next_u64 (skip k self)).2).
  by rewrite <- skip_S, state_skip.
Qed.

Lemma draw_range self k : 0 <= draw self k < 2 ^ 64.
Proof. rewrite draw_eq. apply mix_range. Qed.

Lemma draw_inj self i j :
  Z.of_nat i < 2 ^ 64 -> Z.of_nat j < 2 ^ 64 -> draw self i = draw self j -> i = j.
Proof.
  intros Hi Hj. rewrite !draw_eq. intros H.
  apply mix_inj in H; [|apply Z.mod_pos_bound; lia..].
  assert (forall a b : nat, (a <= b)%nat -> Z.of_nat b < 2 ^ 64 ->
            (state self + Z.of_nat (S a) * GAMMA) mod 2 ^ 64
            = (state self + Z.of_nat (S b) * GAMMA) mod 2 ^ 64 -> a = b) as Hle.
  { clear. intros a b Hab Hb Heq.
    assert (((Z.of_nat b - Z.of_nat a) * GAMMA) mod 2 ^ 64 = 0) as Hd.
    { replace ((Z.of_nat b - Z.of_nat a) * GAMMA)
        with ((state self + Z.of_nat (S b) * GAMMA) - (state self + Z.of_nat (S a) * GAMMA)) by lia.
      rewrite Zminus_mod, Heq, Z.sub_diag. done. }
    assert ((Z.of_nat b - Z.of_nat a) mod 2 ^ 64 = 0) as Hz.
    { rewrite <- (Z.mul_1_r (Z.of_nat b - Z.of_nat a)).
      change 1 with ((GAMMA * 0xf1de83e19937733d) mod 2 ^ 64) at 1.
      rewrite Z.mul_mod_idemp_r, Z.mul_assoc, <- Z.mul_mod_idemp_l, Hd by lia. done. }
    rewrite Z.mod_small in Hz by lia. lia. }
  destruct (Nat.le_ge_cases i j); [|symmetry]; eapply Hle; eauto.
Qed.

Lemma pigeonhole (f : nat -> Z) (m : nat) (lo : Z) :
  (forall i j, (i <= m)%nat -> (j <= m)%nat -> f i = f j -> i = j) ->
  (forall i, (i <= m)%nat -> lo <= f i < lo + Z.of_nat m) -> False.
Proof.
  intros Hinj Hran.
  assert (length (f <$> seq 0 (S m)) <= length ((fun i => (lo + Z.of_nat i)%Z) <$> seq 0 m))%nat as Hlen.
  { apply submseteq_length, NoDup_submseteq.
    - apply NoDup_fmap_2_strong; [|apply NoDup_seq].
      intros i j [_ Hi]%elem_of_seq [_ Hj]%elem_of_seq. apply Hinj; lia.
    - intros x [i [-> [_ Hi]%elem_of_seq]]%list_elem_of_fmap.
      apply list_elem_of_fmap. exists (Z.to_nat (f i - lo)).
      specialize (Hran i ltac:(lia)). split; [lia|]. apply elem_of_seq. lia. }
  rewrite !length_fmap, !length_seq in Hlen. lia.
Qed.

Lemma randbelow_loop_cases fuel self n limit :
  (randbelow_loop fuel self n limit = Hang /\
   forall k, (k < fuel)%nat -> limit <= draw self k) \/
  (exists k, (k < fuel)%nat /\ (forall i, (i < k)%nat -> limit <= draw self i) /\
             draw self k < limit /\
             randbelow_loop fuel self n limit = Ok (draw self k mod n, skip (S k) self)).
Proof.
  revert self. induction fuel as [|fuel IH]; intros self.
  - left. split; [done|lia].
  - cbn [randbelow_loop]. destruct (next_u64 self) as [r self'] eqn:Hnext.
    assert (r = draw self 0) as Hr by (unfold draw; cbn [skip]; by rewrite Hnext).
    assert (forall k, draw self (S k) = draw self' k) as Hd.
    { intros k. unfold draw. cbn [skip]. by rewrite Hnext. }
    assert (forall k, skip (S k) self = skip k self') as Hs.
    { intros k. cbn [skip]. by rewrite Hnext. }
    destruct (Z.ltb_spec r limit) as [Hlt|Hge].
    + right. exists 0%nat. rewrite <- Hr. split_and!; [lia|lia|done|].
      rewrite Hs. done.
    + destruct (IH self') as [[Hh Hall]|(k & Hk & Hrej & Hacc & Hres)].
      * left. split; [done|]. intros [|k] Hk; [lia|]. rewrite Hd. apply Hall. lia.
      * right. exists (S k). rewrite Hd, Hs. split_and!; [lia| |done|done].
        intros [|i] Hi; [lia|]. rewrite Hd. apply Hrej. lia.
Qed.

(** Any count of draws above [2^64 mod n] finds an accepted one. *)
Lemma randbelow_loop_enough fuel self n :
  0 < n <= 2 ^ 64 ->
  let limit := Z.shiftl 1 64 - Z.shiftl 1 64 mod n in
  (Z.to_nat (2 ^ 64 mod n) < fuel)%nat ->
  exists k, (k <= Z.to_nat (2 ^ 64 mod n))%nat /\
            (forall i, (i < k)%nat -> limit <= draw self i) /\
            draw self k < limit /\
            randbelow_loop fuel self n limit = Ok (draw self k mod n, skip (S k) self).
Proof.
  intros Hn limit Hfuel. change (Z.shiftl 1 64) with (2 ^ 64) in limit.
  pose proof (Z.mod_pos_bound (2 ^ 64) n ltac:(lia)) as Hq.
  destruct (randbelow_loop_cases fuel self n limit)
    as [[_ Hall]|(k & Hk & Hrej & Hacc & Hres)].
  - exfalso. apply (pigeonhole (draw self) (Z.to_nat (2 ^ 64 mod n)) limit).
    + intros i j Hi Hj. apply draw_inj; lia.
    + intros i Hi. pose proof (draw_range self i). specialize (Hall i ltac:(lia)).
      subst limit. lia.
  - exists k. split_and!; [|done..].
    destruct (Nat.le_gt_cases k (Z.to_nat (2 ^ 64 mod n))) as [|Hgt]; [done|].
    exfalso. apply (pigeonhole (draw self) (Z.to_nat (2 ^ 64 mod n)) limit).
    + intros i j Hi Hj. apply draw_inj; lia.
    + intros i Hi. pose proof (draw_range self i). specialize (Hrej i ltac:(lia)).
      subst limit. lia.
Qed.

(** Above [2^64] the limit is zero and no draw is ever accepted. *)
Lemma randbelow_loop_never fuel self n limit :
  limit <= 0 -> randbelow_loop fuel self n limit = Hang.
Proof.
  intros Hl. destruct (randbelow_loop_cases fuel self n limit)
    as [[? _]|(k & _ & _ & Hacc & _)]; [done|].
  pose proof (draw_range self k). lia.
Qed.

Lemma randbelow_ok self n :
  0 < n <= 2 ^ 64 ->
  exists k, (forall i, (i < k)%nat -> 2 ^ 64 - 2 ^ 64 mod n <= draw self i) /\
            draw self k < 2 ^ 64 - 2 ^ 64 mod n /\
            randbelow self n = Ok (draw self k mod n, skip (S k) self) /\
            0 <= draw self k mod n < n.
Proof.
  intros Hn. unfold randbelow.
  destruct (Z.leb_spec n 0) as [|_]; [lia|].
  pose proof (Z.mod_pos_bound (2 ^ 64) n ltac:(lia)) as Hq.
  destruct (randbelow_loop_enough (Z.to_nat n) self n Hn ltac:(lia))
    as (k & _ & Hrej & Hacc & Hres).
  exists k. split; [exact Hrej|]. split; [exact Hacc|]. split; [exact Hres|].
  apply Z.mod_pos_bound. lia.
Qed.

Lemma swap_perm {A} (arr : list A) i j :
  (i < length arr)%nat -> (j < length arr)%nat ->
  exists arr', swap arr i j = Ok arr' /\ arr' ≡ₚ arr /\ length arr' = length arr.
Proof.
  intros Hi Hj. unfold swap.
  destruct (lookup_lt_is_Some_2 arr i Hi) as [ai Hai].
  destruct (lookup_lt_is_Some_2 arr j Hj) as [aj Haj].
  rewrite Hai, Haj. eexists. split; [done|]. split; [|by rewrite !length_insert].
  clear Hi Hj. revert i j Hai Haj.
  assert (forall (l : list A) k x y, l !! k = Some y -> y :: <[k:=x]> l ≡ₚ x :: l) as Hhead.
  { induction l as [|a l IH]; intros [|k] x y Hk; simplify_eq/=.
    - apply Permutation_swap.
    - etrans; [apply Permutation_swap|]. etrans; [|apply Permutation_swap].
      f_equiv. by apply IH. }
  induction arr as [|a arr IH]; intros [|i] [|j] Hai Haj; simplify_eq/=.
  - done.
  - by apply Hhead.
  - by apply Hhead.
  - f_equiv. by apply IH.
Qed.

Lemma fisher_yates_perm {A} (i : nat) rng (arr : list A) :
  (i = 0 \/ i < length arr)%nat -> Z.of_nat i < 2 ^ 64 ->
  exists arr', fisher_yates i rng arr = Ok arr' /\ arr' ≡ₚ arr.
Proof.
  revert rng arr. induction i as [|i IH]; intros rng arr Hi H64.
  - by exists arr.
  - cbn [fisher_yates].
    destruct (randbelow_ok rng (Z.of_nat (S i) + 1) ltac:(lia)) as (k & _ & _ & -> & Hj).
    destruct (swap_perm arr (S i) (Z.to_nat (draw rng k mod (Z.of_nat (S i) + 1))))
      as (arr1 & -> & Hp & Hl); [lia..|].
    destruct (IH (skip (S k) rng) arr1) as (arr2 & -> & Hp2); [lia..|].
    exists arr2. split; [done|]. by rewrite Hp2.
Qed.

Lemma make_deck_NoDup : NoDup make_deck.
Proof. apply (bool_decide_unpack _). vm_compute. done. Qed.



(** ** C2, C3: the shuffle and bounded sampling *)

Lemma shuffle_make_deck (master_seed_bytes : list byte) :
  exists d, deterministic_shuffle make_deck master_seed_bytes = Ok d /\
            d ≡ₚ make_deck /\ NoDup d /\ length d = 52%nat.
Proof.
  unfold deterministic_shuffle.
  destruct (fisher_yates_perm (length make_deck - 1)
              (SplitMix64_init (int_from_bytes_big (take 8 master_seed_bytes))) make_deck)
    as (d & Hd & Hp).
  - right. vm_compute. lia.
  - vm_compute. done.
  - exists d. split_and!; [done..| |].
    + rewrite Hp. apply make_deck_NoDup.
    + by rewrite Hp.
Qed.


(** C3 (amended). Bounded sampling: [randbelow(n)] raises for [n <= 0];
    for [0 < n <= 2^64] it rejects the raw outputs that are at least
    [limit = 2^64 - (2^64 mod n)] and returns the first accepted output
    modulo [n], a value of [[0, n)]; for [n > 2^64] the limit is zero and
    the loop never returns, however many draws it is given. *)
Theorem randbelow_bounded (self : SplitMix64) (n : Z) :
  (n <= 0 -> randbelow self n = Raise (ValueError "n must be > 0")) /\
  (0 < n <= 2 ^ 64 ->
   exists k, (forall i, (i < k)%nat -> 2 ^ 64 - 2 ^ 64 mod n <= draw self i) /\
             draw self k < 2 ^ 64 - 2 ^ 64 mod n /\
             randbelow self n = Ok (draw self k mod n, skip (S k) self) /\
             0 <= draw self k mod n < n) /\
  (2 ^ 64 < n ->
   randbelow self n = Hang /\
   forall fuel, randbelow_loop fuel self n (2 ^ 64 - 2 ^ 64 mod n) = Hang).
Proof.
  split_and!.
  - intros Hn. unfold randbelow. by destruct (Z.leb_spec n 0); [|lia].
  - apply randbelow_ok.
  - intros Hn.
    assert (2 ^ 64 - 2 ^ 64 mod n <= 0) as Hl by (rewrite Z.mod_small; lia).
    split; [|intros fuel; by apply randbelow_loop_never].
    unfold randbelow. destruct (Z.leb_spec n 0); [lia|].
    by apply randbelow_loop_never.
Qed.

Lemma randbelow_bounded_witness :
  0 < 52 <= 2 ^ 64 /\
  exists k, (forall i, (i < k)%nat -> 2 ^ 64 - 2 ^ 64 mod 52 <= draw (SplitMix64_init 0) i) /\
            draw (SplitMix64_init 0) k < 2 ^ 64 - 2 ^ 64 mod 52 /\
            randbelow (SplitMix64_init 0) 52
            = Ok (draw (SplitMix64_init 0) k mod 52, skip (S k) (SplitMix64_init 0)) /\
            0 <= draw (SplitMix64_init 0) k mod 52 < 52.
Proof.
  split; [lia|].
  apply (proj1 (proj2 (randbelow_bounded (SplitMix64_init 0) 52))). lia.
Defined.

(** The claim as stated fails at [n = 2^64 + 1]: no number of draws
    makes the loop return. *)
Lemma randbelow_above_word_never_returns :
  randbelow (SplitMix64_init 0) (2 ^ 64 + 1) = Hang /\
  ~ (exists fuel v,
       randbelow_loop fuel (SplitMix64_init 0) (2 ^ 64 + 1)
         (Z.shiftl 1 64 - Z.shiftl 1 64 mod (2 ^ 64 + 1)) = Ok v).
Proof.
  assert (forall fuel, randbelow_loop fuel (SplitMix64_init 0) (2 ^ 64 + 1)
                         (Z.shiftl 1 64 - Z.shiftl 1 64 mod (2 ^ 64 + 1)) = Hang) as H.
  { intros fuel. apply randbelow_loop_never. done. }
  split.
  - unfold randbelow. destruct (Z.leb_spec (2 ^ 64 + 1) 0); [lia|]. apply H.
  - intros (fuel & v & Hv). by rewrite H in Hv.
Qed.

(** ** Sorting a dictionary by key *)

Section sorting.
Context {V : Type}.
Implicit Types (x : string * V) (l : list (string * V)).

Lemma insert_by_key_perm x l : insert_by_key x l ≡ₚ x :: l.
  Proof.
    induction l as [|y l IH]; [done|]. cbn [insert_by_key].
    destruct (String.leb x.1 y.1); [done|].
    rewrite IH. apply Permutation_swap.
  Qed.

Lemma sorted_by_key_perm l : sorted_by_key l ≡ₚ l.
  Proof.
    induction l as [|x l IH]; [done|]. cbn [sorted_by_key foldr].
    rewrite insert_by_key_perm. by f_equiv.
  Qed.

Lemma insert_by_key_sorted x l : Sorted key_le l -> Sorted key_le (insert_by_key x l).
  Proof.
    induction 1 as [|y l Hl IH Hhd]; cbn [insert_by_key].
    - by repeat constructor.
    - destruct (String.leb x.1 y.1) eqn:Hxy.
      + constructor; [by constructor|]. constructor. unfold key_le, String.le. by rewrite Hxy.
      + assert (key_le y x) as Hyx.
        { unfold key_le, String.le. destruct (String.leb_total x.1 y.1) as [H|H]; [congruence|].
          by rewrite H. }
        constructor; [done|]. destruct Hhd as [|z l Hyz]; cbn [insert_by_key].
        * by constructor.
        * destruct (String.leb x.1 z.1); by constructor.
  Qed.

Lemma sorted_by_key_sorted l : Sorted key_le (sorted_by_key l).
  Proof.
    induction l as [|x l IH]; [constructor|]. by apply insert_by_key_sorted.
  Qed.

Lemma NoDup_keys_value l k v1 v2 :
    NoDup l.*1 -> (k, v1) ∈ l -> (k, v2) ∈ l -> v1 = v2.
  Proof.
    induction l as [|[k' v'] l IH]; cbn [fmap list_fmap fst]; intros Hnd H1 H2.
    - by apply elem_of_nil in H1.
    - apply NoDup_cons in Hnd as [Hk Hnd].
      apply elem_of_cons in H1 as [H1|H1], H2 as [H2|H2]; simplify_eq; [done| | |by apply IH].
      + destruct Hk. by apply (list_elem_of_fmap_2 fst _ (k', v2)).
      + destruct Hk. by apply (list_elem_of_fmap_2 fst _ (k', v1)).
  Qed.

Global Instance key_le_trans : Transitive (@key_le V).
  Proof. intros a b c. unfold key_le. apply transitivity. Qed.

  (** Dictionaries with the same entries have the same sorted view. *)
Lemma sorted_by_key_unique l1 l2 :
    NoDup l1.*1 -> l1 ≡ₚ l2 -> sorted_by_key l1 = sorted_by_key l2.
  Proof.
    intros Hnd Hp. apply (Sorted_unique_strong key_le); [|apply sorted_by_key_sorted..|].
    - intros [k1 v1] [k2 v2]. rewrite !sorted_by_key_perm, <- Hp.
      unfold key_le. cbn [fst]. intros H1 H2 H12 H21.
      assert (k1 = k2) as <- by (by apply (anti_symm String.le)).
      f_equal. by eapply NoDup_keys_value.
    - by rewrite !sorted_by_key_perm.
  Qed.
End sorting.

Lemma insert_by_key_fmap {V W} (f : V -> W) (x : string * V) (l : list (string * V)) :
  prod_map id f <$> insert_by_key x l = insert_by_key (prod_map id f x) (prod_map id f <$> l).
Proof.
  induction l as [|y l IH]; [done|]. cbn [insert_by_key fmap list_fmap].
  destruct x as [kx vx], y as [ky vy]. cbn [prod_map fst id].
  destruct (String.leb kx ky); [done|]. cbn [fmap list_fmap] in *. by rewrite IH.
Qed.

Lemma sorted_by_key_fmap {V W} (f : V -> W) (l : list (string * V)) :
  prod_map id f <$> sorted_by_key l = sorted_by_key (prod_map id f <$> l).
Proof.
  induction l as [|x l IH]; [done|]. cbn [sorted_by_key foldr fmap list_fmap].
  rewrite insert_by_key_fmap. f_equal. apply IH.
Qed.

(** ** C1: the master seed *)




Lemma triple_prod_map (l : list (string * Player)) :
  triple <$> l = prod_map id (fun p => (seed p, salt p)) <$> l.
Proof. apply list_fmap_ext. by intros _ [k p] _. Qed.

Lemma master_seed_items_ext (l l' : list (string * Player)) :
  triple <$> l = triple <$> l' -> master_seed_items l = master_seed_items l'.
Proof.
  revert l'. induction l as [|[k p] l IH]; intros [|[k' p'] l'] Heq; simplify_eq/=; [done|].
  unfold triple in *. simplify_eq/=.
  repeat match goal with H : _ = _ |- _ => rewrite H end.
  by rewrite (IH l').
Qed.

Lemma master_seed_items_ok (l : list (string * Player)) :
  (forall kv, kv ∈ l -> revealed kv.2 = true) ->
  master_seed_items l
  = Ok ((fun kv => kv.1 +:+ ":" +:+ default "" (seed kv.2) +:+ ":" +:+ default "" (salt kv.2)) <$> l).
Proof.
  induction l as [|[k p] l IH]; intros Hall; [done|]. cbn [master_seed_items].
  pose proof (Hall (k, p) ltac:(left)) as Hp. unfold revealed in Hp. cbn [snd] in Hp.
  rewrite Hp, IH; [done|]. intros kv Hkv. apply Hall. by right.
Qed.

Lemma master_seed_items_missing (l : list (string * Player)) :
  (exists kv, kv ∈ l /\ revealed kv.2 = false) ->
  master_seed_items l = Raise (ValueError "Missing reveal for player").
Proof.
  induction l as [|[k p] l IH]; intros (kv & Hkv & Hrev).
  - by apply elem_of_nil in Hkv.
  - cbn [master_seed_items]. fold (revealed p).
    destruct (revealed p) eqn:Hp; [|done]. cbn [negb].
    apply elem_of_cons in Hkv as [->|Hkv]; [cbn in Hrev; congruence|].
    rewrite IH; [done|]. by exists kv.
Qed.

Lemma compute_master_seed_triples (players players' : list (string * Player)) :
  NoDup players.*1 -> triple <$> players' ≡ₚ triple <$> players ->
  compute_master_seed players' = compute_master_seed players.
Proof.
  intros Hnd Hp. unfold compute_master_seed.
  rewrite (master_seed_items_ext (sorted_by_key players') (sorted_by_key players)); [done|].
  rewrite (triple_prod_map (sorted_by_key players')), (triple_prod_map (sorted_by_key players)).
  rewrite !sorted_by_key_fmap, <- !triple_prod_map.
  symmetry. apply sorted_by_key_unique; [|done].
  rewrite <- list_fmap_compose.
  erewrite list_fmap_ext; [exact Hnd|]. by intros _ [k p] _.
Qed.

(** The digests of the empty string and of "abc", as published with the
    standard (FIPS 180-4), and the first and last round constants. *)
Example sha256_test_vectors :
  sha256_hex "" = "e3b0c44298fc1c149afbf4c8996fb92427ae41e4649b934ca495991b7852b855" /\
  sha256_hex "abc" = "ba7816bf8f01cfea414140de5dae2223b00361a396177a9cb410ff61f20015ad" /\
  length hashlib.primes = 64%nat /\
  head hashlib.K = Some 0x428a2f98 /\ last hashlib.K = Some 0xc67178f2 /\
  head hashlib.H0 = Some 0x6a09e667 /\ last hashlib.H0 = Some 0x5be0cd19.
Proof. vm_compute. repeat split. Qed.

Lemma hex_length (b : list byte) : String.length (hashlib.hex b) = (2 * length b)%nat.
Proof. induction b as [|x b IH]; [done|]. cbn [hashlib.hex String.length length]. lia. Qed.

Lemma hex_is_lower_hex (b : list byte) : is_lower_hex (hashlib.hex b) = true.
Proof.
  induction b as [|x b IH]; [done|]. cbn [hashlib.hex is_lower_hex].
  rewrite IH, andb_true_r. by destruct x.
Qed.

Lemma round_length v kw : length (hashlib.round v kw) = length v.
Proof.
  unfold hashlib.round.
  do 9 (destruct v as [|? v]; [reflexivity|]). reflexivity.
Qed.

Lemma compress_length h block : length (hashlib.compress h block) = length h.
Proof.
  unfold hashlib.compress. rewrite length_fmap, length_combine.
  assert (forall l v, length (fold_left hashlib.round l v) = length v) as H.
  { induction l as [|kw l IH]; intros v; [done|]. cbn [fold_left]. by rewrite IH, round_length. }
  rewrite H. lia.
Qed.

Lemma blocks_length count h bs : length (hashlib.blocks count h bs) = length h.
Proof.
  revert h bs. induction count as [|count IH]; intros h bs; [done|].
  cbn [hashlib.blocks]. by rewrite IH, compress_length.
Qed.

(** A digest is 256 bits, and its hexadecimal form 64 lowercase digits. *)
Lemma sha256_length (b : list byte) : length (hashlib.sha256 b) = 32%nat.
Proof.
  unfold hashlib.sha256. rewrite length_fmap.
  assert (forall h, length (flat_map (hashlib.be_bytes 4) h) = (4 * length h)%nat) as ->.
  { induction h as [|x h IH]; [done|]. cbn [flat_map]. rewrite length_app, IH.
    unfold hashlib.be_bytes. rewrite length_map, length_seq. cbn [length]. lia. }
  by rewrite blocks_length.
Qed.

Lemma sha256_hex_length (s : string) : String.length (sha256_hex s) = 64%nat.
Proof. unfold sha256_hex. by rewrite hex_length, sha256_length. Qed.

Lemma len_ascii (s : string) : is_lower_hex s = true -> len s = String.length s.
Proof.
  induction s as [|c s IH]; [done|]. cbn [is_lower_hex len String.length].
  intros [Hc Hs]%andb_true_iff. rewrite IH by done.
  assert (is_continuation c = false) as ->; [|done].
  unfold is_lower_hex_digit, is_continuation in *.
  destruct (N_of_ascii c) as [|n]; [done|].
  apply andb_false_iff. destruct (N.leb_spec 128 (N.pos n)); [|by left]. right.
  apply orb_true_iff in Hc as [[_ ?%N.leb_le]%andb_true_iff|[_ ?%N.leb_le]%andb_true_iff]; lia.
Qed.

Lemma sha256_hex_len (s : string) : len (sha256_hex s) = 64%nat.
Proof.
  rewrite len_ascii; [apply sha256_hex_length|]. apply hex_is_lower_hex.
Qed.




(** ** The handler monad *)

Lemma bind_ok {A B} (m : M A) (k : A -> M B) w a w' :
  m w = (Ok a, w') -> bind m k w = k a w'.
Proof. unfold bind. by intros ->. Qed.

Lemma bind_raise {A B} (m : M A) (k : A -> M B) w e w' :
  m w = (Raise e, w') -> bind m k w = (Raise e, w').
Proof. unfold bind. by intros ->. Qed.

Section respects.
Context (R : relation World) `{!PreOrder R}.

Lemma respects_ret {A} (a : A) : respects R (ret a).
  Proof. intros w. reflexivity. Qed.

Lemma respects_raise {A} e : respects R (@raise A e).
  Proof. intros w. reflexivity. Qed.

Lemma respects_lift {A} (r : result A) : respects R (lift r).
  Proof. intros w. reflexivity. Qed.

Lemma respects_get : respects R get.
  Proof. intros w. reflexivity. Qed.

Lemma respects_bind {A B} (m : M A) (k : A -> M B) :
    respects R m -> (forall a, respects R (k a)) -> respects R (bind m k).
  Proof.
    intros Hm Hk w. unfold bind. specialize (Hm w).
    destruct (m w) as [[a| |] w']; [|done..].
    etrans; [exact Hm|]. apply Hk.
  Qed.

Lemma respects_for_each {A} (l : list A) (body : A -> M unit) :
    (forall x, respects R (body x)) -> respects R (for_each l body).
  Proof.
    intros Hb. induction l as [|x l IH]; [apply respects_ret|].
    apply respects_bind; [apply Hb|done].
  Qed.

Lemma respects_repeat_n n (body : M unit) :
    respects R body -> respects R (repeat_n n body).
  Proof.
    intros Hb. induction n as [|n IH]; [apply respects_ret|].
    by apply respects_bind.
  Qed.

Lemma respects_if {A} (b : bool) (m1 m2 : M A) :
    respects R m1 -> respects R m2 -> respects R (if b then m1 else m2).
  Proof. by destruct b. Qed.
End respects.

Global Instance only_players_preorder : PreOrder only_players.
Proof.
  split.
  - intros w. split_and!; [by destruct w as [[]]|done..|]. exists []. by rewrite app_nil_r.
  - intros w1 w2 w3 (Hr1 & Hh1 & Hu1 & o1 & Ho1) (Hr2 & Hh2 & Hu2 & o2 & Ho2).
    split_and!; [|congruence..|].
    + rewrite Hr2, Hr1. done.
    + exists (o1 ++ o2). by rewrite Ho2, Ho1, app_assoc.
Qed.

Lemma only_players_emit to p : respects only_players (emit to p).
Proof.
  intros w. split_and!; [by destruct w as [[]]|done..|]. by eexists.
Qed.

Lemma only_players_pop k :
  respects only_players (update_room (fun r => set_players (dict_pop k (players r)) r)).
Proof.
  intros w. split_and!; [done..|]. exists []. by rewrite app_nil_r.
Qed.

Lemma for_each_ok {A} (l : list A) (body : A -> M unit) w :
  (forall x w, (body x w).1 = Ok tt) -> (for_each l body w).1 = Ok tt.
Proof.
  intros Hb. revert w. induction l as [|x l IH]; intros w; [done|].
  cbn [for_each]. unfold bind. specialize (Hb x w).
  destruct (body x w) as [[[]| |] w']; simplify_eq/=. apply IH.
Qed.

Section net.
Context (net : nat -> delivery).

Lemma broadcast_only_players p : respects only_players (broadcast net p).
  Proof.
    unfold broadcast. apply respects_bind; [apply _|apply respects_get, _|]. intros w.
    apply respects_bind; [apply _| |intros _].
    - apply respects_for_each; [apply _|]. intros r. apply only_players_emit.
    - apply respects_for_each; [apply _|]. intros k. apply only_players_pop.
  Qed.

Lemma broadcast_ok p w : (broadcast net p w).1 = Ok tt.
  Proof.
    unfold broadcast, bind, get.
    match goal with |- context [for_each ?l ?b w] =>
      pose proof (for_each_ok l b w ltac:(done)) as H; destruct (for_each l b w) as [[[]| |] w1]
    end; simplify_eq/=.
    by apply for_each_ok.
  Qed.

Lemma send_state_only_players : respects only_players (send_state net).
  Proof.
    unfold send_state. apply respects_bind; [apply _|apply respects_get, _|]. intros w.
    apply respects_for_each; [apply _|]. intros kr.
    destruct (net kr.2); [apply only_players_emit|apply only_players_pop].
  Qed.

Lemma send_state_ok w : (send_state net w).1 = Ok tt.
  Proof.
    unfold send_state, bind, get. apply for_each_ok. intros kr w'. by destruct (net kr.2).
  Qed.
End net.

Lemma run_quiet {A} (m : M A) (a : A) w :
  respects only_players m -> (m w).1 = Ok a ->
  exists w', m w = (Ok a, w') /\ only_players w w'.
Proof.
  intros Hr Hok. specialize (Hr w). destruct (m w) as [r w']. simplify_eq/=. by exists w'.
Qed.

Lemma broadcast_quiet net p w :
  exists w', only_players w w' /\ broadcast net p w = (Ok tt, w').
Proof.
  destruct (run_quiet (broadcast net p) tt w) as (w' & ? & ?);
    [apply broadcast_only_players|apply broadcast_ok|]. by exists w'.
Qed.

Lemma send_state_quiet net w :
  exists w', only_players w w' /\ send_state net w = (Ok tt, w').
Proof.
  destruct (run_quiet (send_state net) tt w) as (w' & ? & ?);
    [apply send_state_only_players|apply send_state_ok|]. by exists w'.
Qed.

(** Symbolic execution of a handler: one [bind] at a time. *)
Ltac step :=
  lazymatch goal with
  | |- context [bind (broadcast ?net ?p) ?k ?w] =>
      let w' := fresh "w" in let H := fresh "Hb" in let E := fresh "E" in
      destruct (broadcast_quiet net p w) as (w' & H & E);
      rewrite (bind_ok _ k _ _ _ E); clear E
  | |- context [send_state ?net ?w] =>
      let w' := fresh "w" in let H := fresh "Hs" in let E := fresh "E" in
      destruct (send_state_quiet net w) as (w' & H & E);
      rewrite E; clear E
  | |- context [bind get ?k ?w] =>
      change (bind get k w) with (k w w); cbv beta
  | |- context [bind (update_obj ?r ?f) ?k ?w] =>
      change (bind (update_obj r f) k w)
        with (k tt (mkWorld (room w) (alter f r (heap w)) (running w) (outbox w)));
      cbv beta; cbn [room heap running outbox]
  | |- context [bind (update_room ?f) ?k ?w] =>
      change (bind (update_room f) k w)
        with (k tt (mkWorld (f (room w)) (heap w) (running w) (outbox w)));
      cbv beta; cbn [room heap running outbox]
  end.


(** ** C4, C5: commit and reveal *)

Lemma handle_ok net h (body : M unit) w :
  (body w).1 = Ok tt -> handle net h body w = body w.
Proof. unfold handle. destruct (body w) as [[[]| |] w']; by intros; simplify_eq/=. Qed.

Lemma obj_alter w1 w (f : Player -> Player) h :
  heap w1 = alter f h (heap w) -> (h < length (heap w))%nat -> obj w1 h = f (obj w h).
Proof.
  intros Hh Hlt. unfold obj. rewrite Hh.
  destruct (lookup_lt_is_Some_2 (heap w) h Hlt) as [p Hp].
  by rewrite list_lookup_alter_eq, Hp.
Qed.

Lemma commit_accepts_iff c :
  commit_accepts c = true <-> exists s, c = Some s /\ len s = 64%nat.
Proof.
  unfold commit_accepts. split.
  - intros [Ht Hl%Nat.eqb_eq]%andb_true_iff. destruct c as [s|]; [|done]. by exists s.
  - intros (s & -> & Hl). change (default "" (Some s)) with s. rewrite Hl. destruct s; done.
Qed.

Lemma commit_stores (net : nat -> delivery) (w : World) (h : nat) (c : option string) :
  is_running w h = true -> (h < length (heap w))%nat -> commit_accepts c = true ->
  let res := step net (Receive h (Text (Commit c))) w in
  res.1 = Ok tt /\
  heap res.2 = alter (set_commitment c) h (heap w) /\
  obj res.2 h = set_commitment c (obj w h).
Proof.
  intros Hrun Hh Hacc res. subst res. cbn [step]. rewrite Hrun.
  assert (exists w', on_frame net h (Text (Commit c)) w = (Ok tt, w') /\
                     heap w' = alter (set_commitment c) h (heap w)) as (w' & Hres & Hheap).
  { cbn [on_frame]. unfold commit_accepts in Hacc.
    apply andb_true_iff in Hacc as [-> ->]. cbn [negb orb].
    do 3 step. destruct Hb as (_ & Hh2 & _). step.
    assert (exists w3, heap w3 = heap w0 /\
              (let* _ := (if decide (stage (room w0) = LOBBY)
                          then update_room (set_stage COMMIT) else ret tt)
               in send_state net) w0 = send_state net w3) as (w3 & Hh3 & ->).
    { destruct (decide _);
        [exists (mkWorld (set_stage COMMIT (room w0)) (heap w0) (running w0) (outbox w0))
        |exists w0]; done. }
    step. destruct Hs as (_ & Hh4 & _).
    eexists. split; [done|]. by rewrite Hh4, Hh3, Hh2. }
  rewrite handle_ok; rewrite Hres; [|done]. cbn [fst snd].
  split_and!; [done..|]. by apply obj_alter.
Qed.

(** C5 (amended). Commit validation: a commit is accepted if and only
    if the submitted value is a string of exactly 64 characters, whatever
    the characters; it then replaces the participant's commitment and
    leaves seed, salt and hand as they were. Any other value is answered
    with the notice "Invalid commitment." and changes nothing. Every
    64-digit lowercase hexadecimal digest is accepted. *)
Theorem commit_validation (net : nat -> delivery) (w : World) (h : nat) (c : option string) :
  is_running w h = true -> (h < length (heap w))%nat ->
  let res := step net (Receive h (Text (Commit c))) w in
  (commit_accepts c = true <-> exists s, c = Some s /\ len s = 64%nat) /\
  (forall s, is_sha256_hex s = true -> commit_accepts (Some s) = true) /\
  (commit_accepts c = true ->
   res.1 = Ok tt /\
   heap res.2 = alter (set_commitment c) h (heap w) /\
   obj res.2 h = set_commitment c (obj w h)) /\
  (commit_accepts c = false -> net h = Delivered ->
   res = (Ok tt, notify w h "Invalid commitment.")).
Proof.
  intros Hrun Hh res.
  split; [apply commit_accepts_iff|]. split.
  { intros s [Hl _]%andb_true_iff. unfold commit_accepts.
    rewrite andb_true_iff. split; [|done]. destruct s; [done|done]. }
  split; [by apply commit_stores|].
  intros Hrej Hnet. subst res. cbn [step]. rewrite Hrun.
  assert (on_frame net h (Text (Commit c)) w = send_text net h (Log "Invalid commitment.") w) as Hf.
  { cbn [on_frame]. unfold commit_accepts in Hrej.
    apply andb_false_iff in Hrej as [->| ->]; [done|]. by rewrite orb_true_r. }
  rewrite handle_ok; rewrite Hf; unfold send_text; by rewrite Hnet.
Qed.

Lemma commit_validation_witness :
  let w := run "ROOM01" [(reliable, Connect "A")] in
  step reliable (Receive 0 (Text (Commit (Some "abc")))) w
  = (Ok tt, notify w 0 "Invalid commitment.").
Proof.
  intros w.
  pose proof (commit_validation reliable w 0 (Some "abc") eq_refl) as H.
  destruct H as (_ & _ & _ & H); [vm_compute; lia|].
  apply H; reflexivity.
Defined.

(** The claim as stated fails: 64 characters that are not hexadecimal
    digits are accepted and stored as the commitment. *)
Lemma commit_accepts_non_hex :
  let c := "ZZZZZZZZZZZZZZZZZZZZZZZZZZZZZZZZZZZZZZZZZZZZZZZZZZZZZZZZZZZZZZZZ" in
  let w := run "ROOM01" [(reliable, Connect "A")] in
  is_sha256_hex c = false /\
  commitment (obj (step reliable (Receive 0 (Text (Commit (Some c)))) w).2 0) = Some c.
Proof. split; vm_compute; reflexivity. Qed.

(** C4. Reveal binding: without a commitment on file a reveal is
    answered "Commit first." and stores nothing; with one, it stores the
    seed and the salt on the participant if and only if the SHA-256
    hexadecimal digest of seed "|" salt equals the commitment, and is
    otherwise answered "Reveal does not match commitment" and stores
    nothing. *)
Theorem reveal_binding (net : nat -> delivery) (w : World) (h : nat) (sd sl : option string) :
  is_running w h = true -> (h < length (heap w))%nat ->
  let seed := or_default sd "" in
  let salt := or_default sl "" in
  let p := obj w h in
  let res := step net (Receive h (Text (Reveal sd sl))) w in
  (truthy (commitment p) = false -> net h = Delivered ->
   res = (Ok tt, notify w h "Commit first.")) /\
  (truthy (commitment p) = true ->
   commitment p <> Some (sha256_hex (seed +:+ "|" +:+ salt)) -> net h = Delivered ->
   res = (Ok tt, notify w h "Reveal does not match commitment ❌")) /\
  (commitment p = Some (sha256_hex (seed +:+ "|" +:+ salt)) ->
   res.1 = Ok tt /\
   heap res.2 = alter (fun p => set_salt (Some salt) (set_seed (Some seed) p)) h (heap w) /\
   obj res.2 h = set_salt (Some salt) (set_seed (Some seed) p) /\
   stage (room res.2) = REVEAL).
Proof.
  intros Hrun Hh seed salt p res. subst res. cbn [step]. rewrite Hrun.
  split_and!.
  - intros Hc Hnet.
    assert (on_frame net h (Text (Reveal sd sl)) w = send_text net h (Log "Commit first.") w) as Hf.
    { cbn [on_frame]. step. fold p. by rewrite Hc. }
    rewrite handle_ok; rewrite Hf; unfold send_text; by rewrite Hnet.
  - intros Hc Hne Hnet.
    assert (on_frame net h (Text (Reveal sd sl)) w
            = send_text net h (Log "Reveal does not match commitment ❌") w) as Hf.
    { cbn [on_frame]. step. fold p seed salt. rewrite Hc. cbn [negb].
      rewrite bool_decide_eq_false_2; [done|]. by intros ?. }
    rewrite handle_ok; rewrite Hf; unfold send_text; by rewrite Hnet.
  - intros Hc.
    assert (exists w', on_frame net h (Text (Reveal sd sl)) w = (Ok tt, w') /\
              heap w' = alter (fun p => set_salt (Some salt) (set_seed (Some seed) p)) h (heap w) /\
              stage (room w') = REVEAL) as (w' & Hres & Hheap & Hstage).
    { cbn [on_frame]. step. fold p seed salt.
      assert (truthy (commitment p) = true) as ->.
      { rewrite Hc. pose proof (sha256_hex_length (seed +:+ "|" +:+ salt)).
        by destruct (sha256_hex _). }
      cbn [negb]. rewrite bool_decide_eq_true_2 by done. cbn [negb].
      do 3 step. destruct Hb as (_ & Hh2 & _). do 2 step.
      destruct Hs as (Hr & Hh3 & _).
      eexists. split; [done|]. split.
      - rewrite Hh3. cbn [heap]. rewrite Hh2. cbn [heap].
        by rewrite list_alter_alter_eq.
      - by rewrite Hr. }
    rewrite handle_ok; rewrite Hres; [|done]. cbn [fst snd].
    split_and!; [done..| |done].
    by apply (obj_alter w' w (fun p => set_salt (Some salt) (set_seed (Some seed) p))).
Qed.

Lemma reveal_binding_witness :
  let w := run "ROOM01" [(reliable, Connect "A");
                         (reliable, Receive 0 (Text (Commit (Some (sha256_hex "s|t")))))] in
  let res := step reliable (Receive 0 (Text (Reveal (Some "s") (Some "t")))) w in
  res.1 = Ok tt /\
  heap res.2 = alter (fun p => set_salt (Some "t") (set_seed (Some "s") p)) 0%nat (heap w) /\
  obj res.2 0 = set_salt (Some "t") (set_seed (Some "s") (obj w 0)) /\
  stage (room res.2) = REVEAL.
Proof.
  intros w res.
  pose proof (reveal_binding reliable w 0 (Some "s") (Some "t")) as H.
  destruct H as (_ & _ & H); [vm_compute; reflexivity|vm_compute; lia|].
  apply H. vm_compute. reflexivity.
Defined.

(** ** C7: the deck invariant *)

Global Instance keeps_deck_inv_preorder : PreOrder keeps_deck_inv.
Proof. split; unfold keeps_deck_inv; [by intros w|intros w1 w2 w3; auto]. Qed.

Global Instance same_deck_preorder : PreOrder same_deck.
Proof.
  split; [by intros w|]. intros w1 w2 w3 [H1 H2] [H3 H4]. split; congruence.
Qed.

Lemma same_deck_keeps w w' : same_deck w w' -> keeps_deck_inv w w'.
Proof. intros [Hd Hi]. unfold keeps_deck_inv, deck_inv. by rewrite Hd, Hi. Qed.

Lemma only_players_same_deck w w' : only_players w w' -> same_deck w w'.
Proof. intros (Hr & _). unfold same_deck. by rewrite Hr. Qed.

Lemma respects_weaken {A} (R R' : relation World) (m : M A) :
  (forall w w', R w w' -> R' w w') -> respects R m -> respects R' m.
Proof. intros HR Hm w. apply HR, Hm. Qed.

Lemma same_deck_respects_keeps {A} (m : M A) :
  respects same_deck m -> respects keeps_deck_inv m.
Proof. apply respects_weaken, same_deck_keeps. Qed.

Lemma same_deck_update_obj r f : respects same_deck (update_obj r f).
Proof. by intros w. Qed.

Lemma same_deck_emit to p : respects same_deck (emit to p).
Proof. by intros w. Qed.

Lemma same_deck_update_room (f : Room -> Room) :
  (forall r, deck (f r) = deck r /\ deal_index (f r) = deal_index r) ->
  respects same_deck (update_room f).
Proof. intros Hf w. apply Hf. Qed.

Lemma same_deck_try_update_room (f : Room -> result Room) :
  (forall r r', f r = Ok r' -> deck r' = deck r /\ deal_index r' = deal_index r) ->
  respects same_deck (try_update_room f).
Proof.
  intros Hf w. unfold try_update_room, bind, get, lift, update_room.
  destruct (f (room w)) as [r'| |] eqn:Hr; [|done..]. by apply Hf.
Qed.

Lemma set_holes_same_deck k v r r' :
  set_holes k v r = Ok r' -> deck r' = deck r /\ deal_index r' = deal_index r.
Proof. unfold set_holes. destruct (transcript r); by intros; simplify_eq/=. Qed.

Lemma append_hole_same_deck k idx r r' :
  append_hole k idx r = Ok r' -> deck r' = deck r /\ deal_index r' = deal_index r.
Proof.
  unfold append_hole. destruct (transcript r) as [t|] eqn:Ht; [|done].
  destruct (dict_get k (holes t)); [|done]. apply set_holes_same_deck.
Qed.

Lemma append_community_index_same_deck idx r r' :
  append_community_index idx r = Ok r' -> deck r' = deck r /\ deal_index r' = deal_index r.
Proof. unfold append_community_index. destruct (transcript r); by intros; simplify_eq/=. Qed.

Lemma same_deck_send_text net h p : respects same_deck (send_text net h p).
Proof. unfold send_text. destruct (net h); [apply same_deck_emit|by intros w]. Qed.

Lemma same_deck_broadcast net p : respects same_deck (broadcast net p).
Proof.
  eapply respects_weaken; [apply only_players_same_deck|apply broadcast_only_players].
Qed.

Lemma same_deck_send_state net : respects same_deck (send_state net).
Proof.
  eapply respects_weaken; [apply only_players_same_deck|apply send_state_only_players].
Qed.

(** [reset_hand] always returns, with an empty deck and the cursor at 0. *)
Lemma reset_hand_spec w :
  exists w', reset_hand w = (Ok tt, w') /\
    room w' = mkRoom (code (room w)) (players (room w)) (variant (room w)) (stage (room w))
                [] [] 0 None None /\
    running w' = running w /\ outbox w' = outbox w /\
    length (heap w') = length (heap w) /\
    (forall r, obj w' r = obj w r \/ obj w' r = set_hole [] (obj w r)).
Proof.
  unfold reset_hand. do 6 step.
  set (w0 := mkWorld _ _ _ _).
  assert (forall l w1, room w1 = room w0 -> running w1 = running w ->
            outbox w1 = outbox w -> length (heap w1) = length (heap w) ->
            (forall r, obj w1 r = obj w r \/ obj w1 r = set_hole [] (obj w r)) ->
            exists w', for_each l (fun r => update_obj r (set_hole [])) w1 = (Ok tt, w') /\
              room w' = room w0 /\ running w' = running w /\ outbox w' = outbox w /\
              length (heap w') = length (heap w) /\
              (forall r, obj w' r = obj w r \/ obj w' r = set_hole [] (obj w r))) as Hloop.
  { induction l as [|x l IH]; intros w1 Hr Hu Ho Hl Hobj.
    - by exists w1.
    - cbn [for_each]. step. apply IH; cbn [room running outbox heap];
        [exact Hr|exact Hu|exact Ho| |].
      + by rewrite length_alter.
      + intros r. unfold obj. cbn [heap].
        destruct (decide (r = x)) as [->|Hne].
        * rewrite list_lookup_alter_eq. specialize (Hobj x). unfold obj in Hobj.
          destruct (heap w1 !! x) as [p|]; cbn in *; [|exact Hobj].
          right. by destruct Hobj as [-> | ->].
        * rewrite list_lookup_alter_ne by done. apply Hobj. }
  destruct (Hloop (map snd (players (room w0))) w0) as (w' & Hres & Hr & ?); [done..|by left|].
  exists w'. split; [done|]. split; [|done]. by rewrite Hr.
Qed.

Lemma keeps_reset_hand : respects keeps_deck_inv reset_hand.
Proof.
  intros w _. destruct (reset_hand_spec w) as (w' & Hres & Hr & _).
  rewrite Hres. cbn [snd]. rewrite Hr. split; cbn; [lia|by left].
Qed.

Lemma deck_inv_length r : deck_inv r -> (length (deck r) <= 52)%nat.
Proof.
  intros [_ [->|[Hp _]]]; [cbn; lia|]. rewrite Hp. by vm_compute.
Qed.

Lemma keeps_deal_to (r : nat) : respects keeps_deck_inv (deal_to r).
Proof.
  intros w [Hidx Hdeck].
  unfold deal_to, deck_at, try_update_room.
  unfold bind, get, lift, update_obj, update_room, ret, raise.
  cbn [room heap running outbox].
  destruct (deck (room w) !! deal_index (room w)) as [card|] eqn:Hcard; [|by split].
  apply lookup_lt_Some in Hcard.
  destruct (append_hole _ _ _) as [r'| |] eqn:Hr'; [|by split..].
  apply append_hole_same_deck in Hr' as [Hd Hi].
  cbn [snd room] in *. unfold deck_inv. cbn [set_deal_index deck deal_index].
  rewrite Hd. split; [lia|done].
Qed.

Lemma respects_bind_lift {A B} (R : relation World) `{!PreOrder R}
    (r : result A) (k : A -> M B) :
  (forall a, r = Ok a -> respects R (k a)) -> respects R (bind (lift r) k).
Proof.
  intros Hk w. unfold bind, lift. destruct r as [a| |]; [by apply Hk|done..].
Qed.

Lemma keeps_deal_hole : respects keeps_deck_inv deal_hole.
Proof.
  unfold deal_hole. apply respects_bind; [apply _|apply respects_get, _|]. intros w.
  apply respects_bind; [apply _|apply respects_lift, _|]. intros seed.
  apply respects_bind; [apply _|by apply same_deck_respects_keeps, same_deck_update_room|].
  intros _. apply respects_bind_lift; [apply _|]. intros shuffled Hsh.
  destruct (shuffle_make_deck seed.1) as (d & Hd & Hp & Hnd & Hlen).
  rewrite Hd in Hsh. injection Hsh as <-.
  apply respects_bind; [apply _| |intros _].
  { intros w1 Hinv. apply deck_inv_length in Hinv as Hle. destruct Hinv as [Hidx _].
    split; cbn; [lia|by right]. }
  apply respects_bind; [apply _| |intros _].
  { intros w1 [_ Hdeck]. split; cbn; [lia|done]. }
  apply respects_bind; [apply _|by apply same_deck_respects_keeps, same_deck_update_room|].
  intros _. apply respects_bind; [apply _| |intros _].
  - apply respects_for_each; [apply _|]. intros r. apply same_deck_respects_keeps.
    unfold clear_hole.
    apply respects_bind; [apply _|apply same_deck_update_obj|intros _].
    apply respects_bind; [apply _|apply respects_get, _|intros w1].
    apply same_deck_try_update_room. intros ??. apply set_holes_same_deck.
  - apply respects_repeat_n; [apply _|]. apply respects_for_each; [apply _|].
    intros r. apply keeps_deal_to.
Qed.

Lemma keeps_deal_community count : respects keeps_deck_inv (deal_community count).
Proof.
  apply respects_repeat_n; [apply _|]. intros w [Hidx Hdeck].
  unfold deal_to_community, deck_at, try_update_room.
  unfold bind, get, lift, update_obj, update_room, ret, raise.
  cbn [room heap running outbox].
  destruct (deck (room w) !! deal_index (room w)) as [card|] eqn:Hcard; [|by split].
  apply lookup_lt_Some in Hcard.
  destruct (append_community_index _ _) as [r'| |] eqn:Hr'; [|by split..].
  apply append_community_index_same_deck in Hr' as [Hd Hi].
  cbn [snd room] in *. unfold deck_inv. cbn [set_deal_index deck deal_index set_community] in *.
  rewrite Hd. split; [lia|done].
Qed.

Ltac respects_tac :=
  repeat lazymatch goal with
    | |- respects _ (bind get _) => apply respects_bind; [apply _|apply respects_get, _|intros ?]
    | |- respects _ (bind _ _) => apply respects_bind; [apply _| |intros ?]
    | |- respects _ (ret _) => apply respects_ret, _
    | |- respects _ (raise _) => apply respects_raise, _
    | |- respects _ (match ?x with _ => _ end) => destruct x
    | |- respects keeps_deck_inv reset_hand => apply keeps_reset_hand
    | |- respects keeps_deck_inv deal_hole => apply keeps_deal_hole
    | |- respects keeps_deck_inv (deal_community _) => apply keeps_deal_community
    | |- respects keeps_deck_inv _ => apply same_deck_respects_keeps
    | |- respects same_deck (broadcast _ _) => apply same_deck_broadcast
    | |- respects same_deck (send_state _) => apply same_deck_send_state
    | |- respects same_deck (send_text _ _ _) => apply same_deck_send_text
    | |- respects same_deck (update_obj _ _) => apply same_deck_update_obj
    | |- respects same_deck (update_room _) => by apply same_deck_update_room
    | |- respects same_deck (stop _) => by intros ?
    | |- respects same_deck (start _) => by intros ?
    | |- respects same_deck (new_object _) => by intros ?
    end.

Section net.
Context (net : nat -> delivery).

Lemma keeps_on_frame h f : respects keeps_deck_inv (on_frame net h f).
  Proof. destruct f as [[]|]; cbn [on_frame]; respects_tac. Qed.

Lemma keeps_on_disconnect h : respects keeps_deck_inv (on_disconnect net h).
  Proof. unfold on_disconnect. respects_tac. Qed.

Lemma keeps_on_exception h e : respects keeps_deck_inv (on_exception net h e).
  Proof. unfold on_exception. respects_tac. Qed.

Lemma keeps_handle h body :
    respects keeps_deck_inv body -> respects keeps_deck_inv (handle net h body).
  Proof.
    intros Hb w. unfold handle. specialize (Hb w).
    assert (forall (m : M unit) w', keeps_deck_inv w w' -> respects keeps_deck_inv m ->
              keeps_deck_inv w (m w').2) as Hafter.
    { intros m w' H1 H2. etrans; [exact H1|apply H2]. }
    destruct (body w) as [[[]|e|] w']; cbn [snd] in Hb; [done| |done].
    destruct e; apply Hafter; try exact Hb.
    all: apply respects_bind; [apply _| |intros ?; apply same_deck_respects_keeps; by intros ?].
    all: first [apply keeps_on_disconnect|apply keeps_on_exception].
  Qed.

Lemma keeps_ws_connect pid : respects keeps_deck_inv (ws_connect net pid).
  Proof.
    unfold ws_connect. respects_tac.
  Qed.

Lemma keeps_step ev w : keeps_deck_inv w (step net ev w).2.
  Proof.
    destruct ev as [pid|h f|h]; cbn [step].
    - apply keeps_ws_connect.
    - destruct (is_running w h); [|done]. apply keeps_handle, keeps_on_frame.
    - destruct (is_running w h); [|done]. apply keeps_handle, respects_raise, _.
  Qed.
End net.

(** C7. Room deck invariant: in every reachable state of a room the deal
    cursor does not exceed the length of the deck, and the deck is empty
    or a permutation without duplicates of the 52 canonical cards; every
    event (a connection, any inbound message, a disconnection), under
    any delivery outcome, preserves this. *)
Theorem room_deck_invariant (code : string) :
  deck_inv (room (init_world code)) /\
  (forall net ev w, deck_inv (room w) -> deck_inv (room (step net ev w).2)) /\
  (forall evs, deck_inv (room (run code evs))).
Proof.
  assert (deck_inv (room (init_world code))) as Hinit by (split; cbn; [lia|by left]).
  assert (forall net ev w, deck_inv (room w) -> deck_inv (room (step net ev w).2)) as Hstep
    by (intros net ev w; apply keeps_step).
  split_and!; [done..|].
  intros evs. unfold run. generalize dependent (init_world code).
  induction evs as [|[net ev] evs IH]; intros w Hw; [done|]. cbn [fold_left]. by apply IH, Hstep.
Qed.

Lemma room_deck_invariant_witness :
  deck_inv (room (init_world "ROOM01")) /\
  deck_inv (room (step reliable (Connect "A") (init_world "ROOM01")).2).
Proof.
  split.
  - apply (proj1 (room_deck_invariant "ROOM01")).
  - apply (proj1 (proj2 (room_deck_invariant "ROOM01"))).
    apply (proj1 (room_deck_invariant "ROOM01")).
Defined.

(** ** C6: the transcript *)

Section dict_facts.
Context {V : Type}.
Implicit Types (d : list (string * V)).

Lemma dict_get_set_eq k v d : dict_get k (dict_set k v d) = Some v.
  Proof.
    induction d as [|[k' v'] d IH]; cbn [dict_set dict_get].
    - by rewrite decide_True.
    - destruct (decide (k = k')) as [->|Hne]; cbn [dict_get].
      + by rewrite decide_True.
      + by rewrite decide_False.
  Qed.

Lemma dict_get_set_ne k k' v d : k <> k' -> dict_get k' (dict_set k v d) = dict_get k' d.
  Proof.
    intros Hne. induction d as [|[k0 v0] d IH]; cbn [dict_set dict_get].
    - by rewrite decide_False.
    - destruct (decide (k = k0)) as [->|Hne0]; cbn [dict_get].
      + by rewrite !decide_False.
      + by rewrite IH.
  Qed.

Lemma dict_get_set_is_Some k k' v d :
    is_Some (dict_get k' d) -> is_Some (dict_get k' (dict_set k v d)).
  Proof.
    intros H. destruct (decide (k = k')) as [->|Hne].
    - by rewrite dict_get_set_eq.
    - by rewrite dict_get_set_ne.
  Qed.
End dict_facts.

Lemma dict_set_append k (l : list nat) c d :
  dict_get k d = Some l -> concat (dict_set k (l ++ [c]) d).*2 ≡ₚ c :: concat d.*2.
Proof.
  induction d as [|[k' v'] d IH]; cbn [dict_get dict_set]; [done|].
  destruct (decide (k = k')) as [->|Hne]; cbn [fmap list_fmap snd concat].
  - intros [= ->]. rewrite <- app_assoc. cbn [app].
    by rewrite <- Permutation_middle.
  - intros Hd. rewrite (IH Hd). by rewrite <- Permutation_middle.
Qed.

Lemma dict_set_empty k d :
  concat d.*2 = @nil nat -> concat (dict_set k [] d).*2 = [].
Proof.
  induction d as [|[k' v'] d IH]; cbn [dict_set]; [done|].
  cbn [fmap list_fmap snd concat]. intros [-> Hd]%app_eq_nil.
  destruct (decide (k = k')) as [->|Hne]; cbn [fmap list_fmap snd concat app]; [done|].
  by apply IH.
Qed.

Lemma pid_obj_alter (f : Player -> Player) r0 w w' r :
  heap w' = alter f r0 (heap w) -> (forall p, pid (f p) = pid p) ->
  pid (obj w' r) = pid (obj w r).
Proof.
  intros Hh Hf. unfold obj. rewrite Hh.
  destruct (decide (r = r0)) as [->|Hne].
  - rewrite list_lookup_alter_eq. destruct (heap w !! r0); cbn; [apply Hf|done].
  - by rewrite list_lookup_alter_ne.
Qed.

(** Loops with an invariant indexed by the count of iterations done. *)
Lemma for_each_inv {A} (I : nat -> World -> Prop) (l : list A) (body : A -> M unit) :
  (forall i x w, l !! i = Some x -> I i w -> exists w', body x w = (Ok tt, w') /\ I (S i) w') ->
  forall w, I 0%nat w -> exists w', for_each l body w = (Ok tt, w') /\ I (length l) w'.
Proof.
  revert I. induction l as [|x l IH]; intros I Hbody w Hw.
  - by exists w.
  - cbn [for_each]. destruct (Hbody 0%nat x w eq_refl Hw) as (w1 & Hb & Hw1).
    rewrite (bind_ok _ _ _ _ _ Hb).
    apply (IH (fun i => I (S i))); [|done].
    intros i y w2 Hy. by apply (Hbody (S i)).
Qed.

Lemma repeat_n_inv (I : nat -> World -> Prop) (n : nat) (body : M unit) :
  (forall i w, (i < n)%nat -> I i w -> exists w', body w = (Ok tt, w') /\ I (S i) w') ->
  forall w, I 0%nat w -> exists w', repeat_n n body w = (Ok tt, w') /\ I n w'.
Proof.
  revert I. induction n as [|n IH]; intros I Hbody w Hw.
  - by exists w.
  - cbn [repeat_n]. destruct (Hbody 0%nat w ltac:(lia) Hw) as (w1 & Hb & Hw1).
    rewrite (bind_ok _ _ _ _ _ Hb).
    apply (IH (fun i => I (S i))); [|done].
    intros i w2 Hi. apply (Hbody (S i)). lia.
Qed.

Section dealing.
Context (pids : nat -> string) (order : list nat) (d : list string).

Lemma deal_to_dealing r comm c w :
    r ∈ order -> (c < length d)%nat -> dealing pids order d comm c w ->
    exists w', deal_to r w = (Ok tt, w') /\ dealing pids order d comm (S c) w'.
  Proof.
    intros Hr Hc (Hd & Hi & Hp & t & Ht & Hcomm & Hrec & Hkeys).
    destruct (lookup_lt_is_Some_2 d c Hc) as [card Hcard].
    destruct (Hkeys r Hr) as [l Hl].
    unfold deal_to, deck_at, try_update_room, append_hole, set_holes.
    unfold bind, get, lift, update_obj, update_room, ret, raise.
    cbn [room heap running outbox].
    rewrite Hd, Hi, Hcard, Ht, Hp, Hl. eexists. split; [done|].
    split_and!; cbn [room deck deal_index set_deal_index set_transcript transcript].
    - done.
    - lia.
    - intros r'. erewrite (pid_obj_alter _ r w); [apply Hp|done|done].
    - eexists. split; [done|]. cbn [community_indices holes]. split_and!; [done| |].
      + unfold recorded_indices in *. cbn [holes community_indices].
        rewrite (dict_set_append _ _ _ _ Hl), seq_S. cbn [app].
        rewrite <- Permutation_cons_append. by f_equiv.
      + intros r' Hr'. by apply dict_get_set_is_Some, Hkeys.
  Qed.

Lemma deal_to_community_dealing comm c w :
    (c < length d)%nat -> dealing pids order d comm c w ->
    exists w', deal_to_community w = (Ok tt, w') /\
               dealing pids order d (comm ++ [c]) (S c) w'.
  Proof.
    intros Hc (Hd & Hi & Hp & t & Ht & Hcomm & Hrec & Hkeys).
    destruct (lookup_lt_is_Some_2 d c Hc) as [card Hcard].
    unfold deal_to_community, deck_at, try_update_room, append_community_index.
    unfold bind, get, lift, update_obj, update_room, ret, raise.
    cbn [room heap running outbox set_community deck deal_index transcript].
    rewrite Hd, Hi, Hcard, Ht. eexists. split; [done|].
    split_and!; cbn [room deck deal_index set_deal_index set_transcript transcript]; [done|lia|done|].
    eexists. split; [done|]. cbn [community_indices holes]. split_and!; [by rewrite Hcomm| |done].
    unfold recorded_indices in *. cbn [holes community_indices].
    by rewrite app_assoc, Hrec, seq_S.
  Qed.

Lemma deal_round_dealing comm c w :
    (c + length order <= length d)%nat -> dealing pids order d comm c w ->
    exists w', for_each order deal_to w = (Ok tt, w') /\
               dealing pids order d comm (c + length order) w'.
  Proof.
    intros Hc Hw.
    destruct (for_each_inv (fun i w => dealing pids order d comm (c + i) w) order deal_to)
      with (w := w) as (w' & Hres & Hw').
    - intros i r w1 Hr Hw1. replace (c + S i)%nat with (S (c + i)) by lia.
      apply deal_to_dealing; [by eapply list_elem_of_lookup_2| |done].
      apply lookup_lt_Some in Hr. lia.
    - by rewrite Nat.add_0_r.
    - by exists w'.
  Qed.

Lemma deal_rounds_dealing n comm w :
    (n * length order <= length d)%nat -> dealing pids order d comm 0 w ->
    exists w', repeat_n n (for_each order deal_to) w = (Ok tt, w') /\
               dealing pids order d comm (n * length order) w'.
  Proof.
    intros Hn Hw.
    destruct (repeat_n_inv (fun i w => dealing pids order d comm (i * length order) w) n
                (for_each order deal_to)) with (w := w) as (w' & Hres & Hw'); [|done|by exists w'].
    intros i w1 Hi Hw1. replace (S i * length order)%nat with (i * length order + length order)%nat by lia.
    apply deal_round_dealing; [nia|done].
  Qed.

Lemma deal_community_dealing count comm c w :
    (c + count <= length d)%nat -> dealing pids order d comm c w ->
    exists w', deal_community count w = (Ok tt, w') /\
               dealing pids order d (comm ++ seq c count) (c + count) w'.
  Proof.
    intros Hc Hw. unfold deal_community.
    destruct (repeat_n_inv (fun i w => dealing pids order d (comm ++ seq c i) (c + i) w) count
                deal_to_community) with (w := w) as (w' & Hres & Hw'); [| |by exists w'].
    - intros i w1 Hi Hw1. replace (c + S i)%nat with (S (c + i)) by lia.
      rewrite seq_S, app_assoc. apply deal_to_community_dealing; [lia|done].
    - by rewrite app_nil_r, Nat.add_0_r.
  Qed.
End dealing.

Lemma compute_master_seed_ok (ps : list (string * Player)) :
  (forall kv, kv ∈ ps -> revealed kv.2 = true) -> exists seed, compute_master_seed ps = Ok seed.
Proof.
  intros Hall. unfold compute_master_seed. rewrite master_seed_items_ok; [by eexists|].
  intros kv Hkv. apply Hall. by rewrite <- (sorted_by_key_perm ps).
Qed.

Lemma clear_hole_spec r w v hs comm :
  transcript (room w) = Some (mkTranscript v hs comm) ->
  clear_hole r w
  = (Ok tt, mkWorld (set_transcript (Some (mkTranscript v (dict_set (pid (obj w r)) [] hs) comm))
                       (room w))
              (alter (set_hole []) r (heap w)) (running w) (outbox w)).
Proof.
  intros Ht. unfold clear_hole, try_update_room, set_holes.
  unfold bind, get, lift, update_obj, update_room.
  cbn [room heap running outbox]. rewrite Ht. cbn [t_variant holes community_indices].
  by erewrite (pid_obj_alter _ r w).
Qed.


(** Loops that returned: the invariant after the last iteration. *)
Lemma for_each_inv_ok {A} (I : nat -> World -> Prop) (l : list A) (body : A -> M unit) :
  (forall i x w w', l !! i = Some x -> I i w -> body x w = (Ok tt, w') -> I (S i) w') ->
  forall w w', I 0%nat w -> for_each l body w = (Ok tt, w') -> I (length l) w'.
Proof.
  revert I. induction l as [|x l IH]; intros I Hbody w w' Hw.
  - cbn. by intros [= <-].
  - cbn [for_each]. unfold bind. destruct (body x w) as [[[]| |] w1] eqn:Hb; [|done..].
    apply (IH (fun i => I (S i))).
    + intros i y w2 w3 Hy. by apply (Hbody (S i)).
    + by apply (Hbody 0%nat x w).
Qed.

Lemma repeat_n_inv_ok (I : nat -> World -> Prop) (n : nat) (body : M unit) :
  (forall i w w', (i < n)%nat -> I i w -> body w = (Ok tt, w') -> I (S i) w') ->
  forall w w', I 0%nat w -> repeat_n n body w = (Ok tt, w') -> I n w'.
Proof.
  revert I. induction n as [|n IH]; intros I Hbody w w' Hw.
  - cbn. by intros [= <-].
  - cbn [repeat_n]. unfold bind. destruct (body w) as [[[]| |] w1] eqn:Hb; [|done..].
    apply (IH (fun i => I (S i))).
    + intros i w2 w3 Hi. apply (Hbody (S i)). lia.
    + apply (Hbody 0%nat w); [lia|done..].
Qed.

Section dealt.
Context (pids : nat -> string) (order : list nat) (d : list string).

(** A card is dealt only from within the deck. *)
Lemma deal_to_returned r comm c w w' :
  r ∈ order -> dealing pids order d comm c w -> deal_to r w = (Ok tt, w') ->
  (c < length d)%nat /\ dealing pids order d comm (S c) w'.
Proof.
  intros Hr Hw Hres.
  destruct (Nat.lt_ge_cases c (length d)) as [Hc|Hc].
  - split; [done|]. destruct (deal_to_dealing pids order d r comm c w Hr Hc Hw) as (w1 & H1 & Hw1).
    rewrite H1 in Hres. by injection Hres as <-.
  - exfalso. destruct Hw as (Hd & Hi & _). revert Hres.
    unfold deal_to, deck_at. unfold bind, get, raise.
    rewrite Hd, Hi, (lookup_ge_None_2 d c Hc). done.
Qed.

Lemma deal_to_community_returned comm c w w' :
  dealing pids order d comm c w -> deal_to_community w = (Ok tt, w') ->
  (c < length d)%nat /\ dealing pids order d (comm ++ [c]) (S c) w'.
Proof.
  intros Hw Hres.
  destruct (Nat.lt_ge_cases c (length d)) as [Hc|Hc].
  - split; [done|].
    destruct (deal_to_community_dealing pids order d comm c w Hc Hw) as (w1 & H1 & Hw1).
    rewrite H1 in Hres. by injection Hres as <-.
  - exfalso. destruct Hw as (Hd & Hi & _). revert Hres.
    unfold deal_to_community, deck_at. unfold bind, get, raise.
    rewrite Hd, Hi, (lookup_ge_None_2 d c Hc). done.
Qed.

Lemma deal_round_returned comm c w w' :
  dealing pids order d comm c w -> (c <= length d)%nat ->
  for_each order deal_to w = (Ok tt, w') ->
  (c + length order <= length d)%nat /\ dealing pids order d comm (c + length order) w'.
Proof.
  intros Hw Hc Hres.
  apply (for_each_inv_ok
           (fun i w => (c + i <= length d)%nat /\ dealing pids order d comm (c + i) w)
           order deal_to) with (w := w) (w' := w'); [| |done].
  - intros i r w1 w2 Hr [_ Hw1] Hb. replace (c + S i)%nat with (S (c + i)) by lia.
    apply (deal_to_returned r comm (c + i)) in Hb as [? ?]; [|by eapply list_elem_of_lookup_2|done].
    split; [lia|done].
  - by rewrite Nat.add_0_r.
Qed.

Lemma deal_rounds_returned n comm w w' :
  dealing pids order d comm 0 w ->
  repeat_n n (for_each order deal_to) w = (Ok tt, w') ->
  (n * length order <= length d)%nat /\ dealing pids order d comm (n * length order) w'.
Proof.
  intros Hw Hres.
  apply (repeat_n_inv_ok
           (fun i w => (i * length order <= length d)%nat /\
                       dealing pids order d comm (i * length order) w)
           n (for_each order deal_to)) with (w := w) (w' := w'); [| |done].
  - intros i w1 w2 Hi [Hle Hw1] Hb.
    replace (S i * length order)%nat with (i * length order + length order)%nat by lia.
    by apply deal_round_returned with (w := w1).
  - split; [cbn; lia|done].
Qed.

Lemma deal_community_returned count comm c w w' :
  dealing pids order d comm c w -> (c <= length d)%nat ->
  deal_community count w = (Ok tt, w') ->
  (c + count <= length d)%nat /\ dealing pids order d (comm ++ seq c count) (c + count) w'.
Proof.
  intros Hw Hc Hres. unfold deal_community in Hres.
  apply (repeat_n_inv_ok
           (fun i w => (c + i <= length d)%nat /\
                       dealing pids order d (comm ++ seq c i) (c + i) w)
           count deal_to_community) with (w := w) (w' := w'); [| |done].
  - intros i w1 w2 Hi [Hle Hw1] Hb. replace (c + S i)%nat with (S (c + i)) by lia.
    rewrite seq_S, app_assoc.
    apply (deal_to_community_returned (comm ++ seq c i) (c + i)) in Hb as [? ?]; [|done].
    split; [lia|done].
  - by rewrite app_nil_r, Nat.add_0_r.
Qed.
End dealt.

Lemma compute_master_seed_returned (ps : list (string * Player)) seed :
  compute_master_seed ps = Ok seed -> forall kv, kv ∈ ps -> revealed kv.2 = true.
Proof.
  intros Hres kv Hkv. destruct (revealed kv.2) eqn:Hr; [done|].
  unfold compute_master_seed in Hres. rewrite master_seed_items_missing in Hres; [done|].
  exists kv. by rewrite sorted_by_key_perm.
Qed.

(** *** Round-by-round dealing, in join order *)

Section unique_keys.
Context {V : Type}.
Implicit Types (es : list (string * V)).

Lemma dict_get_lookup es i k v :
  NoDup es.*1 -> es !! i = Some (k, v) -> dict_get k es = Some v.
Proof.
  revert i. induction es as [|[k' v'] es IH]; intros [|i] Hnd Hi; simplify_eq/=.
  - by rewrite decide_True.
  - apply NoDup_cons in Hnd as [Hk Hnd]. rewrite decide_False; [by eapply IH|].
    intros ->. apply Hk. apply (list_elem_of_fmap_2 fst _ (k', v)).
    by eapply list_elem_of_lookup_2.
Qed.

Lemma dict_set_lookup es i k v v' :
  NoDup es.*1 -> es !! i = Some (k, v) -> dict_set k v' es = <[i := (k, v')]> es.
Proof.
  revert i. induction es as [|[k' v''] es IH]; intros [|i] Hnd Hi; simplify_eq/=.
  - by rewrite decide_True.
  - apply NoDup_cons in Hnd as [Hk Hnd]. rewrite decide_False; [by erewrite IH|].
    intros ->. apply Hk. apply (list_elem_of_fmap_2 fst _ (k', v)).
    by eapply list_elem_of_lookup_2.
Qed.

Lemma dict_set_fresh es k v : k ∉ es.*1 -> dict_set k v es = es ++ [(k, v)].
Proof.
  induction es as [|[k' v'] es IH]; [done|]. cbn [fmap list_fmap fst dict_set app].
  intros [Hne Hk]%not_elem_of_cons. by rewrite decide_False, IH.
Qed.
End unique_keys.

Lemma holes_after_keys keys n i : (holes_after keys n i).*1 = keys.
Proof.
  unfold holes_after. apply list_eq. intros j.
  rewrite list_lookup_fmap, list_lookup_imap. by destruct (keys !! j).
Qed.

Lemma holes_after_full keys n : holes_after keys n (length keys) = holes_after keys (S n) 0.
Proof.
  unfold holes_after. apply list_eq. intros j. rewrite !list_lookup_imap.
  destruct (keys !! j) eqn:Hj; [|done]. apply lookup_lt_Some in Hj. cbn.
  rewrite decide_True by done. by rewrite decide_False by lia.
Qed.

Lemma holes_after_step keys n i key :
  keys !! i = Some key ->
  <[i := (key, ((fun m => (m * length keys + i)%nat) <$> seq 0 n) ++ [(n * length keys + i)%nat])]>
    (holes_after keys n i)
  = holes_after keys n (S i).
Proof.
  intros Hi. unfold holes_after. apply list_eq. intros j.
  destruct (decide (j = i)) as [->|Hne].
  - rewrite list_lookup_insert_eq by (rewrite length_imap; by eapply lookup_lt_Some).
    rewrite list_lookup_imap, Hi. cbn. rewrite decide_True by lia.
    by rewrite seq_S, fmap_app.
  - rewrite list_lookup_insert_ne by done. rewrite !list_lookup_imap.
    destruct (keys !! j); [|done]. cbn. do 2 f_equal.
    destruct (decide (j < i)%nat), (decide (j < S i)%nat); (done || lia).
Qed.

Lemma holes_after_lookup keys n i key :
  keys !! i = Some key ->
  holes_after keys n i !! i = Some (key, (fun m => (m * length keys + i)%nat) <$> seq 0 n).
Proof.
  intros Hi. unfold holes_after. rewrite list_lookup_imap, Hi. cbn.
  by rewrite decide_False by lia.
Qed.

Lemma holes_after_start keys : holes_after keys 0 0 = (fun key => (key, [])) <$> keys.
Proof.
  unfold holes_after. apply list_eq. intros j.
  rewrite list_lookup_imap, list_lookup_fmap. by destruct (keys !! j).
Qed.

Lemma holes_after_two keys :
  holes_after keys 2 0 = imap (fun j key => (key, [j; (length keys + j)%nat])) keys.
Proof.
  unfold holes_after. apply imap_ext. intros j key _. cbn beta.
  rewrite decide_False by lia. cbn. repeat f_equal; lia.
Qed.

Section rounds.
Context (pids : nat -> string) (order : list nat) (d : list string).
Context (Hkeys : NoDup (pids <$> order)).

Lemma deal_to_in_round r n i w w' :
  order !! i = Some r -> in_round pids order d n i w -> deal_to r w = (Ok tt, w') ->
  in_round pids order d n (S i) w'.
Proof.
  intros Hr (Hd & Hi & Hp & t & Ht & Hh) Hres.
  assert ((pids <$> order) !! i = Some (pids r)) as Hkey by (by rewrite list_lookup_fmap, Hr).
  pose proof (holes_after_lookup _ n i _ Hkey) as Hl. rewrite length_fmap in Hl.
  assert (NoDup (holes t).*1) as Hnd by (by rewrite Hh, holes_after_keys).
  revert Hres. unfold deal_to, deck_at, try_update_room, append_hole, set_holes.
  unfold bind, get, lift, update_obj, update_room, ret, raise.
  cbn [room heap running outbox]. rewrite Hd, Hi.
  destruct (d !! _) as [card|]; [|done]. rewrite Ht, Hp.
  rewrite <- Hh in Hl. rewrite (dict_get_lookup _ _ _ _ Hnd Hl).
  intros [= <-]. split_and!; cbn [room deck deal_index set_deal_index set_transcript transcript].
  - done.
  - lia.
  - intros r'. erewrite (pid_obj_alter _ r w); [apply Hp|done|done].
  - eexists. split; [done|]. cbn [holes].
    rewrite (dict_set_lookup _ _ _ _ _ Hnd Hl), Hh.
    rewrite <- (holes_after_step _ n i (pids r) Hkey). by rewrite length_fmap.
Qed.

Lemma deal_round_in_round n w w' :
  in_round pids order d n 0 w -> for_each order deal_to w = (Ok tt, w') ->
  in_round pids order d (S n) 0 w'.
Proof.
  intros Hw Hres.
  assert (in_round pids order d n (length order) w') as (Hd & Hi & Hp & t & Ht & Hh).
  { apply (for_each_inv_ok (fun i w => in_round pids order d n i w) order deal_to)
      with (w := w); [|done..].
    intros i r w1 w2 Hr Hw1 Hb. by eapply deal_to_in_round. }
  split_and!; [done|lia|done|]. exists t. split; [done|].
  rewrite Hh. rewrite <- (length_fmap pids order). apply holes_after_full.
Qed.

Lemma deal_rounds_in_round n w w' :
  in_round pids order d 0 0 w -> repeat_n n (for_each order deal_to) w = (Ok tt, w') ->
  in_round pids order d n 0 w'.
Proof.
  intros Hw Hres.
  apply (repeat_n_inv_ok (fun i w => in_round pids order d i 0 w) n (for_each order deal_to))
    with (w := w); [|done..].
  intros i w1 w2 _ Hw1 Hb. by eapply deal_round_in_round.
Qed.
End rounds.

Global Instance same_holes_preorder : PreOrder same_holes.
Proof. split; unfold same_holes; [by intros w|intros w1 w2 w3; congruence]. Qed.

Lemma same_holes_deal_community count : respects same_holes (deal_community count).
Proof.
  apply respects_repeat_n; [apply _|]. intros w. unfold same_holes.
  unfold deal_to_community, deck_at, try_update_room, append_community_index.
  unfold bind, get, lift, update_obj, update_room, ret, raise.
  cbn [room heap running outbox set_community transcript].
  destruct (_ !! _); [|done]. destruct (transcript (room w)) as [[]|] eqn:Ht; cbn; by rewrite ?Ht.
Qed.

(** [deal_hole] up to its dealing loop: once the seed is derived, the
    deck is shuffled and every player has an empty transcript entry. *)
Lemma deal_hole_prepared w seed :
  compute_master_seed (items w) = Ok seed ->
  exists d w2,
    d ≡ₚ make_deck /\
    deal_hole w
    = repeat_n (hole_n (variant (room w))) (for_each (map snd (players (room w))) deal_to) w2 /\
    dealing (fun r => pid (obj w r)) (map snd (players (room w))) d [] 0 w2 /\
    (NoDup ((fun r => pid (obj w r)) <$> map snd (players (room w))) ->
     in_round (fun r => pid (obj w r)) (map snd (players (room w))) d 0 0 w2).
Proof.
  intros Hseed.
  destruct (shuffle_make_deck seed.1) as (d & Hd & Hp & Hnd & Hlen).
  set (order := map snd (players (room w))).
  set (w1 := mkWorld
               (set_transcript (Some (mkTranscript (variant (room w)) [] []))
                  (set_deal_index 0 (set_deck d (set_master_seed_hex (Some seed.2) (room w)))))
               (heap w) (running w) (outbox w)).
  assert (deal_hole w
          = (let* _ := for_each order clear_hole in
             repeat_n (hole_n (variant (room w))) (for_each order deal_to)) w1) as ->.
  { unfold deal_hole. step. rewrite Hseed.
    unfold bind at 1, lift at 1. step.
    unfold bind at 1, lift at 1. rewrite Hd. by do 3 step. }
  destruct (for_each_inv
              (fun i w2 =>
                 deck (room w2) = d /\ deal_index (room w2) = 0%nat /\
                 (forall r, pid (obj w2 r) = pid (obj w r)) /\
                 exists hs, transcript (room w2) = Some (mkTranscript (variant (room w)) hs []) /\
                            concat hs.*2 = [] /\
                            (forall j r, (j < i)%nat -> order !! j = Some r ->
                                         is_Some (dict_get (pid (obj w r)) hs)) /\
                            (NoDup ((fun r => pid (obj w r)) <$> order) ->
                             hs = (fun key => (key, []))
                                    <$> take i ((fun r => pid (obj w r)) <$> order)))
              order clear_hole) with (w := w1) as (w2 & Hres2 & Hw2).
  - intros i r w2 Hr (Hdk & Hidx & Hpid & hs & Ht & Hnil & Hkeys & Hexact).
    rewrite (clear_hole_spec _ _ _ _ _ Ht). eexists. split; [done|].
    split_and!; cbn [room deck deal_index set_transcript transcript]; [done..| |].
    + intros r'. by erewrite (pid_obj_alter _ r w2).
    + eexists. split; [done|]. split; [by apply dict_set_empty|]. split.
      * intros j r' Hj Hr'. rewrite Hpid.
        destruct (decide (j = i)) as [->|Hne].
        -- simplify_eq. by rewrite dict_get_set_eq.
        -- apply dict_get_set_is_Some, (Hkeys j); [lia|done].
      * intros Hkn. rewrite Hpid, (Hexact Hkn).
        assert (((fun r => pid (obj w r)) <$> order) !! i = Some (pid (obj w r))) as Hkey
          by (by rewrite list_lookup_fmap, Hr).
        rewrite (take_S_r _ _ _ Hkey), fmap_app. apply dict_set_fresh.
        rewrite <- list_fmap_compose. cbn [compose fst]. rewrite list_fmap_id.
        intros (j & Hj & Hlt)%elem_of_take.
        pose proof (NoDup_lookup _ _ _ _ Hkn Hj Hkey). lia.
  - split_and!; [done..|]. exists []. split_and!; [done..| |done]. intros j r Hj. lia.
  - rewrite (bind_ok _ _ _ _ _ Hres2).
    destruct Hw2 as (Hdk & Hidx & Hpid & hs & Ht & Hnil & Hkeys & Hexact).
    exists d, w2. do 2 (split; [done|]). split.
    + split; [done|]. split; [done|]. split; [done|].
      eexists. split; [done|]. split_and!; [done| |].
      * unfold recorded_indices. cbn [holes community_indices]. by rewrite Hnil.
      * intros r [j Hj]%list_elem_of_lookup_1. apply (Hkeys j); [|done].
        by apply lookup_lt_Some in Hj.
    + intros Hkn. split; [done|]. split; [done|]. split; [done|].
      eexists. split; [done|]. cbn [holes].
      rewrite (Hexact Hkn), holes_after_start. by rewrite take_ge by (by rewrite length_fmap).
Qed.

(** [deal_hole] succeeds when every participant has a reveal on file and
    the deck holds enough cards; it leaves the hand in the state
    [dealing] with the cursor after the last hole card. *)
Lemma deal_hole_dealing w :
  (forall p, p ∈ values w -> revealed p = true) ->
  (hole_n (variant (room w)) * length (players (room w)) <= 52)%nat ->
  exists w' d,
    deal_hole w = (Ok tt, w') /\ d ≡ₚ make_deck /\
    dealing (fun r => pid (obj w r)) (map snd (players (room w))) d []
      (hole_n (variant (room w)) * length (players (room w))) w'.
Proof.
  intros Hall Hn.
  destruct (compute_master_seed_ok (items w)) as (seed & Hseed).
  { intros kv Hkv. apply Hall. unfold values. by apply (list_elem_of_fmap_2 snd). }
  destruct (deal_hole_prepared w seed Hseed) as (d & w2 & Hp & -> & Hw2 & _).
  destruct (deal_rounds_dealing (fun r => pid (obj w r)) (map snd (players (room w))) d
              (hole_n (variant (room w))) [] w2) as (w3 & Hres3 & Hw3); [|done|].
  - rewrite length_map, Hp. by vm_compute.
  - exists w3, d. rewrite length_map in Hw3. done.
Qed.

(** Conversely, when [deal_hole] returns, every participant had a reveal
    on file and the deck held enough cards. *)
Lemma deal_hole_returned w w' :
  deal_hole w = (Ok tt, w') ->
  (forall p, p ∈ values w -> revealed p = true) /\
  (hole_n (variant (room w)) * length (players (room w)) <= 52)%nat /\
  exists d, d ≡ₚ make_deck /\
    dealing (fun r => pid (obj w r)) (map snd (players (room w))) d []
      (hole_n (variant (room w)) * length (players (room w))) w' /\
    (NoDup ((fun r => pid (obj w r)) <$> map snd (players (room w))) ->
     in_round (fun r => pid (obj w r)) (map snd (players (room w))) d
       (hole_n (variant (room w))) 0 w').
Proof.
  intros Hres.
  destruct (compute_master_seed (items w)) as [seed|e|] eqn:Hseed.
  - destruct (deal_hole_prepared w seed Hseed) as (d & w2 & Hp & Heq & Hw2 & Hexact).
    rewrite Heq in Hres.
    destruct (deal_rounds_returned _ _ d _ [] w2 w' Hw2 Hres) as [Hle Hdealt].
    rewrite length_map in Hle, Hdealt.
    assert (length d = 52%nat) as Hlen by (rewrite Hp; by vm_compute).
    split_and!; [|lia|exists d; split_and!; [done..|]].
    + intros p [kv [-> Hkv]]%list_elem_of_fmap. by eapply compute_master_seed_returned.
    + intros Hnd. eapply deal_rounds_in_round; [done|by apply Hexact|done].
  - exfalso. revert Hres. unfold deal_hole. step. by rewrite Hseed.
  - exfalso. revert Hres. unfold deal_hole. step. by rewrite Hseed.
Qed.

(** C6. Transcript partition: in the two-hole variant, for a room of [k]
    participants, dealing the hole cards and then flop, turn and river
    completes exactly when every participant has a reveal on file and
    [2k + 5 <= 52]; whenever it completes, the cursor is [2k + 5] and
    the transcript records exactly the indices [0 .. 2k + 4], each once,
    all below 52, the last five of them for the community. *)
Theorem transcript_partition (w : World) :
  variant (room w) = "TEXAS" ->
  let k := length (players (room w)) in
  ((exists w', deal_full_hand w = (Ok tt, w')) <->
   (forall p, p ∈ values w -> revealed p = true) /\ (2 * k + 5 <= 52)%nat) /\
  (forall w', deal_full_hand w = (Ok tt, w') ->
     deal_index (room w') = (2 * k + 5)%nat /\
     exists t,
       transcript (room w') = Some t /\
       recorded_indices t ≡ₚ seq 0 (2 * k + 5) /\
       NoDup (recorded_indices t) /\
       length (recorded_indices t) = (2 * k + 5)%nat /\
       (forall i, i ∈ recorded_indices t -> (i < 52)%nat) /\
       community_indices t = seq (2 * k) 5 /\
       deck (room w') ≡ₚ make_deck /\
       (NoDup ((fun r => pid (obj w r)) <$> map snd (players (room w))) ->
        holes t = imap (fun j r => (pid (obj w r), [j; (k + j)%nat]))
                    (map snd (players (room w))))).
Proof.
  intros Hv k.
  assert (forall w', deal_full_hand w = (Ok tt, w') ->
            (forall p, p ∈ values w -> revealed p = true) /\ (2 * k + 5 <= 52)%nat /\
            exists d, d ≡ₚ make_deck /\
              dealing (fun r => pid (obj w r)) (map snd (players (room w))) d
                (seq (2 * k) 5) (2 * k + 5) w' /\
              (NoDup ((fun r => pid (obj w r)) <$> map snd (players (room w))) ->
               holes <$> transcript (room w')
               = Some (holes_after ((fun r => pid (obj w r)) <$> map snd (players (room w)))
                         2 0))) as Hret.
  { intros w'. unfold deal_full_hand, bind.
    destruct (deal_hole w) as [[[]| |] w1] eqn:H1; [|done..].
    destruct (deal_community 3 w1) as [[[]| |] w2] eqn:H2; [|done..].
    destruct (deal_community 1 w2) as [[[]| |] w3] eqn:H3; [|done..].
    intros H4.
    pose proof (same_holes_deal_community 3 w1) as Hh2. rewrite H2 in Hh2.
    pose proof (same_holes_deal_community 1 w2) as Hh3. rewrite H3 in Hh3.
    pose proof (same_holes_deal_community 1 w3) as Hh4. rewrite H4 in Hh4.
    unfold same_holes in Hh2, Hh3, Hh4. cbn [snd] in Hh2, Hh3, Hh4.
    apply deal_hole_returned in H1 as (Hall & Hn & d & Hp & Hw1 & Hexact).
    rewrite Hv in Hn, Hw1. change (hole_n "TEXAS") with 2%nat in Hn, Hw1. fold k in Hn, Hw1.
    assert (length d = 52%nat) as Hlen by (rewrite Hp; by vm_compute).
    assert (2 * k <= length d)%nat as Hc1 by lia.
    destruct (deal_community_returned _ _ d 3 [] (2 * k) w1 w2 Hw1 Hc1 H2) as [Hle2 Hw2].
    destruct (deal_community_returned _ _ d 1 _ (2 * k + 3) w2 w3 Hw2 Hle2 H3) as [Hle3 Hw3].
    destruct (deal_community_returned _ _ d 1 _ (2 * k + 3 + 1) w3 w' Hw3 Hle3 H4)
      as [Hle4 Hw4].
    split_and!; [done|lia|]. exists d. split; [done|]. split.
    - replace (2 * k + 3 + 1 + 1)%nat with (2 * k + 5)%nat in Hw4 by lia.
      replace (seq (2 * k) 5) with ((([] ++ seq (2 * k) 3) ++ seq (2 * k + 3) 1)
                                     ++ seq (2 * k + 3 + 1) 1); [done|].
      cbn [app seq]. repeat f_equal; lia.
    - intros Hnd. destruct (Hexact Hnd) as (_ & _ & _ & t1 & Ht1 & Hholes).
      rewrite Hh4, Hh3, Hh2, Ht1. cbn. by rewrite Hholes, Hv. }
  split.
  - split.
    + intros [w' Hres]. by destruct (Hret w' Hres) as (? & ? & _).
    + intros [Hall Hk].
      destruct (deal_hole_dealing w Hall) as (w1 & d & Hres1 & Hp & Hw1).
      { rewrite Hv. change (hole_n "TEXAS") with 2%nat. subst k. lia. }
      rewrite Hv in Hw1. change (hole_n "TEXAS") with 2%nat in Hw1. fold k in Hw1.
      assert (length d = 52%nat) as Hlen by (rewrite Hp; by vm_compute).
      assert (2 * k + 3 <= length d)%nat as H3 by lia.
      destruct (deal_community_dealing _ _ d 3 _ _ w1 H3 Hw1) as (w2 & Hres2 & Hw2).
      assert (2 * k + 3 + 1 <= length d)%nat as H4 by lia.
      destruct (deal_community_dealing _ _ d 1 _ _ w2 H4 Hw2) as (w3 & Hres3 & Hw3).
      assert (2 * k + 3 + 1 + 1 <= length d)%nat as H5 by lia.
      destruct (deal_community_dealing _ _ d 1 _ _ w3 H5 Hw3) as (w4 & Hres4 & Hw4).
      exists w4. unfold deal_full_hand.
      rewrite (bind_ok _ _ _ _ _ Hres1), (bind_ok _ _ _ _ _ Hres2).
      by rewrite (bind_ok _ _ _ _ _ Hres3).
  - intros w' Hres.
    destruct (Hret w' Hres)
      as (_ & Hk & d & Hp & (Hd & Hi & _ & t & Ht & Hcomm & Hrec & _) & Hexact).
    split; [done|]. exists t. split_and!; [done..| | | |done|by rewrite Hd|].
    + rewrite Hrec. apply NoDup_seq.
    + by rewrite Hrec, length_seq.
    + intros i. rewrite Hrec, elem_of_seq. lia.
    + intros Hnd. specialize (Hexact Hnd). rewrite Ht in Hexact. cbn in Hexact.
      injection Hexact as ->. rewrite holes_after_two, length_fmap, imap_fmap.
      subst k. by rewrite length_map.
Qed.

Lemma transcript_partition_witness :
  let w := run "ROOM01"
             [(reliable, Connect "A"); (reliable, Connect "B");
              (reliable, Receive 0 (Text (Commit (Some (sha256_hex "s1|t1")))));
              (reliable, Receive 1 (Text (Commit (Some (sha256_hex "s2|t2")))));
              (reliable, Receive 0 (Text (Reveal (Some "s1") (Some "t1"))));
              (reliable, Receive 1 (Text (Reveal (Some "s2") (Some "t2"))))] in
  exists w', deal_full_hand w = (Ok tt, w').
Proof.
  intros w.
  apply (proj1 (transcript_partition w ltac:(vm_compute; reflexivity))).
  split.
  - intros p Hp. vm_compute in Hp.
    repeat (apply elem_of_cons in Hp as [->|Hp]; [reflexivity|]). by apply elem_of_nil in Hp.
  - vm_compute. lia.
Defined.

(** ** C8, C9: failures that are not local *)

(** C8. Error atomicity fails for [new_hand]: the branch has none of the
    guards of [start_hand]. With two connected players and no reveal on
    file, the host's [new_hand] clears the hand, moves the room from
    LOBBY to HAND, raises in the seed derivation and takes the host out
    of the room and its handler out of its loop; in a room with a hand
    in progress and a newcomer without a reveal it also wipes the deck,
    the cursor, the transcript and the master seed. *)
Theorem new_hand_error_not_atomic :
  let w := run "ROOM01" [(reliable, Connect "A"); (reliable, Connect "B")] in
  let res := step reliable (Receive 0 (Text NewHand)) w in
  (stage (room w) = LOBBY /\ players (room w) = [("A", 0%nat); ("B", 1%nat)] /\
   running w = [0%nat; 1%nat]) /\
  (stage (room res.2) = HAND /\ players (room res.2) = [("B", 1%nat)] /\
   running res.2 = [1%nat] /\
   drop (length (outbox w)) (outbox res.2)
   = [(1%nat, Log "Error: Missing reveal for player"); (1%nat, State)]) /\
  let w2 := run "ROOM01"
              [(reliable, Connect "A"); (reliable, Connect "B");
               (reliable, Receive 0 (Text (Commit (Some (sha256_hex "s1|t1")))));
               (reliable, Receive 1 (Text (Commit (Some (sha256_hex "s2|t2")))));
               (reliable, Receive 0 (Text (Reveal (Some "s1") (Some "t1"))));
               (reliable, Receive 1 (Text (Reveal (Some "s2") (Some "t2"))));
               (reliable, Receive 0 (Text (StartHand None)));
               (reliable, Connect "C")] in
  let res2 := step reliable (Receive 0 (Text NewHand)) w2 in
  (length (deck (room w2)) = 52%nat /\ deal_index (room w2) = 4%nat /\
   is_Some (transcript (room w2)) /\ is_Some (master_seed_hex (room w2)) /\
   length (players (room w2)) = 3%nat) /\
  (deck (room res2.2) = [] /\ deal_index (room res2.2) = 0%nat /\
   transcript (room res2.2) = None /\ master_seed_hex (room res2.2) = None /\
   players (room res2.2) = [("B", 1%nat); ("C", 2%nat)] /\
   running res2.2 = [1%nat; 2%nat]).
Proof. vm_compute. repeat split; eauto. Qed.

(** C9. Host uniqueness fails on the [except Exception] path, which pops
    the participant and promotes nobody: after the host sends a frame
    that is not JSON, the room keeps one participant and no host. The
    [except WebSocketDisconnect] path does promote the first remaining
    participant. *)
Theorem host_lost_on_exception :
  let w := run "ROOM01" [(reliable, Connect "A"); (reliable, Connect "B");
                         (reliable, Receive 0 (Malformed "Expecting value"))] in
  let w' := run "ROOM01" [(reliable, Connect "A"); (reliable, Connect "B");
                          (reliable, Close 0)] in
  (players (room w) = [("B", 1%nat)] /\ is_host <$> values w = [false]) /\
  (players (room w') = [("B", 1%nat)] /\ is_host <$> values w' = [true]).
Proof. vm_compute. repeat split. Qed.

(** ** C10: presence checks only *)

Lemma first_unready_None (ps : list Player) :
  first_unready ps = None <->
  forall p, p ∈ ps -> truthy (commitment p) = true /\ revealed p = true.
Proof.
  induction ps as [|p ps IH]; cbn [first_unready].
  - split; [|done]. intros _ p Hp. by apply elem_of_nil in Hp.
  - fold (revealed p). destruct (truthy (commitment p)) eqn:Hc; cbn [negb].
    + destruct (revealed p) eqn:Hr; cbn [negb].
      * rewrite IH. split.
        -- intros H q [->|Hq]%elem_of_cons; [done|by apply H].
        -- intros H q Hq. apply H. by right.
      * split; [done|]. intros H. destruct (H p ltac:(left)) as [_ ?]. congruence.
    + split; [done|]. intros H. destruct (H p ltac:(left)) as [? _]. congruence.
Qed.

Lemma values_revealed w w' :
  players (room w') = players (room w) ->
  (forall r, obj w' r = obj w r \/ obj w' r = set_hole [] (obj w r)) ->
  (forall p, p ∈ values w -> revealed p = true) ->
  forall p, p ∈ values w' -> revealed p = true.
Proof.
  intros Hps Hobj Hall p. unfold values, items. rewrite Hps, <- list_fmap_compose.
  intros [[k r] [-> Hkr]]%list_elem_of_fmap. cbn [compose snd].
  assert (revealed (obj w r) = true) as Hr.
  { apply Hall. unfold values, items. rewrite <- list_fmap_compose.
    apply list_elem_of_fmap. by exists (k, r). }
  by destruct (Hobj r) as [-> | ->].
Qed.

Global Instance same_stage_preorder : PreOrder same_stage.
Proof. split; unfold same_stage; [by intros w|intros w1 w2 w3; congruence]. Qed.

Lemma same_stage_try_update_room (f : Room -> result Room) :
  (forall r r', f r = Ok r' -> stage r' = stage r) ->
  respects same_stage (try_update_room f).
Proof.
  intros Hf w. unfold try_update_room, bind, get, lift, update_room.
  destruct (f (room w)) as [r'| |] eqn:Hr; [|done..]. by apply Hf.
Qed.

Lemma same_stage_deal_hole : respects same_stage deal_hole.
Proof.
  assert (forall k v r r', set_holes k v r = Ok r' -> stage r' = stage r) as Hset.
  { intros k v r r'. unfold set_holes. destruct (transcript r); by intros; simplify_eq/=. }
  unfold deal_hole.
  repeat lazymatch goal with
    | |- respects _ (bind get _) => apply respects_bind; [apply _|apply respects_get, _|intros ?]
    | |- respects _ (bind (lift _) _) =>
        apply respects_bind; [apply _|apply respects_lift, _|intros ?]
    | |- respects _ (bind _ _) => apply respects_bind; [apply _| |intros ?]
    | |- respects _ (for_each _ _) => apply respects_for_each; [apply _|intros ?]
    | |- respects _ (repeat_n _ _) => apply respects_repeat_n; [apply _|]
    | |- respects same_stage (update_room _) => by intros ?
    end.
  - unfold clear_hole. apply respects_bind; [apply _|by intros ?|intros _].
    apply respects_bind; [apply _|apply respects_get, _|intros ?].
    apply same_stage_try_update_room. apply Hset.
  - unfold deal_to, deck_at.
    apply respects_bind; [apply _|apply respects_get, _|intros w].
    apply respects_bind; [apply _| |intros ?].
    { apply respects_bind; [apply _|apply respects_get, _|intros ?].
      destruct (_ !! _); by intros ?. }
    apply respects_bind; [apply _|by intros ?|intros _].
    apply respects_bind; [apply _| |by intros ?].
    apply same_stage_try_update_room. intros r r'. unfold append_hole.
    destruct (transcript r); [|done]. destruct (dict_get _ _); [|done]. apply Hset.
Qed.

Section hands.
Context (net : nat -> delivery).

  (** After the hole cards are dealt, the branch sets the stage and
      tells the players. *)
Lemma hand_announced pids order d c p w :
    dealing pids order d [] c w -> d ≡ₚ make_deck ->
    exists w', (let* _ := update_room (set_stage HAND) in
                let* _ := broadcast net p in
                send_state net) w = (Ok tt, w') /\
               stage (room w') = HAND /\ deck (room w') ≡ₚ make_deck /\
               deal_index (room w') = c.
  Proof.
    intros (Hd & Hi & _) Hp. do 3 step.
    destruct Hb as (Hr1 & _), Hs as (Hr2 & _).
    eexists. split; [done|]. rewrite Hr2, Hr1. cbn. by rewrite Hd, Hi.
  Qed.

Lemma start_hand_succeeds w h v :
    is_running w h = true -> is_host (obj w h) = true ->
    (2 <= length (players (room w)))%nat ->
    (hole_n (chosen_variant v) * length (players (room w)) <= 52)%nat ->
    (forall p, p ∈ values w -> truthy (commitment p) = true /\ revealed p = true) ->
    let res := step net (Receive h (Text (StartHand v))) w in
    res.1 = Ok tt /\ stage (room res.2) = HAND /\ deck (room res.2) ≡ₚ make_deck /\
    deal_index (room res.2) = (hole_n (chosen_variant v) * length (players (room w)))%nat.
  Proof.
    intros Hrun Hhost Hlen Hn Hall res. subst res. cbn [step]. rewrite Hrun.
    assert (exists w', on_frame net h (Text (StartHand v)) w = (Ok tt, w') /\
              stage (room w') = HAND /\ deck (room w') ≡ₚ make_deck /\
              deal_index (room w')
              = (hole_n (chosen_variant v) * length (players (room w)))%nat)
      as (w' & Hres & Hfacts).
    { cbn [on_frame]. step. rewrite Hhost. cbn [negb]. fold (chosen_variant v). step.
      destruct (Nat.ltb_spec (length (players (room w))) 2) as [|_]; [lia|].
      rewrite (proj2 (first_unready_None (values w)) Hall).
      set (w1 := mkWorld _ _ _ _).
      destruct (reset_hand_spec w1) as (w2 & Hres2 & Hr2 & _ & _ & _ & Hobj2).
      rewrite (bind_ok _ _ _ _ _ Hres2).
      destruct (deal_hole_dealing w2) as (w3 & d & Hres3 & Hp & Hw3).
      { apply (values_revealed w); [by rewrite Hr2|exact Hobj2|]. intros p Hp. by apply Hall. }
      { by rewrite Hr2. }
      rewrite (bind_ok _ _ _ _ _ Hres3). rewrite Hr2 in Hw3. cbn [variant players] in Hw3.
      eapply hand_announced; [exact Hw3|exact Hp]. }
    by rewrite handle_ok; rewrite Hres.
  Qed.

Lemma new_hand_succeeds w h :
    is_running w h = true -> is_host (obj w h) = true ->
    (hole_n (variant (room w)) * length (players (room w)) <= 52)%nat ->
    (forall p, p ∈ values w -> revealed p = true) ->
    let res := step net (Receive h (Text NewHand)) w in
    res.1 = Ok tt /\ stage (room res.2) = HAND /\ deck (room res.2) ≡ₚ make_deck /\
    deal_index (room res.2) = (hole_n (variant (room w)) * length (players (room w)))%nat.
  Proof.
    intros Hrun Hhost Hn Hall res. subst res. cbn [step]. rewrite Hrun.
    assert (exists w', on_frame net h (Text NewHand) w = (Ok tt, w') /\
              stage (room w') = HAND /\ deck (room w') ≡ₚ make_deck /\
              deal_index (room w')
              = (hole_n (variant (room w)) * length (players (room w)))%nat)
      as (w' & Hres & Hfacts).
    { cbn [on_frame]. step. rewrite Hhost. cbn [negb].
      destruct (reset_hand_spec w) as (w2 & Hres2 & Hr2 & _ & _ & _ & Hobj2).
      rewrite (bind_ok _ _ _ _ _ Hres2). step.
      set (w2' := mkWorld _ _ _ _).
      destruct (deal_hole_dealing w2') as (w3 & d & Hres3 & Hp & Hw3).
      { apply (values_revealed w); [by subst w2'; cbn; rewrite Hr2|exact Hobj2|done]. }
      { subst w2'. cbn [room]. by rewrite Hr2. }
      rewrite (bind_ok _ _ _ _ _ Hres3).
      pose proof (same_stage_deal_hole w2') as Hst. rewrite Hres3 in Hst.
      unfold same_stage in Hst. subst w2'. cbn [room snd stage set_stage] in Hw3, Hst.
      rewrite Hr2 in Hw3. cbn [variant players set_stage] in Hw3.
      destruct Hw3 as (Hd & Hi & _). do 2 step.
      destruct Hb as (Hr4 & _), Hs as (Hr5 & _).
      eexists. split; [done|]. rewrite Hr5, Hr4. cbn. by rewrite Hd, Hi, Hst. }
    by rewrite handle_ok; rewrite Hres.
  Qed.
End hands.

(** C10. A successful commit overwrites the commitment and keeps the
    stored seed and salt; [start_hand] and [new_hand] succeed on the
    presence of commitment, seed and salt alone ([new_hand] on seed and
    salt), whatever the commitment is; so a state is reachable in which
    [start_hand] has dealt a hand while the host's stored reveal does
    not hash to the commitment the host holds. *)
Theorem stale_reveal_reachable :
  (forall net w h c,
     is_running w h = true -> (h < length (heap w))%nat -> commit_accepts c = true ->
     let p' := obj (step net (Receive h (Text (Commit c))) w).2 h in
     commitment p' = c /\ seed p' = seed (obj w h) /\ salt p' = salt (obj w h)) /\
  (forall ps,
     first_unready ps = None <->
     forall p, p ∈ ps ->
               truthy (commitment p) = true /\ truthy (seed p) = true /\ truthy (salt p) = true) /\
  (forall net w h v,
     is_running w h = true -> is_host (obj w h) = true ->
     (2 <= length (players (room w)))%nat ->
     (hole_n (chosen_variant v) * length (players (room w)) <= 52)%nat ->
     (forall p, p ∈ values w -> truthy (commitment p) = true /\ revealed p = true) ->
     let res := step net (Receive h (Text (StartHand v))) w in
     res.1 = Ok tt /\ stage (room res.2) = HAND /\ deck (room res.2) ≡ₚ make_deck) /\
  (forall net w h,
     is_running w h = true -> is_host (obj w h) = true ->
     (hole_n (variant (room w)) * length (players (room w)) <= 52)%nat ->
     (forall p, p ∈ values w -> revealed p = true) ->
     let res := step net (Receive h (Text NewHand)) w in
     res.1 = Ok tt /\ stage (room res.2) = HAND /\ deck (room res.2) ≡ₚ make_deck) /\
  (exists evs,
     let w := run "ROOM01" evs in
     let res := step reliable (Receive 0 (Text (StartHand None))) w in
     res.1 = Ok tt /\ stage (room res.2) = HAND /\ deck (room res.2) ≡ₚ make_deck /\
     players (room res.2) = [("A", 0%nat); ("B", 1%nat)] /\
     stale_reveal (obj res.2 0)).
Proof.
  split_and!.
  - intros net w h c Hrun Hh Hacc p'. subst p'.
    by destruct (commit_stores net w h c Hrun Hh Hacc) as (_ & _ & ->).
  - intros ps. rewrite first_unready_None. unfold revealed.
    split; intros H p Hp; destruct (H p Hp) as (? & ?).
    + by split_and!; [|apply andb_true_iff in H1 as [? ?]..].
    + destruct H1. split; [done|]. by apply andb_true_iff.
  - intros net w h v Hrun Hhost Hlen Hn Hall res.
    by destruct (start_hand_succeeds net w h v Hrun Hhost Hlen Hn Hall) as (? & ? & ? & _).
  - intros net w h Hrun Hhost Hn Hall res.
    by destruct (new_hand_succeeds net w h Hrun Hhost Hn Hall) as (? & ? & ? & _).
  - exists [(reliable, Connect "A"); (reliable, Connect "B");
            (reliable, Receive 0 (Text (Commit (Some (sha256_hex "s1|t1")))));
            (reliable, Receive 0 (Text (Reveal (Some "s1") (Some "t1"))));
            (reliable, Receive 1 (Text (Commit (Some (sha256_hex "s2|t2")))));
            (reliable, Receive 1 (Text (Reveal (Some "s2") (Some "t2"))));
            (reliable, Receive 0 (Text (Commit (Some
               "0000000000000000000000000000000000000000000000000000000000000000"))))].
    intros w res.
    destruct (start_hand_succeeds reliable w 0 None) as (H1 & H2 & H3 & _).
    + vm_compute. reflexivity.
    + vm_compute. reflexivity.
    + vm_compute. lia.
    + vm_compute. lia.
    + intros p Hp. vm_compute in Hp.
      repeat (apply elem_of_cons in Hp as [->|Hp]; [by split|]). by apply elem_of_nil in Hp.
    + split_and!; [done..| |].
      * vm_compute. reflexivity.
      * exists "0000000000000000000000000000000000000000000000000000000000000000", "s1", "t1".
        split_and!; [vm_compute; reflexivity..|]. vm_compute. discriminate.
Qed.

Lemma stale_reveal_reachable_witness :
  let w := run "ROOM01" [(reliable, Connect "A");
                         (reliable, Receive 0 (Text (Commit (Some (sha256_hex "s|t")))));
                         (reliable, Receive 0 (Text (Reveal (Some "s") (Some "t"))))] in
  let c := Some "0000000000000000000000000000000000000000000000000000000000000000" in
  let p' := obj (step reliable (Receive 0 (Text (Commit c))) w).2 0 in
  commitment p' = c /\ seed p' = seed (obj w 0) /\ salt p' = salt (obj w 0).
Proof.
  intros w c p'.
  apply (proj1 stale_reveal_reachable reliable w 0%nat c).
  - vm_compute. reflexivity.
  - vm_compute. lia.
  - vm_compute. reflexivity.
Defined.


(** ** Reachable worlds are well formed *)

Global Instance keeps_wf_preorder : PreOrder keeps_wf.
Proof. split; unfold keeps_wf; [by intros w|intros w1 w2 w3; auto]. Qed.

Section dict_pop_set.
Context {V : Type}.
Implicit Types (d : list (string * V)).

Lemma dict_pop_sublist k d : dict_pop k d `sublist_of` d.
Proof.
  induction d as [|[k' v] d IH]; cbn [dict_pop]; [done|].
  destruct (decide (k = k')); [by constructor|by constructor].
Qed.

Lemma dict_set_keys k v d :
  (dict_set k v d).*1 = if decide (k ∈ d.*1) then d.*1 else d.*1 ++ [k].
Proof.
  induction d as [|[k' v'] d IH]; cbn [dict_set fmap list_fmap fst].
  - rewrite decide_False; [done|]. apply not_elem_of_nil.
  - destruct (decide (k = k')) as [->|Hne]; cbn [fmap list_fmap fst].
    + rewrite decide_True; [done|]. by left.
    + fold (d.*1) ((dict_set k v d).*1). rewrite IH.
      destruct (decide (k ∈ d.*1)) as [Hin|Hin].
      * rewrite decide_True; [done|]. by right.
      * rewrite decide_False; [done|]. by intros [?|?]%elem_of_cons.
Qed.

Lemma dict_set_NoDup k v d : NoDup d.*1 -> NoDup (dict_set k v d).*1.
Proof.
  intros Hnd. rewrite dict_set_keys. destruct (decide _) as [|Hk]; [done|].
  apply NoDup_app. split_and!; [done| |apply NoDup_singleton].
  intros x Hx ->%list_elem_of_singleton. done.
Qed.

Lemma dict_set_elem_of k v k' v' d :
  (k', v') ∈ dict_set k v d -> (k', v') = (k, v) \/ (k', v') ∈ d.
Proof.
  induction d as [|[k0 v0] d IH]; cbn [dict_set].
  - intros ->%list_elem_of_singleton. by left.
  - destruct (decide (k = k0)) as [->|Hne].
    + intros [->|?]%elem_of_cons; [by left|right; by right].
    + intros [->|Hin]%elem_of_cons; [right; by left|].
      destruct (IH Hin) as [?|?]; [by left|right; by right].
Qed.
End dict_pop_set.

Lemma wf_same_heap w w' :
  players (room w') = players (room w) -> heap w' = heap w -> running w' = running w ->
  keeps_wf w w'.
Proof.
  intros Hp Hh Hr (Hnd & Hrefs & Hrun). unfold wf, obj. rewrite Hp, Hh, Hr. done.
Qed.

Lemma keeps_wf_update_room (f : Room -> Room) :
  (forall r, players (f r) = players r) -> respects keeps_wf (update_room f).
Proof. intros Hf w. apply wf_same_heap; cbn; [apply Hf|done..]. Qed.

Lemma keeps_wf_try_update_room (f : Room -> result Room) :
  (forall r r', f r = Ok r' -> players r' = players r) ->
  respects keeps_wf (try_update_room f).
Proof.
  intros Hf w. unfold try_update_room, bind, get, lift, update_room.
  destruct (f (room w)) as [r'| |] eqn:Hr; [|done..].
  apply wf_same_heap; cbn; [by apply Hf|done..].
Qed.

Lemma keeps_wf_pop k :
  respects keeps_wf (update_room (fun r => set_players (dict_pop k (players r)) r)).
Proof.
  intros w (Hnd & Hrefs & Hrun). split_and!; cbn; [| |done].
  - eapply sublist_NoDup; [exact Hnd|apply fmap_sublist, dict_pop_sublist].
  - intros k' r Hin. apply Hrefs. eapply elem_of_sublist; [done|apply dict_pop_sublist].
Qed.

Lemma keeps_wf_update_obj r (f : Player -> Player) :
  (forall p, pid (f p) = pid p) -> respects keeps_wf (update_obj r f).
Proof.
  intros Hf w (Hnd & Hrefs & Hrun). split_and!; cbn; [done| |].
  - intros k r' Hin. destruct (Hrefs k r' Hin) as [Hlt Hpid].
    rewrite length_alter. split; [done|].
    by erewrite (pid_obj_alter f r w).
  - intros h Hh. rewrite length_alter. by apply Hrun.
Qed.

Lemma keeps_wf_emit to p : respects keeps_wf (emit to p).
Proof. intros w. by apply wf_same_heap. Qed.

Lemma keeps_wf_stop h : respects keeps_wf (stop h).
Proof.
  intros w (Hnd & Hrefs & Hrun). split_and!; cbn; [done..|].
  intros h' [_ Hh']%list_elem_of_filter. by apply Hrun.
Qed.

Lemma set_holes_players k v r r' : set_holes k v r = Ok r' -> players r' = players r.
Proof. unfold set_holes. destruct (transcript r); by intros; simplify_eq/=. Qed.

Lemma append_hole_players k idx r r' : append_hole k idx r = Ok r' -> players r' = players r.
Proof.
  unfold append_hole. destruct (transcript r) as [t|]; [|done].
  destruct (dict_get k (holes t)); [|done]. apply set_holes_players.
Qed.

Lemma append_community_index_players idx r r' :
  append_community_index idx r = Ok r' -> players r' = players r.
Proof. unfold append_community_index. destruct (transcript r); by intros; simplify_eq/=. Qed.

Ltac wf_tac :=
  repeat lazymatch goal with
    | |- respects _ (bind get _) => apply respects_bind; [apply _|apply respects_get, _|intros ?]
    | |- respects _ (bind (lift _) _) =>
        apply respects_bind; [apply _|apply respects_lift, _|intros ?]
    | |- respects _ (bind _ _) => apply respects_bind; [apply _| |intros ?]
    | |- respects _ (ret _) => apply respects_ret, _
    | |- respects _ (raise _) => apply respects_raise, _
    | |- respects _ (for_each _ _) => apply respects_for_each; [apply _|intros ?]
    | |- respects _ (repeat_n _ _) => apply respects_repeat_n; [apply _|]
    | |- respects _ (match ?x with _ => _ end) => destruct x
    | |- respects keeps_wf (update_obj _ _) => apply keeps_wf_update_obj; by intros []
    | |- respects keeps_wf (update_room (fun r => set_players (dict_pop _ _) r)) =>
        apply keeps_wf_pop
    | |- respects keeps_wf (update_room _) => by apply keeps_wf_update_room
    | |- respects keeps_wf (try_update_room (set_holes _ _)) =>
        apply keeps_wf_try_update_room; intros ??; apply set_holes_players
    | |- respects keeps_wf (try_update_room (append_hole _ _)) =>
        apply keeps_wf_try_update_room; intros ??; apply append_hole_players
    | |- respects keeps_wf (try_update_room (append_community_index _)) =>
        apply keeps_wf_try_update_room; intros ??; apply append_community_index_players
    | |- respects keeps_wf (emit _ _) => apply keeps_wf_emit
    | |- respects keeps_wf (stop _) => apply keeps_wf_stop
    | |- respects keeps_wf (send_text _ _ _) => unfold send_text
    | |- respects keeps_wf (broadcast _ _) => unfold broadcast
    | |- respects keeps_wf (send_state _) => unfold send_state
    | |- respects keeps_wf reset_hand => unfold reset_hand
    | |- respects keeps_wf deal_hole => unfold deal_hole
    | |- respects keeps_wf (deal_community _) => unfold deal_community
    | |- respects keeps_wf (clear_hole _) => unfold clear_hole
    | |- respects keeps_wf (deal_to _) => unfold deal_to
    | |- respects keeps_wf deal_to_community => unfold deal_to_community
    | |- respects keeps_wf (deck_at _) => unfold deck_at
    end.

Section net.
Context (net : nat -> delivery).

Lemma keeps_wf_on_frame h f : respects keeps_wf (on_frame net h f).
Proof. destruct f as [[]|]; cbn [on_frame]; wf_tac. Qed.

Lemma keeps_wf_on_disconnect h : respects keeps_wf (on_disconnect net h).
Proof. unfold on_disconnect. wf_tac. Qed.

Lemma keeps_wf_on_exception h e : respects keeps_wf (on_exception net h e).
Proof. unfold on_exception. wf_tac. Qed.

Lemma keeps_wf_handle h body :
  respects keeps_wf body -> respects keeps_wf (handle net h body).
Proof.
  intros Hb w. unfold handle. specialize (Hb w).
  assert (forall (m : M unit) w', keeps_wf w w' -> respects keeps_wf m ->
            keeps_wf w (m w').2) as Hafter.
  { intros m w' H1 H2. etrans; [exact H1|apply H2]. }
  destruct (body w) as [[[]|e|] w']; cbn [snd] in Hb; [done| |done].
  destruct e; apply Hafter; try exact Hb.
  all: apply respects_bind; [apply _| |intros ?; apply keeps_wf_stop].
  all: first [apply keeps_wf_on_disconnect|apply keeps_wf_on_exception].
Qed.

Lemma keeps_wf_ws_connect pid : respects keeps_wf (ws_connect net pid).
Proof.
  intros w Hwf. unfold ws_connect. step.
  unfold bind at 1, new_object at 1. step.
  set (w2 := mkWorld _ _ _ _).
  assert (wf w2) as Hwf2.
  { destruct Hwf as (Hnd & Hrefs & Hrun). subst w2. split_and!; cbn.
    - by apply dict_set_NoDup.
    - intros k r [[= -> ->]|Hin]%dict_set_elem_of.
      + rewrite length_app. cbn. split; [lia|].
        unfold obj. cbn. by rewrite lookup_app_r, Nat.sub_diag by lia.
      + destruct (Hrefs k r Hin) as [Hlt Hpid]. rewrite length_app. split; [lia|].
        unfold obj in *. cbn. by rewrite lookup_app_l.
    - intros h Hh. rewrite length_app. specialize (Hrun h Hh). lia. }
  assert (respects keeps_wf (broadcast net (Log ("Player connected: " +:+ slice_to 8 pid +:+ "…"))))
    as Hbc by wf_tac.
  unfold bind at 1, send_text at 1. destruct (net (length (heap w))) as [|e]; [|done].
  cbn [emit]. specialize (Hbc (mkWorld (room w2) (heap w2) (running w2)
                                       (outbox w2 ++ [(length (heap w), State)]))).
  match type of Hbc with keeps_wf _ (broadcast ?n ?p ?w).2 =>
    destruct (broadcast_quiet n p w) as (w4 & (_ & Hh4 & Hr4 & _) & E) end.
  rewrite E in Hbc. cbn [snd] in Hbc. rewrite (bind_ok _ _ _ _ _ E).
  destruct Hbc as (Hnd & Hrefs & Hrun); [by apply (keeps_wf_emit _ _ w2)|].
  split_and!; cbn; [done..|].
  intros h [Hh| ->%list_elem_of_singleton]%elem_of_app; [by apply Hrun|].
  rewrite Hh4. subst w2. cbn. rewrite length_app. cbn. lia.
Qed.

Lemma keeps_wf_step ev w : keeps_wf w (step net ev w).2.
Proof.
  destruct ev as [pid|h f|h]; cbn [step].
  - apply keeps_wf_ws_connect.
  - destruct (is_running w h); [|done]. apply keeps_wf_handle, keeps_wf_on_frame.
  - destruct (is_running w h); [|done]. apply keeps_wf_handle, respects_raise, _.
Qed.
End net.

(** Every reachable world is well formed: the identities of the players
    of the room are distinct, and a running handler has its object. *)
Lemma reachable_wf code evs : wf (run code evs).
Proof.
  unfold run.
  assert (wf (init_world code)) as Hinit.
  { split_and!; cbn; [constructor|intros ?? []%elem_of_nil|intros ? []%elem_of_nil]. }
  generalize dependent (init_world code).
  induction evs as [|[net ev] evs IH]; intros w Hw; [done|]. cbn [fold_left].
  by apply IH, keeps_wf_step.
Qed.

Lemma wf_pids w :
  wf w -> (fun r => pid (obj w r)) <$> map snd (players (room w)) = (players (room w)).*1.
Proof.
  intros (_ & Hrefs & _). rewrite <- list_fmap_compose. apply list_fmap_ext.
  intros i [k r] Hi. cbn. by apply Hrefs, (list_elem_of_lookup_2 _ i).
Qed.

Lemma reachable_pids_distinct code evs :
  let w := run code evs in
  NoDup ((fun r => pid (obj w r)) <$> map snd (players (room w))) /\
  (forall h, is_running w h = true -> (h < length (heap w))%nat).
Proof.
  intros w. pose proof (reachable_wf code evs) as Hwf. fold w in Hwf. split.
  - rewrite wf_pids by done. apply Hwf.
  - intros h Hh%bool_decide_eq_true. by apply Hwf.
Qed.

(** ** More on the generator *)

(** X1. Over a full period the generator never repeats itself: the
    outputs of any two of [2^64] consecutive calls of [next_u64] differ,
    each is a 64-bit word, and the state after [i + 1] calls is the seed
    plus [i + 1] times the increment, modulo [2^64]. *)
Theorem next_u64_outputs_distinct (self : SplitMix64) (i j : nat) :
  Z.of_nat i < 2 ^ 64 -> Z.of_nat j < 2 ^ 64 -> i <> j ->
  draw self i <> draw self j /\
  0 <= draw self i < 2 ^ 64 /\
  state (skip (S i) self) = (state self + Z.of_nat (S i) * 0x9E3779B97F4A7C15) mod 2 ^ 64.
Proof.
  intros Hi Hj Hne. split; [|split].
  - intros H. by apply draw_inj in H.
  - apply draw_range.
  - apply state_skip.
Qed.

Lemma next_u64_outputs_distinct_witness :
  draw (SplitMix64_init 0) 0 <> draw (SplitMix64_init 0) 1 /\
  0 <= draw (SplitMix64_init 0) 0 < 2 ^ 64 /\
  state (skip 1 (SplitMix64_init 0)) = (0 + 1 * 0x9E3779B97F4A7C15) mod 2 ^ 64.
Proof.
  apply (next_u64_outputs_distinct (SplitMix64_init 0) 0 1); [vm_compute; reflexivity..|lia].
Defined.



(** X3. [randbelow(n)] returns after rejecting at most [2^64 mod n]
    draws (none when [n] divides [2^64]); the generator has advanced by
    exactly the draws made. *)
Theorem randbelow_draw_bound (self : SplitMix64) (n : Z) :
  0 < n <= 2 ^ 64 ->
  exists k, (Z.of_nat k <= 2 ^ 64 mod n) /\
            randbelow self n = Ok (draw self k mod n, skip (S k) self).
Proof.
  intros Hn. unfold randbelow. destruct (Z.leb_spec n 0); [lia|].
  pose proof (Z.mod_pos_bound (2 ^ 64) n ltac:(lia)) as Hq.
  destruct (randbelow_loop_enough (Z.to_nat n) self n Hn ltac:(lia))
    as (k & Hk & _ & _ & Hres).
  exists k. split; [lia|done].
Qed.

Lemma randbelow_draw_bound_witness :
  exists k, Z.of_nat k <= 2 ^ 64 mod 52 /\
            randbelow (SplitMix64_init 0) 52
            = Ok (draw (SplitMix64_init 0) k mod 52, skip (S k) (SplitMix64_init 0)).
Proof.
  apply (randbelow_draw_bound (SplitMix64_init 0) 52). lia.
Defined.

(** ** What [broadcast] and [send_state] deliver *)

Lemma filter_ext_in {A} (P Q : A -> Prop) `{!forall x, Decision (P x)}
    `{!forall x, Decision (Q x)} (l : list A) :
  (forall x, x ∈ l -> P x <-> Q x) -> filter P l = filter Q l.
Proof.
  induction l as [|a l IH]; intros Hpq; [done|].
  rewrite !filter_cons. rewrite IH by (intros x Hx; apply Hpq; by right).
  pose proof (Hpq a ltac:(by left)) as Ha.
  destruct (decide (P a)), (decide (Q a)); tauto || done.
Qed.

Lemma filter_fmap {A B} (f : A -> B) (P : B -> Prop) `{!forall x, Decision (P x)} (l : list A) :
  filter P (f <$> l) = f <$> filter (fun x => P (f x)) l.
Proof.
  induction l as [|a l IH]; [done|]. cbn [fmap list_fmap]. rewrite !filter_cons, IH.
  by destruct (decide (P (f a))).
Qed.

Lemma filter_all {A} (P : A -> Prop) `{!forall x, Decision (P x)} (l : list A) :
  (forall x, x ∈ l -> P x) -> filter P l = l.
Proof.
  induction l as [|a l IH]; intros Hp; [done|].
  rewrite filter_cons_True by (apply Hp; by left). f_equal. apply IH. intros x Hx. apply Hp. by right.
Qed.

Section pops.
Context {V : Type}.
Implicit Types (d : list (string * V)).

Lemma dict_pop_filter k d :
  NoDup d.*1 -> dict_pop k d = filter (fun kv => kv.1 <> k) d.
Proof.
  induction d as [|[k' v] d IH]; intros Hnd; [done|].
  apply NoDup_cons in Hnd as [Hk' Hnd]. cbn [dict_pop].
  destruct (decide (k = k')) as [->|Hne].
  - rewrite filter_cons_False by (cbn; tauto).
    symmetry. apply filter_all. intros [k v'] Hin Heq. cbn in Heq. subst k.
    apply Hk', list_elem_of_fmap. by exists (k', v').
  - rewrite filter_cons_True by (cbn; congruence). by rewrite IH.
Qed.

Lemma filter_keys_NoDup (P : string * V -> Prop) `{!forall x, Decision (P x)} d :
  NoDup d.*1 -> NoDup (filter P d).*1.
Proof.
  intros Hnd. eapply sublist_NoDup; [exact Hnd|]. apply fmap_sublist, sublist_filter.
Qed.
End pops.

Lemma for_each_emit (l : list nat) p w :
  for_each l (fun r => emit r p) w
  = (Ok tt, mkWorld (room w) (heap w) (running w) (outbox w ++ map (fun r => (r, p)) l)).
Proof.
  revert w. induction l as [|r l IH]; intros w; cbn [for_each map].
  - unfold ret. rewrite app_nil_r. by destruct w.
  - unfold bind, emit at 1. rewrite IH. cbn [room heap running outbox].
    by rewrite <- app_assoc.
Qed.

Lemma set_players_id r : set_players (players r) r = r.
Proof. by destruct r. Qed.

Lemma for_each_pop (dead : list string) w :
  NoDup (players (room w)).*1 ->
  for_each dead (fun k => update_room (fun r => set_players (dict_pop k (players r)) r)) w
  = (Ok tt, mkWorld (set_players (filter (fun kr => kr.1 ∉ dead) (players (room w))) (room w))
              (heap w) (running w) (outbox w)).
Proof.
  revert w. induction dead as [|k dead IH]; intros w Hnd; cbn [for_each].
  - unfold ret. rewrite filter_all by (intros ? _; apply not_elem_of_nil).
    rewrite set_players_id. by destruct w.
  - unfold bind, update_room at 1. rewrite IH; cbn [room heap running outbox set_players players].
    + f_equal. f_equal. unfold set_players; cbn. f_equal.
      rewrite dict_pop_filter by done. rewrite list_filter_filter.
      apply list_filter_iff. intros [k' r]. cbn. rewrite not_elem_of_cons. tauto.
    + rewrite dict_pop_filter by done. by apply filter_keys_NoDup.
Qed.

Lemma broadcast_live (net : nat -> delivery) (p : payload) (w : World) :
  wf w -> broadcast net p w = (Ok tt, sent_to_live net p w).
Proof.
  intros (Hnd & Hrefs & _). unfold broadcast. step.
  unfold bind. rewrite for_each_emit. rewrite for_each_pop by done.
  cbn [room heap running outbox]. unfold sent_to_live, live. f_equal. f_equal.
  - f_equal. apply filter_ext_in. intros [k r] Hin. cbn. split.
    + intros Hk. destruct (delivered (net r)) eqn:Hd; [done|]. exfalso. apply Hk.
      apply list_elem_of_fmap. exists r. split.
      * symmetry. by apply Hrefs.
      * apply list_elem_of_filter. split; [done|]. apply list_elem_of_fmap. by exists (k, r).
    + intros Hd [r' [Hpid [Hd' [[k' r''] [-> Hin']]%list_elem_of_fmap]%list_elem_of_filter]]%list_elem_of_fmap.
      cbn in *. destruct (Hrefs k' r'' Hin') as [_ Hp]. rewrite Hp in Hpid. subst k'.
      assert (r = r'') as <- by (eapply NoDup_keys_value; eauto). congruence.
  - f_equal. change (map snd (players (room w))) with (snd <$> players (room w)).
    rewrite filter_fmap. rewrite <- list_fmap_compose. done.
Qed.

Lemma send_state_live (net : nat -> delivery) (w : World) :
  NoDup (players (room w)).*1 -> send_state net w = (Ok tt, sent_to_live net State w).
Proof.
  intros Hnd. unfold send_state. step.
  assert (forall l w1, NoDup (players (room w1)).*1 ->
            for_each l (fun kr => match net kr.2 with
                                  | Delivered => emit kr.2 State
                                  | Fails _ => update_room (fun r => set_players (dict_pop kr.1 (players r)) r)
                                  end) w1
            = (Ok tt, mkWorld (set_players (filter (fun kr => kr.1 ∉ (filter (fun kr => delivered (net kr.2) = false) l).*1)
                                             (players (room w1))) (room w1))
                        (heap w1) (running w1)
                        (outbox w1 ++ map (fun kr => (kr.2, State)) (live net l)))) as Hloop.
  { induction l as [|[k r] l IH]; intros w1 Hnd1; cbn [for_each].
    - unfold ret, live. rewrite filter_nil. cbn. rewrite app_nil_r.
      rewrite filter_all by (intros ? _; apply not_elem_of_nil).
      rewrite set_players_id. by destruct w1.
    - unfold bind, live. rewrite !filter_cons. cbn [snd fst].
      destruct (net r) as [|e] eqn:Hnet; cbn [delivered].
      + unfold emit at 1. rewrite IH by done. cbn [room heap running outbox].
        repeat case_decide; try done. cbn [map snd].
        by rewrite <- app_assoc, <- cons_middle.
      + unfold update_room at 1. repeat case_decide; try done.
        rewrite IH; cbn [room heap running outbox set_players players].
        * f_equal. f_equal. unfold set_players; cbn. f_equal.
          rewrite dict_pop_filter by done. rewrite list_filter_filter.
          apply list_filter_iff. intros [k' r']. cbn. rewrite not_elem_of_cons. tauto.
        * rewrite dict_pop_filter by done. by apply filter_keys_NoDup. }
  rewrite Hloop by done. unfold sent_to_live, live. f_equal. f_equal. f_equal.
  apply filter_ext_in. intros [k r] Hin. cbn. split.
  - intros Hk. destruct (delivered (net r)) eqn:Hd; [done|]. exfalso. apply Hk.
    apply list_elem_of_fmap. exists (k, r). split; [done|]. by apply list_elem_of_filter.
  - intros Hd [[k' r'] [Hk [Hd' Hin']%list_elem_of_filter]]%list_elem_of_fmap.
    cbn in *. subst k'. assert (r = r') as <- by (eapply NoDup_keys_value; eauto). congruence.
Qed.

Lemma live_reliable ps : live reliable ps = ps.
Proof. unfold live. by apply filter_all. Qed.

Lemma live_sublist net ps : live net ps `sublist_of` ps.
Proof. apply sublist_filter. Qed.



(** X6. [send_state] never raises; when the keys of [room.players] are
    distinct it sends one state message to each player whose connection
    takes it, in join order, drops exactly the others, and changes
    nothing else. *)
Theorem send_state_reaches_live (net : nat -> delivery) (w : World) :
  NoDup (players (room w)).*1 ->
  send_state net w = (Ok tt, sent_to_live net State w) /\
  (forall k r, (k, r) ∈ players (room (sent_to_live net State w)) <->
               (k, r) ∈ players (room w) /\ net r = Delivered).
Proof.
  intros Hnd. split; [by apply send_state_live|].
  intros k r. unfold sent_to_live, live. cbn. rewrite list_elem_of_filter. cbn.
  destruct (net r); cbn; split; intros [? ?]; done.
Qed.

Lemma send_state_reaches_live_witness :
  let w := run "ROOM01" [(reliable, Connect "A"); (reliable, Connect "B")] in
  let net := fun r => match r with O => Fails (Exception "closed") | _ => Delivered end in
  send_state net w = (Ok tt, sent_to_live net State w) /\
  players (room (sent_to_live net State w)) = [("B", 1%nat)].
Proof.
  intros w net. split; [|vm_compute; reflexivity].
  apply (proj1 (send_state_reaches_live net w (proj1 (reachable_wf _ _)))).
Defined.

(** ** The table invariant *)

Global Instance keeps_preorder (P : World -> Prop) : PreOrder (keeps P).
Proof. split; unfold keeps; [by intros w|intros w1 w2 w3; auto]. Qed.

Global Instance quiet_preorder : PreOrder quiet.
Proof.
  split.
  - intros w. split; [done|]. exists []. by rewrite app_nil_r.
  - intros w1 w2 w3 [(?&?&?&?&?) (o1 & Ho1 & Hs1)] [(?&?&?&?&?) (o2 & Ho2 & Hs2)].
    split; [split_and!; congruence|].
    exists (o1 ++ o2). rewrite Ho2, Ho1, app_assoc. split; [done|]. by apply Forall_app.
Qed.

Lemma quiet_keeps w w' : quiet w w' -> keeps table_inv w w'.
Proof.
  intros [(Hc & Hd & Hi & Hm & Ht) (out & Ho & Hs)] (Hh & Hl & Hout).
  unfold table_inv, hand_inv in *. rewrite Hc, Hd, Hi, Hm, Ht, Ho.
  split_and!; [done..|]. by apply Forall_app.
Qed.

Lemma quiet_same w w' :
  room w' = room w -> outbox w' = outbox w -> quiet w w'.
Proof. intros Hr Ho. unfold quiet. rewrite Hr, Ho. split; [done|]. exists []. by rewrite app_nil_r. Qed.

Lemma quiet_update_obj r f : respects quiet (update_obj r f).
Proof. intros w. by apply quiet_same. Qed.

Lemma quiet_update_room (f : Room -> Room) :
  (forall r, community (f r) = community r /\ deck (f r) = deck r /\
             deal_index (f r) = deal_index r /\ master_seed_hex (f r) = master_seed_hex r /\
             transcript (f r) = transcript r) ->
  respects quiet (update_room f).
Proof. intros Hf w. split; [apply Hf|]. exists []. by rewrite app_nil_r. Qed.

Lemma quiet_emit to p : audit_sound p -> respects quiet (emit to p).
Proof. intros Hp w. split; [done|]. exists [(to, p)]. split; [done|]. by constructor. Qed.

Lemma quiet_send_text net h p : audit_sound p -> respects quiet (send_text net h p).
Proof. intros Hp. unfold send_text. destruct (net h); [by apply quiet_emit|by intros w]. Qed.

Lemma quiet_pop k :
  respects quiet (update_room (fun r => set_players (dict_pop k (players r)) r)).
Proof. by apply quiet_update_room. Qed.

Lemma quiet_broadcast net p : audit_sound p -> respects quiet (broadcast net p).
Proof.
  intros Hp. unfold broadcast. apply respects_bind; [apply _|apply respects_get, _|]. intros w.
  apply respects_bind; [apply _| |intros _].
  - apply respects_for_each; [apply _|]. intros r. by apply quiet_emit.
  - apply respects_for_each; [apply _|]. intros k. apply quiet_pop.
Qed.

Lemma quiet_send_state net : respects quiet (send_state net).
Proof.
  unfold send_state. apply respects_bind; [apply _|apply respects_get, _|]. intros w.
  apply respects_for_each; [apply _|]. intros kr.
  destruct (net kr.2); [by apply quiet_emit|apply quiet_pop].
Qed.

Ltac quiet_tac :=
  repeat lazymatch goal with
    | |- respects _ (bind get _) => apply respects_bind; [apply _|apply respects_get, _|intros ?]
    | |- respects _ (bind _ _) => apply respects_bind; [apply _| |intros ?]
    | |- respects _ (ret _) => apply respects_ret, _
    | |- respects _ (raise _) => apply respects_raise, _
    | |- respects _ (match ?x with _ => _ end) => destruct x
    | |- respects (keeps table_inv) _ => eapply respects_weaken; [apply quiet_keeps|]
    | |- respects quiet (broadcast _ _) => by apply quiet_broadcast
    | |- respects quiet (send_state _) => apply quiet_send_state
    | |- respects quiet (send_text _ _ _) => by apply quiet_send_text
    | |- respects quiet (emit _ _) => by apply quiet_emit
    | |- respects quiet (update_obj _ _) => apply quiet_update_obj
    | |- respects quiet (update_room _) => by apply quiet_update_room
    | |- respects quiet (stop _) => intros ?; by apply quiet_same
    | |- respects quiet (start _) => intros ?; by apply quiet_same
    | |- respects quiet (new_object _) => intros ?; by apply quiet_same
    end.

(** After a first part that establishes [P], a rest that keeps it. *)
Lemma bind_keeps {A B} (P : World -> Prop) (m : M A) (k : A -> M B) w :
  P (m w).2 -> (forall a, respects (keeps P) (k a)) -> P ((bind m k) w).2.
Proof.
  intros Hm Hk. unfold bind. destruct (m w) as [[a| |] w1]; cbn [snd] in *; [|done..].
  by apply Hk.
Qed.

Lemma table_inv_heap w hp :
  table_inv w -> table_inv (mkWorld (room w) hp (running w) (outbox w)).
Proof. done. Qed.

Lemma keeps_table_deal_to r : respects (keeps table_inv) (deal_to r).
Proof.
  intros w Hinv. pose proof Hinv as (Hh & Hl & Hout).
  unfold deal_to, deck_at, try_update_room, append_hole, set_holes.
  unfold bind, get, lift, update_obj, update_room, ret, raise.
  cbn [room heap running outbox].
  destruct (deck (room w) !! deal_index (room w)) as [card|] eqn:Hcard; [|done].
  apply lookup_lt_Some in Hcard. unfold hand_inv in Hh.
  destruct (transcript (room w)) as [t|] eqn:Ht; [|exact Hinv].
  destruct (dict_get _ (holes t)) as [l|] eqn:Hl'; [|exact Hinv].
  destruct Hh as (Hb & Hle & Hrec & Hcomm).
  cbn [snd]. unfold table_inv, hand_inv.
  cbn [room outbox transcript set_deal_index set_transcript deck deal_index community
         master_seed_hex holes community_indices].
  split_and!; [done|lia| |done|done|done].
  unfold recorded_indices in *. cbn [holes community_indices].
  rewrite (dict_set_append _ _ _ _ Hl'), Nat.add_1_r, seq_S. cbn [app].
  rewrite <- Permutation_cons_append. by f_equiv.
Qed.

(** The hand stays consistent under [deal_community], which adds at most
    [count] cards to the community. *)
Lemma deal_to_community_table w :
  hand_inv (room w) ->
  hand_inv (room (deal_to_community w).2) /\
  outbox (deal_to_community w).2 = outbox w /\
  (length (community (room (deal_to_community w).2)) <= S (length (community (room w))))%nat.
Proof.
  intros Hh.
  unfold deal_to_community, deck_at, try_update_room, append_community_index.
  unfold bind, get, lift, update_obj, update_room, ret, raise.
  cbn [room heap running outbox set_community deck deal_index transcript].
  destruct (deck (room w) !! deal_index (room w)) as [card|] eqn:Hcard;
    [|cbn [snd]; split; [done|split; [done|lia]]].
  pose proof (lookup_lt_Some _ _ _ Hcard) as Hlt. unfold hand_inv in Hh.
  destruct (transcript (room w)) as [t|] eqn:Ht.
  - destruct Hh as (Hb & Hle & Hrec & Hcomm). cbn [snd]. unfold hand_inv.
    cbn [room outbox transcript set_deal_index set_transcript deck deal_index community
           master_seed_hex holes community_indices set_community].
    split_and!; [done|lia| | |done|rewrite length_app; cbn; lia].
    + unfold recorded_indices in *. cbn [holes community_indices].
      by rewrite app_assoc, Hrec, Nat.add_1_r, seq_S.
    + rewrite !fmap_app, Hcomm. cbn. by rewrite Hcard.
  - destruct Hh as (_ & Hd & _). rewrite Hd in Hcard. done.
Qed.

Lemma deal_community_table count w :
  hand_inv (room w) ->
  hand_inv (room (deal_community count w).2) /\
  outbox (deal_community count w).2 = outbox w /\
  (length (community (room (deal_community count w).2)) <= length (community (room w)) + count)%nat.
Proof.
  unfold deal_community. revert w. induction count as [|count IH]; intros w Hh.
  - cbn. split_and!; [done..|lia].
  - cbn [repeat_n]. unfold bind.
    destruct (deal_to_community_table w Hh) as (Hh1 & Ho1 & Hl1).
    destruct (deal_to_community w) as [[[]| |] w1]; cbn [snd] in *; [|split_and!; [done..|lia]..].
    destruct (IH w1 Hh1) as (Hh2 & Ho2 & Hl2). split_and!; [done|congruence|lia].
Qed.

Lemma deal_community_keeps count w :
  table_inv w -> (length (community (room w)) + count <= 5)%nat ->
  table_inv (deal_community count w).2.
Proof.
  intros (Hh & Hl & Hout) Hc. destruct (deal_community_table count w Hh) as (Hh' & Ho & Hl').
  split_and!; [done|lia|by rewrite Ho].
Qed.

Lemma compute_master_seed_hex ps seed :
  compute_master_seed ps = Ok seed -> seed.2 = hashlib.hex seed.1.
Proof.
  unfold compute_master_seed. destruct (master_seed_items _); [|done..]. by intros [= <-].
Qed.

Lemma compute_master_seed_length ps seed :
  compute_master_seed ps = Ok seed -> length seed.1 = 32%nat.
Proof.
  unfold compute_master_seed. destruct (master_seed_items _); [|done..]. intros [= <-].
  apply sha256_length.
Qed.

(** [deal_hole] on a cleared table. *)
Lemma deal_hole_fresh w :
  table_inv w -> community (room w) = [] -> table_inv (deal_hole w).2.
Proof.
  intros Hinv Hcomm. unfold deal_hole. step.
  unfold bind at 1, lift at 1.
  destruct (compute_master_seed (items w)) as [seed| |] eqn:Hseed; [|done..].
  step. unfold bind at 1, lift at 1.
  destruct (shuffle_make_deck seed.1) as (d & Hd & Hp & Hnd & Hlen). rewrite Hd.
  do 3 step.
  set (w1 := mkWorld _ _ _ _).
  set (J := fun w' : World => table_inv w' /\
              exists t, transcript (room w') = Some t /\ concat (holes t).*2 = []).
  assert (J w1) as HJ.
  { destruct Hinv as (_ & _ & Hout). subst w1 J. cbn beta. split.
    - unfold table_inv, hand_inv.
      cbn [room outbox transcript set_deal_index set_transcript set_deck set_master_seed_hex
             deck deal_index community master_seed_hex holes community_indices].
      rewrite Hcomm. split_and!; [|cbn; lia|done|done|cbn; lia|done].
      exists seed.1. split; [by apply (compute_master_seed_length _ _ Hseed)|].
      by rewrite <- (compute_master_seed_hex _ _ Hseed).
    - by eexists. }
  clearbody w1. clear Hinv Hcomm.
  assert (respects (keeps J) (for_each (map snd (players (room w))) clear_hole)) as Hclear.
  { apply respects_for_each; [apply _|]. intros r w2 [Hinv2 (t & Ht & Hempty)].
    destruct t as [v hs comm]. rewrite (clear_hole_spec r w2 v hs comm Ht). cbn [snd].
    destruct Hinv2 as (Hh & Hl & Hout). unfold hand_inv in Hh. rewrite Ht in Hh.
    destruct Hh as (Hb & Hle & Hrec & Hc). subst J. cbn beta. split.
    - unfold table_inv, hand_inv. cbn. split_and!; [done..| |done|done|done].
      unfold recorded_indices in *. cbn [holes community_indices] in *.
      cbn in Hempty. by rewrite (dict_set_empty _ _ Hempty), Hempty in *.
    - eexists. split; [done|]. cbn. by apply dict_set_empty. }
  apply (bind_keeps table_inv).
  - by apply Hclear.
  - intros _. apply respects_repeat_n; [apply _|]. apply respects_for_each; [apply _|].
    intros r. apply keeps_table_deal_to.
Qed.

Lemma reset_hand_table w :
  table_inv w ->
  exists w', reset_hand w = (Ok tt, w') /\ table_inv w' /\ community (room w') = [].
Proof.
  intros (_ & _ & Hout). destruct (reset_hand_spec w) as (w' & E & Hr & _ & Ho & _).
  exists w'. split; [done|]. unfold table_inv, hand_inv. rewrite Hr, Ho. cbn.
  split; [split; [done|split; [lia|done]]|done].
Qed.

Section net.
Context (net : nat -> delivery).

Lemma use_quiet {A} (m : M A) w : respects quiet m -> table_inv w -> table_inv (m w).2.
Proof. intros Hm Hw. apply (quiet_keeps w); [apply Hm|done]. Qed.

Lemma keeps_table_on_frame h f : respects (keeps table_inv) (on_frame net h f).
Proof.
  destruct f as [[n a|c|sd sl|v|what| | |mtype]|err]; cbn [on_frame]; try by quiet_tac.
  - (* start_hand *)
    intros w Hinv. step.
    destruct (negb (is_host (obj w h))); [by apply use_quiet; [quiet_tac|]|].
    step. set (w1 := mkWorld _ _ _ _). assert (table_inv w1) as Hinv1 by done. clearbody w1.
    destruct (_ <? _)%nat; [by apply use_quiet; [quiet_tac|]|].
    destruct (first_unready _); [by apply use_quiet; [quiet_tac|]|].
    destruct (reset_hand_table w1 Hinv1) as (w2 & E & Hinv2 & Hc2).
    rewrite (bind_ok _ _ _ _ _ E). apply (bind_keeps table_inv); [by apply deal_hole_fresh|].
    intros _. quiet_tac.
  - (* deal *)
    intros w Hinv. step.
    destruct (negb (is_host (obj w h))); [by apply use_quiet; [quiet_tac|]|].
    destruct (_ || _); [by apply use_quiet; [quiet_tac|]|].
    cbv zeta. apply (bind_keeps table_inv); [|intros _; quiet_tac].
    destruct (_ && (length (community (room w)) =? 0)%nat) eqn:Hflop.
    { apply andb_prop in Hflop as [_ Hn%Nat.eqb_eq].
      apply (bind_keeps table_inv); [apply deal_community_keeps; [done|lia]|intros _; quiet_tac]. }
    destruct (_ && (length (community (room w)) =? 3)%nat) eqn:Hturn.
    { apply andb_prop in Hturn as [_ Hn%Nat.eqb_eq].
      apply (bind_keeps table_inv); [apply deal_community_keeps; [done|lia]|intros _; quiet_tac]. }
    destruct (_ && (length (community (room w)) =? 4)%nat) eqn:Hriver.
    { apply andb_prop in Hriver as [_ Hn%Nat.eqb_eq].
      apply (bind_keeps table_inv); [apply deal_community_keeps; [done|lia]|intros _; quiet_tac]. }
    by apply use_quiet; [quiet_tac|].
  - (* new_hand *)
    intros w Hinv. step.
    destruct (negb (is_host (obj w h))); [by apply use_quiet; [quiet_tac|]|].
    destruct (reset_hand_table w Hinv) as (w2 & E & Hinv2 & Hc2).
    rewrite (bind_ok _ _ _ _ _ E). step.
    apply (bind_keeps table_inv); [by apply deal_hole_fresh|].
    intros _. quiet_tac.
  - (* audit *)
    intros w Hinv. step.
    destruct (negb (bool_decide (stage (room w) = HAND))); cbn [orb];
      [by apply use_quiet; [quiet_tac|]|].
    destruct (bool_decide (deck (room w) = [])) eqn:Hdeck; cbn [orb];
      [by apply use_quiet; [quiet_tac|]|].
    destruct (negb (truthy (master_seed_hex (room w)))); [by apply use_quiet; [quiet_tac|]|].
    apply bool_decide_eq_false in Hdeck. cbv zeta.
    assert (audit_sound (AuditPayload (master_seed_hex (room w)) (deck (room w))
              (sha256_hex (join "|" (deck (room w)) +:+ "|"))
              (map (fun kv => (kv.1, seed kv.2, salt kv.2)) (sorted_by_key (items w)))
              (transcript (room w)))) as Hsound.
    { destruct Hinv as (Hh & _). unfold hand_inv in Hh.
      destruct (transcript (room w)) as [t|]; [|by destruct Hh as (_ & ? & _)].
      destruct Hh as ((b & Hb32 & Hb & Hsh) & Hle & Hrec & _). cbn. split_and!; [done|by exists b|].
      exists t, (deal_index (room w)). split_and!; [done| |done].
      destruct (shuffle_make_deck b) as (d & Hd & _ & _ & Hlen). rewrite Hd in Hsh.
      injection Hsh as Heq. rewrite <- Heq in Hle. lia. }
    apply use_quiet; [|done]. quiet_tac.
Qed.

Lemma keeps_table_handle h body :
  respects (keeps table_inv) body -> respects (keeps table_inv) (handle net h body).
Proof.
  intros Hb w Hinv. unfold handle. specialize (Hb w Hinv).
  destruct (body w) as [[[]|e|] w']; cbn [snd] in Hb; [done| |done].
  destruct e; (apply use_quiet; [|done]); unfold on_disconnect, on_exception; quiet_tac.
Qed.

Lemma keeps_table_step ev : respects (keeps table_inv) (step net ev).
Proof.
  intros w. destruct ev as [pid|h f|h]; cbn [step].
  - apply quiet_keeps. revert w. change (respects quiet (ws_connect net pid)).
    unfold ws_connect. quiet_tac.
  - destruct (is_running w h); [|done]. apply keeps_table_handle, keeps_table_on_frame.
  - destruct (is_running w h); [|done]. apply keeps_table_handle, respects_raise, _.
Qed.
End net.

(** Every reachable world satisfies the table invariant. *)
Lemma reachable_table_inv code evs : table_inv (run code evs).
Proof.
  unfold run.
  assert (table_inv (init_world code)) as Hinit.
  { split_and!; cbn; [done|lia|constructor]. }
  generalize dependent (init_world code).
  induction evs as [|[net ev] evs IH]; intros w Hw; [done|]. cbn [fold_left].
  by apply IH, keeps_table_step.
Qed.

(** X11. At most five community cards are ever on the table: the
    deal branch adds three at none, one at three and one at four, and
    nothing else adds any. *)
Theorem community_at_most_five (code : string) (evs : list ((nat -> delivery) * event)) :
  (length (community (room (run code evs))) <= 5)%nat.
Proof. apply reachable_table_inv. Qed.

(** X12. The deck of a room is always the shuffle under the master seed
    the room publishes: either nothing is dealt (no deck, no seed, no
    transcript, cursor 0) or the deck is [deterministic_shuffle] of the
    canonical deck under 32 bytes whose hex form is [master_seed_hex]. *)
Theorem deck_bound_to_master_seed (code : string) (evs : list ((nat -> delivery) * event)) :
  let r := room (run code evs) in
  (deck r = [] /\ master_seed_hex r = None /\ transcript r = None /\ deal_index r = 0%nat) \/
  (exists b, length b = 32%nat /\ master_seed_hex r = Some (hashlib.hex b) /\
             deterministic_shuffle make_deck b = Ok (deck r) /\
             length (deck r) = 52%nat /\ is_Some (transcript r)).
Proof.
  intros r. destruct (reachable_table_inv code evs) as (Hh & _). fold r in Hh.
  unfold hand_inv in Hh. destruct (transcript r) as [t|].
  - right. destruct Hh as ((b & Hb32 & Hb & Hsh) & _). exists b. split_and!; [done..| |done].
    destruct (shuffle_make_deck b) as (d & Hd & _ & _ & Hlen). rewrite Hd in Hsh.
    by injection Hsh as <-.
  - left. by destruct Hh as (? & ? & ? & ?).
Qed.

(** X13. In every reachable state the transcript records each deck position
    below the cursor exactly once, and the community cards are the deck
    cards at the recorded community positions, in order. *)
Theorem transcript_tracks_cursor (code : string) (evs : list ((nat -> delivery) * event)) :
  let r := room (run code evs) in
  match transcript r with
  | Some t =>
      recorded_indices t ≡ₚ seq 0 (deal_index r) /\ NoDup (recorded_indices t) /\
      (deal_index r <= 52)%nat /\
      Some <$> community r = (fun i => deck r !! i) <$> community_indices t
  | None => community r = [] /\ deal_index r = 0%nat
  end.
Proof.
  intros r. destruct (reachable_table_inv code evs) as (Hh & _). fold r in Hh.
  unfold hand_inv in Hh. destruct (transcript r) as [t|].
  - destruct Hh as ((b & _ & Hb & Hsh) & Hle & Hrec & Hc). split_and!; [done| | |done].
    + rewrite Hrec. apply NoDup_seq.
    + destruct (shuffle_make_deck b) as (d & Hd & _ & _ & Hlen). rewrite Hd in Hsh.
      injection Hsh as Heq. rewrite <- Heq in Hle. lia.
  - by destruct Hh as (? & ? & ? & ?).
Qed.



(** ** Hosts *)

Lemma hosts_flags w : hosts w = length (filter (fun b => b = true) (host_flags w)).
Proof.
  unfold hosts, host_flags, values, items. rewrite !map_map. cbn [snd fst].
  induction (players (room w)) as [|[k r] l IH]; [done|].
  cbn [map fmap list_fmap snd]. rewrite !filter_cons. cbn [snd].
  destruct (decide (is_host (obj w r) = true)); cbn [length]; by rewrite IH.
Qed.

Global Instance fewer_hosts_preorder : PreOrder fewer_hosts.
Proof.
  split; unfold fewer_hosts; [by intros w|]. intros w1 w2 w3 H1 H2. by etrans.
Qed.

Lemma fewer_hosts_le w w' : fewer_hosts w w' -> (hosts w' <= hosts w)%nat.
Proof.
  intros H. rewrite !hosts_flags. apply sublist_length. unfold fewer_hosts in H.
  induction H as [|b l1 l2 H IH|b l1 l2 H IH]; [done| |].
  - rewrite !filter_cons. destruct (decide (b = true)); [by constructor|done].
  - rewrite filter_cons. destruct (decide (b = true)); [by constructor|done].
Qed.

Lemma fewer_hosts_same w w' :
  players (room w') = players (room w) ->
  (forall r, is_host (obj w' r) = is_host (obj w r)) -> fewer_hosts w w'.
Proof.
  intros Hp Ho. unfold fewer_hosts, host_flags. rewrite Hp.
  erewrite list_fmap_ext; [done|]. intros i [k r] _. cbn. apply Ho.
Qed.

Lemma is_host_obj_alter (f : Player -> Player) r0 w w' r :
  heap w' = alter f r0 (heap w) -> (forall p, is_host (f p) = is_host p) ->
  is_host (obj w' r) = is_host (obj w r).
Proof.
  intros Hh Hf. unfold obj. rewrite Hh.
  destruct (decide (r = r0)) as [->|Hne].
  - rewrite list_lookup_alter_eq. destruct (heap w !! r0); cbn; [apply Hf|done].
  - by rewrite list_lookup_alter_ne.
Qed.

Lemma fewer_hosts_update_obj r f :
  (forall p, is_host (f p) = is_host p) -> respects fewer_hosts (update_obj r f).
Proof.
  intros Hf w. apply fewer_hosts_same; [done|]. intros r'.
  by apply (is_host_obj_alter f r w).
Qed.

Lemma fewer_hosts_update_room (f : Room -> Room) :
  (forall r, players (f r) = players r) -> respects fewer_hosts (update_room f).
Proof. intros Hf w. apply fewer_hosts_same; [apply Hf|done]. Qed.

Lemma fewer_hosts_try_update_room (f : Room -> result Room) :
  (forall r r', f r = Ok r' -> players r' = players r) ->
  respects fewer_hosts (try_update_room f).
Proof.
  intros Hf w. unfold try_update_room, bind, get, lift, update_room.
  destruct (f (room w)) as [r'| |] eqn:Hr; [|done..].
  apply fewer_hosts_same; cbn; [by apply Hf|done].
Qed.

Lemma fewer_hosts_pop k :
  respects fewer_hosts (update_room (fun r => set_players (dict_pop k (players r)) r)).
Proof. intros w. unfold fewer_hosts, host_flags. cbn. apply fmap_sublist, dict_pop_sublist. Qed.

Lemma fewer_hosts_quiet w w' :
  players (room w') = players (room w) -> heap w' = heap w -> fewer_hosts w w'.
Proof. intros Hp Hh. apply fewer_hosts_same; [done|]. intros r. unfold obj. by rewrite Hh. Qed.

Ltac hosts_tac :=
  repeat lazymatch goal with
    | |- respects _ (bind get _) => apply respects_bind; [apply _|apply respects_get, _|intros ?]
    | |- respects _ (bind (lift _) _) =>
        apply respects_bind; [apply _|apply respects_lift, _|intros ?]
    | |- respects _ (bind _ _) => apply respects_bind; [apply _| |intros ?]
    | |- respects _ (ret _) => apply respects_ret, _
    | |- respects _ (raise _) => apply respects_raise, _
    | |- respects _ (for_each _ _) => apply respects_for_each; [apply _|intros ?]
    | |- respects _ (repeat_n _ _) => apply respects_repeat_n; [apply _|]
    | |- respects _ (match ?x with _ => _ end) => destruct x
    | |- respects fewer_hosts (update_obj _ _) => apply fewer_hosts_update_obj; by intros []
    | |- respects fewer_hosts (update_room (fun r => set_players (dict_pop _ _) r)) =>
        apply fewer_hosts_pop
    | |- respects fewer_hosts (update_room _) => by apply fewer_hosts_update_room
    | |- respects fewer_hosts (try_update_room (set_holes _ _)) =>
        apply fewer_hosts_try_update_room; intros ??; apply set_holes_players
    | |- respects fewer_hosts (try_update_room (append_hole _ _)) =>
        apply fewer_hosts_try_update_room; intros ??; apply append_hole_players
    | |- respects fewer_hosts (try_update_room (append_community_index _)) =>
        apply fewer_hosts_try_update_room; intros ??; apply append_community_index_players
    | |- respects fewer_hosts (emit _ _) => intros ?; by apply fewer_hosts_quiet
    | |- respects fewer_hosts (stop _) => intros ?; by apply fewer_hosts_quiet
    | |- respects fewer_hosts (start _) => intros ?; by apply fewer_hosts_quiet
    | |- respects fewer_hosts (send_text _ _ _) => unfold send_text
    | |- respects fewer_hosts (broadcast _ _) => unfold broadcast
    | |- respects fewer_hosts (send_state _) => unfold send_state
    | |- respects fewer_hosts reset_hand => unfold reset_hand
    | |- respects fewer_hosts deal_hole => unfold deal_hole
    | |- respects fewer_hosts (deal_community _) => unfold deal_community
    | |- respects fewer_hosts (clear_hole _) => unfold clear_hole
    | |- respects fewer_hosts (deal_to _) => unfold deal_to
    | |- respects fewer_hosts deal_to_community => unfold deal_to_community
    | |- respects fewer_hosts (deck_at _) => unfold deck_at
    end.

Global Instance keeps_one_host_preorder : PreOrder (keeps one_host) := keeps_preorder one_host.

Lemma one_host_step w w' : keeps_wf w w' -> fewer_hosts w w' -> keeps one_host w w'.
Proof.
  intros Hwf Hf [Hw Hh]. split; [by apply Hwf|]. apply fewer_hosts_le in Hf. lia.
Qed.

Lemma one_host_respects {A} (m : M A) :
  respects keeps_wf m -> respects fewer_hosts m -> respects (keeps one_host) m.
Proof. intros H1 H2 w. apply one_host_step; [apply H1|apply H2]. Qed.

(** The addresses of a well-formed room are distinct. *)
Lemma wf_addresses w : wf w -> NoDup (players (room w)).*2.
Proof.
  intros (Hnd & Hrefs & _).
  apply NoDup_fmap_1 with (f := fun r => pid (obj w r)).
  rewrite <- list_fmap_compose.
  assert ((fun r => pid (obj w r)) ∘ snd <$> players (room w) = (players (room w)).*1) as ->; [|done].
  apply list_fmap_ext. intros i [k r] Hi. cbn. by apply Hrefs, (list_elem_of_lookup_2 _ i).
Qed.

Section net.
Context (net : nat -> delivery).

Lemma fewer_hosts_on_frame h f : respects fewer_hosts (on_frame net h f).
Proof. destruct f as [[]|]; cbn [on_frame]; hosts_tac. Qed.

Lemma fewer_hosts_on_exception h e : respects fewer_hosts (on_exception net h e).
Proof. unfold on_exception. hosts_tac. Qed.

Lemma fewer_hosts_broadcast p : respects fewer_hosts (broadcast net p).
Proof. hosts_tac. Qed.

Lemma fewer_hosts_send_state : respects fewer_hosts (send_state net).
Proof. hosts_tac. Qed.
End net.

Lemma no_host_flags w :
  existsb is_host (values w) = false -> Forall (fun b => b = false) (host_flags w).
Proof.
  unfold values, items, host_flags. rewrite !map_map. cbn [snd fst].
  induction (players (room w)) as [|[k r] l IH]; [by constructor|].
  cbn [map existsb fmap list_fmap snd]. intros [H1 H2]%orb_false_elim.
  constructor; [done|by apply IH].
Qed.

Lemma hosts_none w : Forall (fun b => b = false) (host_flags w) -> hosts w = 0%nat.
Proof.
  rewrite hosts_flags. induction 1 as [|b l Hb _ IH]; [done|].
  rewrite filter_cons. by destruct (decide (b = true)); [congruence|].
Qed.

(** Promotion of the first player of a room without a host. *)
Lemma promote_first w k r1 rest :
  wf w -> players (room w) = (k, r1) :: rest -> existsb is_host (values w) = false ->
  hosts (mkWorld (room w) (alter (set_is_host true) r1 (heap w)) (running w) (outbox w))
  = 1%nat.
Proof.
  intros Hwf Hp Hnone. pose proof (wf_addresses w Hwf) as Hnd.
  apply no_host_flags in Hnone. destruct Hwf as (_ & Hrefs & _).
  destruct (Hrefs k r1) as [Hlt _]; [rewrite Hp; by left|].
  rewrite hosts_flags. unfold host_flags in *. cbn [room heap]. rewrite Hp in *.
  cbn [fmap list_fmap snd] in *. apply NoDup_cons in Hnd as [Hfirst Hnd].
  apply Forall_cons in Hnone as [_ Hnone].
  rewrite filter_cons_True.
  2:{ unfold obj. cbn [heap]. rewrite list_lookup_alter_eq.
      destruct (lookup_lt_is_Some_2 _ _ Hlt) as [p ->]. done. }
  cbn [length]. f_equal.
  assert (Forall (fun b => b = false)
            ((fun kr => is_host (obj (mkWorld (room w) (alter (set_is_host true) r1 (heap w))
                                        (running w) (outbox w)) kr.2)) <$> rest)) as Hall.
  { rewrite Forall_fmap in *. rewrite Forall_forall in *. intros [k' r'] Hin. cbn.
    specialize (Hnone _ Hin). cbn in Hnone. unfold obj in *. cbn [heap].
    rewrite list_lookup_alter_ne; [done|]. intros Heq. apply Hfirst.
    apply list_elem_of_fmap. exists (k', r'). by rewrite Heq. }
  clear -Hall. induction Hall as [|b l Hb _ IH]; [done|].
  rewrite filter_cons. by destruct (decide (b = true)); [congruence|].
Qed.

(** A new entry that is no host adds no host. *)
Lemma dict_set_flags (g : nat -> bool) k h (d : list (string * nat)) :
  g h = false ->
  (length (filter (fun b => b = true) ((fun kr => g kr.2) <$> dict_set k h d))
   <= length (filter (fun b => b = true) ((fun kr => g kr.2) <$> d)))%nat.
Proof.
  intros Hg. induction d as [|[k' r'] d IH]; cbn [dict_set fmap list_fmap snd].
  - rewrite filter_cons_False by (cbn; congruence). done.
  - destruct (decide (k = k')) as [->|Hne]; cbn [fmap list_fmap snd].
    + rewrite !filter_cons. rewrite Hg.
      destruct (decide (false = true)); [done|]. destruct (decide (g r' = true)); cbn; lia.
    + rewrite !filter_cons. destruct (decide (g r' = true)); cbn [length]; lia.
Qed.

Section net2.
Context (net : nat -> delivery).

Lemma keeps_one_host_on_disconnect h : respects (keeps one_host) (on_disconnect net h).
Proof.
  unfold on_disconnect.
  apply respects_bind; [apply _|apply respects_get, _|intros w0].
  apply respects_bind; [apply _| |intros _].
  { apply one_host_respects; [apply keeps_wf_pop|apply fewer_hosts_pop]. }
  apply respects_bind; [apply _| |intros _].
  { apply one_host_respects; [wf_tac|apply fewer_hosts_broadcast]. }
  intros w Hone. step. apply (bind_keeps one_host).
  2:{ intros _. apply one_host_respects; [wf_tac|apply fewer_hosts_send_state]. }
  destruct (negb (existsb is_host (values w))) eqn:Hnone; cbn [andb]; [|done].
  destruct (0 <? _)%nat; [|done].
  destruct (players (room w)) as [|[k r1] rest] eqn:Hp; [done|].
  step. step. apply negb_true_iff in Hnone.
  match goal with |- one_host (broadcast net ?p ?w').2 =>
    apply (one_host_respects (broadcast net p)); [wf_tac|apply fewer_hosts_broadcast|] end.
  destruct Hone as [Hwf Hh]. split.
  - by apply (keeps_wf_update_obj r1 (set_is_host true) ltac:(by intros []) w).
  - by rewrite (promote_first w k r1 rest).
Qed.

Lemma hosts_ws_connect pid w :
  wf w -> (hosts w <= 1)%nat -> (hosts (ws_connect net pid w).2 <= 1)%nat.
Proof.
  intros Hwf Hh. unfold ws_connect. step.
  unfold bind at 1, new_object at 1. step.
  set (w2 := mkWorld _ _ _ _).
  assert (hosts w2 <= 1)%nat as Hh2.
  { destruct Hwf as (_ & Hrefs & _). rewrite hosts_flags in *. unfold host_flags in *.
    subst w2. cbn [room players set_players].
    destruct (players (room w)) as [|kr ps] eqn:Hp.
    - cbn [dict_set fmap list_fmap snd]. etrans; [apply length_filter|]. cbn. lia.
    - rewrite <- Hp in *. etrans; [|exact Hh]. etrans.
      + apply (dict_set_flags (fun r => is_host (obj _ r))).
        unfold obj. cbn [heap]. rewrite lookup_app_r, Nat.sub_diag by lia. cbn.
        rewrite Hp. done.
      + apply Nat.eq_le_incl. do 2 f_equal. apply list_fmap_ext. intros i [k r] Hi. cbn.
        destruct (Hrefs k r) as [Hlt _]; [by apply (list_elem_of_lookup_2 _ i)|].
        unfold obj. cbn [heap]. by rewrite lookup_app_l. }
  clearbody w2.
  match goal with |- (hosts (?rest w2).2 <= 1)%nat =>
    assert (respects fewer_hosts rest) as Hrest by hosts_tac;
    pose proof (fewer_hosts_le _ _ (Hrest w2)) end.
  lia.
Qed.

Lemma keeps_one_host_handle h body :
  respects (keeps one_host) body -> respects (keeps one_host) (handle net h body).
Proof.
  intros Hb w Hone. unfold handle. specialize (Hb w Hone).
  destruct (body w) as [[[]|e|] w']; cbn [snd] in Hb; [done| |done].
  assert (respects (keeps one_host) (stop h)) as Hstop.
  { apply one_host_respects; [apply keeps_wf_stop|intros ?; by apply fewer_hosts_quiet]. }
  destruct e; (apply (bind_keeps one_host); [|intros _; apply Hstop]).
  1: by apply keeps_one_host_on_disconnect.
  all: by apply (one_host_respects (on_exception net h _));
         [apply keeps_wf_on_exception|apply fewer_hosts_on_exception|].
Qed.

Lemma keeps_one_host_step ev : respects (keeps one_host) (step net ev).
Proof.
  intros w. destruct ev as [pid|h f|h]; cbn [step].
  - intros [Hwf Hh]. split; [by apply keeps_wf_ws_connect|by apply hosts_ws_connect].
  - destruct (is_running w h); [|done]. apply keeps_one_host_handle.
    apply one_host_respects; [apply keeps_wf_on_frame|apply fewer_hosts_on_frame].
  - destruct (is_running w h); [|done]. apply keeps_one_host_handle, respects_raise, _.
Qed.
End net2.

Lemma reachable_one_host code evs : one_host (run code evs).
Proof.
  unfold run.
  assert (one_host (init_world code)) as Hinit.
  { split; [|cbn; lia].
    split_and!; cbn; [constructor|intros ?? []%elem_of_nil|intros ? []%elem_of_nil]. }
  generalize dependent (init_world code).
  induction evs as [|[net ev] evs IH]; intros w Hw; [done|]. cbn [fold_left].
  by apply IH, keeps_one_host_step.
Qed.

(** X15. A room never has two hosts: in every reachable state at most one
    of the players of the room has [is_host] set. *)
Theorem at_most_one_host (code : string) (evs : list ((nat -> delivery) * event)) :
  (hosts (run code evs) <= 1)%nat.
Proof. apply reachable_one_host. Qed.


(** ** Display names *)

Lemma len_slice_to n s : len (slice_to n s) = Nat.min n (len s).
Proof.
  revert n. induction s as [|c s IH]; intros n; cbn [slice_to len]; [lia|].
  destruct (is_continuation c) eqn:Hc; cbn [len]; rewrite ?Hc.
  - apply IH.
  - destruct n as [|n]; cbn [len]; [done|]. rewrite Hc, IH. lia.
Qed.

Lemma slice_to_nonempty n s : s <> "" -> slice_to (S n) s <> "".
Proof. destruct s as [|c s]; [done|]. intros _. cbn [slice_to]. by destruct (is_continuation c). Qed.

Lemma or_default_nonempty x d : d <> "" -> or_default x d <> "".
Proof. unfold or_default. destruct x as [[|c s]|]; cbn; done. Qed.

Lemma name_ok_join n a p :
  name_ok (set_avatar (slice_to 2 (or_default a ""))
             (set_name (slice_to 18 (or_default n "Player")) p)).
Proof.
  unfold name_ok. cbn [name avatar set_name set_avatar]. split_and!.
  - by apply slice_to_nonempty, or_default_nonempty.
  - rewrite len_slice_to. lia.
  - rewrite len_slice_to. lia.
Qed.






Section net.
Context (net : nat -> delivery).





End net.




(** ** The state message *)

Lemma fold_dict_set_fresh {V W} (key : V -> string) (f : V -> W)
    (g : list (string * W) -> V -> list (string * W)) (l : list V) acc :
  (forall d x, g d x = dict_set (key x) (f x) d) ->
  NoDup (acc.*1 ++ (key <$> l)) ->
  fold_left g l acc = acc ++ ((fun x => (key x, f x)) <$> l).
Proof.
  intros Hg. revert acc. induction l as [|x l IH]; intros acc Hnd; cbn [fold_left fmap list_fmap].
  - by rewrite app_nil_r.
  - rewrite Hg, IH.
    + rewrite dict_set_fresh; [by rewrite <- app_assoc|].
      cbn [fmap list_fmap] in Hnd. apply NoDup_app in Hnd as (_ & Hd & _).
      intros Hin. apply (Hd _ Hin). by left.
    + rewrite dict_set_fresh.
      * rewrite fmap_app. cbn [fmap list_fmap fst]. rewrite <- app_assoc. done.
      * cbn [fmap list_fmap] in Hnd. apply NoDup_app in Hnd as (_ & Hd & _).
        intros Hin. apply (Hd _ Hin). by left.
Qed.

Lemma dict_get_items w k r :
  NoDup (players (room w)).*1 -> (k, r) ∈ players (room w) ->
  dict_get k (items w) = Some (obj w r).
Proof.
  unfold items. induction (players (room w)) as [|[k' r'] l IH]; intros Hnd Hin.
  - by apply elem_of_nil in Hin.
  - cbn [fmap list_fmap fst] in Hnd. apply NoDup_cons in Hnd as [Hk Hnd].
    cbn [map dict_get fst snd]. apply elem_of_cons in Hin as [[= -> ->]|Hin].
    + by rewrite decide_True.
    + rewrite decide_False; [by apply IH|]. intros ->. apply Hk.
      apply list_elem_of_fmap. by exists (k', r).
Qed.

Lemma dict_get_items_None w k :
  k ∉ (players (room w)).*1 -> dict_get k (items w) = None.
Proof.
  unfold items. induction (players (room w)) as [|[k' r'] l IH]; intros Hk; [done|].
  cbn [fmap list_fmap fst] in Hk. apply not_elem_of_cons in Hk as [Hne Hk].
  cbn [map dict_get fst snd]. rewrite decide_False by done. by apply IH.
Qed.

Lemma public_entry_eq st p :
  mkPublicPlayer (pid p) (name p) (avatar p) (is_host p) (commitment p)
    (if bool_decide (st = HAND) || bool_decide (st = AUDIT)
     then truthy (seed p) && truthy (salt p) else false)
  = public_entry st p.
Proof. by destruct st. Qed.

(** The players of a state message, for a well-formed world. *)
Lemma public_players w k :
  wf w ->
  ps_players (room_public_state w k)
  = (fun kr => (kr.1, public_entry (stage (room w)) (obj w kr.2))) <$> players (room w).
Proof.
  intros (Hnd & Hrefs & _). unfold room_public_state. cbn [ps_players].
  rewrite (fold_dict_set_fresh pid (public_entry (stage (room w)))).
  - cbn [app]. unfold values, items. rewrite map_map. cbn [snd fst].
    change (map (fun x => obj w x.2) (players (room w)))
      with ((fun x => obj w x.2) <$> players (room w)).
    rewrite <- list_fmap_compose. apply list_fmap_ext. intros i [k' r'] Hi. cbn.
    f_equal. by apply Hrefs, (list_elem_of_lookup_2 _ i).
  - intros d p. by rewrite public_entry_eq.
  - cbn [app fmap list_fmap]. unfold values, items. rewrite map_map. cbn [snd fst].
    change (map (fun x => obj w x.2) (players (room w)))
      with ((fun x => obj w x.2) <$> players (room w)).
    rewrite <- list_fmap_compose.
    erewrite list_fmap_ext; [exact Hnd|]. intros i [k' r'] Hi. cbn.
    by apply Hrefs, (list_elem_of_lookup_2 _ i).
Qed.

(** X7. A state message lists the players of the room, each once and in
    join order, under their pid, with name, avatar, host flag and
    commitment as stored; the room code, stage, variant and community
    cards are those of the room, and [audit_pending] tells the stage
    HAND. *)
Theorem public_state_lists_players (w : World) (k : string) :
  wf w ->
  let st := room_public_state w k in
  (ps_players st).*1 = (players (room w)).*1 /\
  (forall i key r, players (room w) !! i = Some (key, r) ->
     exists e, ps_players st !! i = Some (key, e) /\
               pp_pid e = key /\ pp_name e = name (obj w r) /\
               pp_avatar e = avatar (obj w r) /\ pp_is_host e = is_host (obj w r) /\
               pp_commitment e = commitment (obj w r)) /\
  ps_room st = code (room w) /\ ps_stage st = stage (room w) /\
  ps_variant st = variant (room w) /\ ps_community st = community (room w) /\
  (ps_audit_pending st = true <-> stage (room w) = HAND).
Proof.
  intros Hwf st. pose proof (public_players w k Hwf) as Hp. fold st in Hp.
  split_and!; [| |done..|].
  - rewrite Hp, <- list_fmap_compose. done.
  - intros i key r Hi. rewrite Hp, list_lookup_fmap, Hi. cbn. eexists. split; [done|].
    split_and!; [|done..]. destruct Hwf as (_ & Hrefs & _).
    by apply Hrefs, (list_elem_of_lookup_2 _ i).
  - subst st. cbn. apply bool_decide_eq_true.
Qed.

Lemma public_state_lists_players_witness :
  let w := run "ROOM01" [(reliable, Connect "A"); (reliable, Connect "B")] in
  (ps_players (room_public_state w "A")).*1 = ["A"; "B"].
Proof.
  intros w.
  rewrite (proj1 (public_state_lists_players w "A" (reachable_wf _ _))).
  vm_compute. reflexivity.
Defined.

(** X8. A state message keeps private what is private: it shows the hole
    cards of the player it is made for and of nobody else (none for a
    pid that is not in the room), and before the stages HAND and AUDIT
    it shows every player as not revealed; in those stages a player
    shows as revealed exactly when a non-empty seed and salt are
    stored. *)
Theorem public_state_privacy (w : World) (k : string) :
  wf w ->
  let st := room_public_state w k in
  (forall r, (k, r) ∈ players (room w) -> ps_my_hole st = hole (obj w r)) /\
  (k ∉ (players (room w)).*1 -> ps_my_hole st = []) /\
  (forall key e, (key, e) ∈ ps_players st ->
     exists r, (key, r) ∈ players (room w) /\
       pp_revealed e = match stage (room w) with
                       | HAND | AUDIT => truthy (seed (obj w r)) && truthy (salt (obj w r))
                       | _ => false
                       end).
Proof.
  intros Hwf st. pose proof (public_players w k Hwf) as Hp. fold st in Hp.
  destruct Hwf as (Hnd & Hrefs & _). split_and!.
  - intros r Hin. subst st. unfold room_public_state. cbn [ps_my_hole].
    by rewrite (dict_get_items w k r).
  - intros Hk. subst st. unfold room_public_state. cbn [ps_my_hole].
    by rewrite dict_get_items_None.
  - intros key e. rewrite Hp. intros [[k' r] [[= -> ->] Hin]]%list_elem_of_fmap.
    exists r. split; [done|]. cbn. by destruct (stage (room w)).
Qed.

Lemma public_state_privacy_witness :
  let w := run "ROOM01" [(reliable, Connect "A"); (reliable, Connect "B")] in
  ps_my_hole (room_public_state w "C") = [].
Proof.
  intros w.
  apply (proj1 (proj2 (public_state_privacy w "C" (reachable_wf _ _)))).
  vm_compute. intros H. repeat (apply elem_of_cons in H as [H|H]; [discriminate|]).
  by apply elem_of_nil in H.
Defined.


(** ** The hands of a deal *)

Lemma obj_alter_set_hole w hp r0 r v :
  hp = alter (set_hole v) r0 (heap w) ->
  default no_player (hp !! r)
  = if decide (r = r0) then
      (if decide (r0 < length (heap w))%nat then set_hole v (obj w r0) else obj w r0)
    else obj w r.
Proof.
  intros ->. unfold obj. destruct (decide (r = r0)) as [->|Hne].
  - rewrite list_lookup_alter_eq. destruct (decide _) as [Hlt|Hge].
    + by destruct (lookup_lt_is_Some_2 _ _ Hlt) as [p ->].
    + rewrite lookup_ge_None_2 by lia. done.
  - by rewrite list_lookup_alter_ne.
Qed.

(** [reset_hand], object by object. *)
Lemma for_each_clear (l : list nat) w1 :
  exists w', for_each l (fun r => update_obj r (set_hole [])) w1 = (Ok tt, w') /\
    room w' = room w1 /\ running w' = running w1 /\ outbox w' = outbox w1 /\
    length (heap w') = length (heap w1) /\
    forall r, obj w' r = if decide (r ∈ l) then set_hole [] (obj w1 r) else obj w1 r.
Proof.
  revert w1. induction l as [|x l IH]; intros w1; cbn [for_each].
  - exists w1. split_and!; [done..|]. intros r. rewrite decide_False; [done|apply not_elem_of_nil].
  - step. set (w2 := mkWorld _ _ _ _).
    destruct (IH w2) as (w' & E & Hr & Hu & Ho & Hl & Hobj).
    exists w'. rewrite E. split_and!; [done..|by rewrite Hl; subst w2; cbn; rewrite length_alter|].
    intros r. rewrite Hobj.
    assert (obj w2 r = if decide (r = x) then set_hole [] (obj w1 x) else obj w1 r) as ->.
    { unfold obj at 1. subst w2. cbn [heap].
      rewrite (obj_alter_set_hole w1 _ x r [] eq_refl).
      destruct (decide (r = x)) as [->|]; [|done].
      destruct (decide _) as [|Hge]; [done|].
      unfold obj. rewrite lookup_ge_None_2 by lia. done. }
    destruct (decide (r = x)) as [->|Hne].
    + rewrite (decide_True (P := x ∈ x :: l)) by (by left). by destruct (decide (x ∈ l)).
    + destruct (decide (r ∈ l)) as [Hin|Hin].
      * rewrite decide_True; [done|by right].
      * rewrite decide_False; [done|]. by intros [?|?]%elem_of_cons.
Qed.

(** X9. [reset_hand] never raises.  It empties the community, the deck,
    the master seed and the transcript and puts the cursor at 0; it
    empties the hand of every player of the room, keeping name, avatar,
    host flag, commitment, seed and salt; it leaves alone the room's
    code, players, variant and stage, and every object that is not in
    the room. *)
Theorem reset_hand_clears_table (w : World) :
  exists w',
    reset_hand w = (Ok tt, w') /\
    room w' = mkRoom (code (room w)) (players (room w)) (variant (room w)) (stage (room w))
                [] [] 0 None None /\
    running w' = running w /\ outbox w' = outbox w /\
    length (heap w') = length (heap w) /\
    (forall k r, (k, r) ∈ players (room w) -> obj w' r = set_hole [] (obj w r)) /\
    (forall r, r ∉ (players (room w)).*2 -> obj w' r = obj w r).
Proof.
  unfold reset_hand. do 6 step. set (w0 := mkWorld _ _ _ _).
  destruct (for_each_clear (map snd (players (room w0))) w0) as (w' & E & Hr & Hu & Ho & Hl & Hobj).
  exists w'. rewrite E, Hr. split_and!; [done..| |].
  - intros k r Hin. rewrite Hobj, decide_True; [done|].
    apply list_elem_of_fmap. by exists (k, r).
  - intros r Hr'. by rewrite Hobj, decide_False.
Qed.

Section hands.
Context (pids : nat -> string) (order : list nat) (d : list string) (size : nat).
Context (Hkeys : NoDup (pids <$> order)).
Context (Halloc : forall r, r ∈ order -> (r < size)%nat).

(** The state the dealing loop keeps besides the transcript. *)
Let dealt (w : World) : Prop :=
  deck (room w) = d /\ length (heap w) = size /\ (forall r, pid (obj w r) = pids r) /\
  hands_match order w.

Lemma deal_to_hands r w w' :
  r ∈ order -> dealt w -> deal_to r w = (Ok tt, w') -> dealt w'.
Proof.
  intros Hr (Hd & Hsz & Hp & t & Ht & Hm).
  unfold deal_to, deck_at, try_update_room, append_hole, set_holes.
  unfold bind, get, lift, update_obj, update_room, ret, raise.
  cbn [room heap running outbox]. rewrite Hd.
  destruct (d !! _) as [card|] eqn:Hcard; [|done]. rewrite Ht, Hp.
  destruct (Hm r Hr) as (idxs & Hidx & Hhole). rewrite Hp in Hidx. rewrite Hidx.
  intros [= <-]. unfold dealt, hands_match.
  cbn [room heap deck set_deal_index set_transcript transcript].
  assert (forall r', pid (obj (mkWorld (room w)
            (alter (fun p => set_hole (hole p ++ [card]) p) r (heap w)) (running w) (outbox w)) r')
          = pids r') as Hp'.
  { intros r'. erewrite (pid_obj_alter _ r w); [apply Hp|done|done]. }
  split_and!; [done|by rewrite length_alter| |].
  - intros r'. rewrite <- (Hp' r'). done.
  - eexists. split; [done|]. cbn [holes]. intros r' Hr'.
    change (pid (obj _ r')) with
      (pid (obj (mkWorld (room w) (alter (fun p => set_hole (hole p ++ [card]) p) r (heap w))
                   (running w) (outbox w)) r')).
    rewrite Hp'. rewrite Hd.
    destruct (decide (r' = r)) as [->|Hne].
    + rewrite dict_get_set_eq. eexists. split; [done|].
      unfold obj. cbn [heap]. rewrite list_lookup_alter_eq.
      destruct (lookup_lt_is_Some_2 (heap w) r ltac:(specialize (Halloc r Hr); lia)) as [p Hpl].
      rewrite Hpl. cbn. unfold obj in Hhole. rewrite Hpl in Hhole. cbn in Hhole.
      rewrite !fmap_app, Hhole, Hd. cbn. by rewrite Hcard.
    + assert (pids r <> pids r') as Hk.
      { intros Heq. apply Hne.
        apply list_elem_of_lookup_1 in Hr as [i Hi], Hr' as [j Hj].
        assert (i = j); [|congruence].
        apply (NoDup_lookup _ i j (pids r) Hkeys); rewrite list_lookup_fmap;
          [by rewrite Hi|by rewrite Hj, Heq]. }
      rewrite dict_get_set_ne by done.
      destruct (Hm r' Hr') as (idxs' & Hidx' & Hhole'). rewrite Hp in Hidx'.
      exists idxs'. split; [done|].
      unfold obj in *. cbn [heap]. rewrite list_lookup_alter_ne by done. by rewrite <- Hd.
Qed.

Lemma deal_rounds_hands n w w' :
  dealt w -> repeat_n n (for_each order deal_to) w = (Ok tt, w') -> dealt w'.
Proof.
  intros Hw Hres.
  apply (repeat_n_inv_ok (fun _ w => dealt w) n (for_each order deal_to)) with (w := w);
    [|done..].
  intros _ w1 w2 _ Hw1 Hb.
  apply (for_each_inv_ok (fun _ w => dealt w) order deal_to) with (w := w1); [|done..].
  intros i r w3 w4 Hr Hw3 Hb'. eapply deal_to_hands; [|done..].
  by apply (list_elem_of_lookup_2 _ i).
Qed.
End hands.

(** After the clearing loop of [deal_hole] every player has an empty hand
    and an empty transcript entry. *)
Lemma clear_holes_hands (order : list nat) v w1 w2 :
  transcript (room w1) = Some (mkTranscript v [] []) ->
  for_each order clear_hole w1 = (Ok tt, w2) ->
  deck (room w2) = deck (room w1) /\ length (heap w2) = length (heap w1) /\
  (forall r, pid (obj w2 r) = pid (obj w1 r)) /\ hands_match order w2.
Proof.
  intros Ht Hres.
  pose (I := fun (i : nat) (w : World) =>
    deck (room w) = deck (room w1) /\ length (heap w) = length (heap w1) /\
    (forall r, pid (obj w r) = pid (obj w1 r)) /\
    exists hs, transcript (room w) = Some (mkTranscript v hs []) /\
      (forall k l, dict_get k hs = Some l -> l = []) /\
      (forall j r, (j < i)%nat -> order !! j = Some r ->
         is_Some (dict_get (pid (obj w1 r)) hs) /\ hole (obj w r) = [])).
  assert (I (length order) w2) as (Hd & Hl & Hp & hs & Ht2 & Hnil & Hall).
  { apply (for_each_inv_ok I order clear_hole) with (w := w1); [| |done].
    - intros i r w w' Hr (Hd & Hl & Hp & hs & Htw & Hnil & Hall).
      rewrite (clear_hole_spec _ _ _ _ _ Htw). intros [= <-]. unfold I.
      cbn [room heap deck set_transcript transcript].
      assert (forall r', obj (mkWorld (set_transcript
                 (Some (mkTranscript v (dict_set (pid (obj w r)) [] hs) [])) (room w))
                 (alter (set_hole []) r (heap w)) (running w) (outbox w)) r'
              = if decide (r' = r) then set_hole [] (obj w r) else obj w r') as Hobj.
      { intros r'. unfold obj at 1. cbn [heap].
        rewrite (obj_alter_set_hole w _ r r' [] eq_refl).
        destruct (decide (r' = r)) as [->|]; [|done].
        destruct (decide _) as [|Hge]; [done|].
        unfold obj. rewrite lookup_ge_None_2 by lia. done. }
      split_and!; [done|by rewrite length_alter| |].
      + intros r'. rewrite Hobj. destruct (decide (r' = r)) as [->|]; apply Hp.
      + eexists. split; [done|]. split.
        * intros k l. destruct (decide (pid (obj w r) = k)) as [<-|Hne].
          -- rewrite dict_get_set_eq. by intros [= <-].
          -- rewrite dict_get_set_ne by done. apply Hnil.
        * intros j r' Hj Hr'. rewrite Hobj, Hp. split.
          -- destruct (decide (j = i)) as [->|Hne].
             ++ simplify_eq. by rewrite dict_get_set_eq.
             ++ apply dict_get_set_is_Some, (Hall j); [lia|done].
          -- destruct (decide (r' = r)) as [->|]; [done|].
             destruct (decide (j = i)) as [->|Hne]; [congruence|].
             apply (Hall j); [lia|done].
    - unfold I. split_and!; [done..|]. exists []. split_and!; [done|done|]. intros j r Hj. lia. }
  split_and!; [done..|]. eexists. split; [done|]. cbn [holes].
  intros r [j Hj]%list_elem_of_lookup_1.
  destruct (Hall j r) as [[l Hl'] Hh]; [by eapply lookup_lt_Some|done|].
  exists l. rewrite Hp. split; [done|]. rewrite Hh, (Hnil _ _ Hl'). done.
Qed.

Lemma holes_after_lookup_start keys n j key :
  keys !! j = Some key ->
  holes_after keys n 0 !! j = Some (key, (fun m => (m * length keys + j)%nat) <$> seq 0 n).
Proof.
  intros Hj. unfold holes_after. rewrite list_lookup_imap, Hj. cbn.
  by rewrite decide_False by lia.
Qed.

(** The cards of a deal, position by position. *)
Lemma deal_hole_cards (w w' : World) :
  wf w -> deal_hole w = (Ok tt, w') ->
  let k := length (players (room w)) in
  let n := hole_n (variant (room w)) in
  (n * k <= 52)%nat /\ deal_index (room w') = (n * k)%nat /\
  forall j key r, players (room w) !! j = Some (key, r) ->
    Some <$> hole (obj w' r) = (fun m => deck (room w') !! (m * k + j)%nat) <$> seq 0 n /\
    length (hole (obj w' r)) = n.
Proof.
  intros Hwf Hres k n.
  set (order := map snd (players (room w))).
  pose proof (wf_pids w Hwf) as Hpids. fold order in Hpids.
  assert (NoDup ((fun r => pid (obj w r)) <$> order)) as Hnd by (rewrite Hpids; apply Hwf).
  destruct (deal_hole_returned w w' Hres) as (_ & Hle & d & Hperm & _ & Hexact).
  destruct (Hexact Hnd) as (Hd & Hidx & Hp & t & Ht & Hholes).
  fold order in Hidx, Hholes. rewrite Hpids in Hholes.
  assert (length order = k) as Hlen by (subst order k; by rewrite length_map).
  assert (hands_match order w') as (t' & Ht' & Hm).
  { destruct (compute_master_seed (items w)) as [seed| |] eqn:Hseed.
    2,3: exfalso; revert Hres; unfold deal_hole; step; by rewrite Hseed.
    destruct (shuffle_make_deck seed.1) as (d' & Hd' & _).
    set (w1 := mkWorld
                 (set_transcript (Some (mkTranscript (variant (room w)) [] []))
                    (set_deal_index 0 (set_deck d' (set_master_seed_hex (Some seed.2) (room w)))))
                 (heap w) (running w) (outbox w)).
    assert (deal_hole w
            = (let* _ := for_each order clear_hole in
               repeat_n (hole_n (variant (room w))) (for_each order deal_to)) w1) as Heq.
    { unfold deal_hole. step. rewrite Hseed.
      unfold bind at 1, lift at 1. step.
      unfold bind at 1, lift at 1. rewrite Hd'. by do 3 step. }
    rewrite Heq in Hres. unfold bind in Hres.
    destruct (for_each order clear_hole w1) as [[[]| |] w2] eqn:Hclear; [|done..].
    destruct (clear_holes_hands order _ w1 w2 eq_refl Hclear) as (Hd2 & Hl2 & Hp2 & Hm2).
    eapply (deal_rounds_hands (fun r => pid (obj w r)) order d' (length (heap w)) Hnd);
      [|split_and!; [exact Hd2|exact Hl2|exact Hp2|exact Hm2]|exact Hres].
    intros r [[key r'] [-> Hin]]%list_elem_of_fmap. by apply Hwf in Hin as [? _]. }
  rewrite Ht in Ht'. injection Ht' as <-.
  split_and!; [done|by rewrite Hidx, Hlen, Nat.add_0_r|].
  intros j key r Hj.
  assert (order !! j = Some r) as Hr by (subst order; by rewrite list_lookup_fmap, Hj).
  assert ((players (room w)).*1 !! j = Some key) as Hkey by (by rewrite list_lookup_fmap, Hj).
  destruct (Hm r (list_elem_of_lookup_2 _ _ _ Hr)) as (idxs & Hget & Hhole).
  assert (pid (obj w' r) = key) as Hk.
  { rewrite Hp. by apply Hwf, (list_elem_of_lookup_2 _ j). }
  rewrite Hk in Hget.
  pose proof (holes_after_lookup_start _ n j key Hkey) as Hl.
  rewrite length_fmap in Hl. fold k in Hl. fold n in Hholes. rewrite <- Hholes in Hl.
  assert (NoDup (holes t).*1) as Hnd' by (rewrite Hholes, holes_after_keys; apply Hwf).
  rewrite (dict_get_lookup _ _ _ _ Hnd' Hl) in Hget. injection Hget as <-.
  rewrite <- list_fmap_compose in Hhole. split; [exact Hhole|].
  apply (f_equal length) in Hhole. by rewrite !length_fmap, length_seq in Hhole.
Qed.

(** X10. Hole cards go round the table: when [deal_hole] returns in a
    well-formed room of [k] players, with [n] hole cards per player (2
    for TEXAS, 4 otherwise), it has dealt [n * k <= 52] cards and the
    player at position [j] of the join order holds exactly the deck
    cards at positions [j], [k + j], ..., [(n - 1) * k + j]. *)
Theorem deal_hole_hands (w w' : World) :
  wf w -> deal_hole w = (Ok tt, w') ->
  let k := length (players (room w)) in
  let n := hole_n (variant (room w)) in
  (n * k <= 52)%nat /\ deal_index (room w') = (n * k)%nat /\
  forall j key r, players (room w) !! j = Some (key, r) ->
    Some <$> hole (obj w' r) = (fun m => deck (room w') !! (m * k + j)%nat) <$> seq 0 n /\
    length (hole (obj w' r)) = n.
Proof. apply deal_hole_cards. Qed.

Lemma deal_hole_hands_witness :
  let w := run "ROOM01"
             [(reliable, Connect "A"); (reliable, Connect "B");
              (reliable, Receive 0 (Text (Commit (Some (sha256_hex "s1|t1")))));
              (reliable, Receive 1 (Text (Commit (Some (sha256_hex "s2|t2")))));
              (reliable, Receive 0 (Text (Reveal (Some "s1") (Some "t1"))));
              (reliable, Receive 1 (Text (Reveal (Some "s2") (Some "t2"))))] in
  let w' := (deal_hole w).2 in
  deal_index (room w') = 4%nat /\
  Some <$> hole (obj w' 1) = [deck (room w') !! 1%nat; deck (room w') !! 3%nat].
Proof.
  intros w w'.
  destruct (deal_hole_hands w w' (reachable_wf _ _) ltac:(vm_compute; reflexivity))
    as (_ & Hidx & Hhands).
  split; [exact Hidx|].
  exact (proj1 (Hhands 1%nat "B" 1%nat eq_refl)).
Defined.


(** ** The shuffle of any list *)

(** X4. [deterministic_shuffle] returns, for every list and every seed, a
    permutation of the list, of the same length; a list of at most one
    item comes back as it is; and only the first eight bytes of the
    seed matter. *)
Theorem shuffle_any_list {A : Type} (items : list A) (master_seed_bytes : list byte) :
  Z.of_nat (length items) <= 2 ^ 64 ->
  exists arr,
    deterministic_shuffle items master_seed_bytes = Ok arr /\
    arr ≡ₚ items /\ length arr = length items /\
    ((length items <= 1)%nat -> arr = items) /\
    (forall other, take 8 other = take 8 master_seed_bytes ->
                   deterministic_shuffle items other = Ok arr).
Proof.
  intros Hlen. unfold deterministic_shuffle.
  destruct (fisher_yates_perm (length items - 1)
              (SplitMix64_init (int_from_bytes_big (take 8 master_seed_bytes))) items)
    as (arr & Harr & Hp); [lia..|].
  exists arr. split_and!; [done|done|by rewrite Hp| |].
  - intros Hle. replace (length items - 1)%nat with 0%nat in Harr by lia.
    cbn in Harr. by injection Harr.
  - intros other Heq. by rewrite Heq.
Qed.

Lemma shuffle_any_list_witness :
  exists arr,
    deterministic_shuffle ["a"; "b"; "c"] [] = Ok arr /\
    arr ≡ₚ ["a"; "b"; "c"] /\ length arr = 3%nat.
Proof.
  destruct (shuffle_any_list ["a"; "b"; "c"] [] ltac:(vm_compute; discriminate))
    as (arr & H1 & H2 & H3 & _).
  by exists arr.
Defined.

(** ** Who may move the cards *)

Section net.
Context (net : nat -> delivery).

Lemma quiet_handle h body w :
  table_inv w -> quiet w (body w).2 ->
  quiet w (handle net h body w).2.
Proof.
  intros Hinv Hb. unfold handle.
  destruct (body w) as [[[]|e|] w']; cbn [snd] in Hb; [done| |done].
  assert (forall (m : M unit), respects quiet m -> quiet w (m w').2) as Hafter.
  { intros m Hm. etrans; [exact Hb|apply Hm]. }
  destruct e; apply Hafter; unfold on_disconnect, on_exception; quiet_tac.
Qed.

Lemma quiet_on_frame_guest h f w :
  table_inv w ->
  (forall m, f = Text m -> host_action m = true -> is_host (obj w h) = false) ->
  quiet w (on_frame net h f w).2.
Proof.
  intros Hinv Hguest.
  destruct f as [[n a|c|sd sl|v|what| | |mtype]|err]; cbn [on_frame].
  1-3,8,9: by revert w Hinv Hguest; match goal with |- forall w, _ -> _ -> quiet w (?m w).2 =>
             intros w _ _; revert w; change (respects quiet m); quiet_tac end.
  1-3: step; rewrite (Hguest _ eq_refl eq_refl); cbn [negb];
       by apply (quiet_send_text net h (Log "Host only.")).
  (* audit *)
  step.
  destruct (negb (bool_decide (stage (room w) = HAND))); cbn [orb];
    [by apply (quiet_send_text net h (Log "Nothing to audit yet."))|].
  destruct (bool_decide (deck (room w) = [])) eqn:Hdeck; cbn [orb];
    [by apply (quiet_send_text net h (Log "Nothing to audit yet."))|].
  destruct (negb (truthy (master_seed_hex (room w))));
    [by apply (quiet_send_text net h (Log "Nothing to audit yet."))|].
  apply bool_decide_eq_false in Hdeck. cbv zeta.
  assert (audit_sound (AuditPayload (master_seed_hex (room w)) (deck (room w))
            (sha256_hex (join "|" (deck (room w)) +:+ "|"))
            (map (fun kv => (kv.1, seed kv.2, salt kv.2)) (sorted_by_key (items w)))
            (transcript (room w)))) as Hsound.
  { destruct Hinv as (Hh & _). unfold hand_inv in Hh.
    destruct (transcript (room w)) as [t|]; [|by destruct Hh as (_ & ? & _)].
    destruct Hh as ((b & Hb32 & Hb & Hsh) & Hle & Hrec & _). cbn. split_and!; [done|by exists b|].
    exists t, (deal_index (room w)). split_and!; [done| |done].
    destruct (shuffle_make_deck b) as (d & Hd & _ & _ & Hlen). rewrite Hd in Hsh.
    injection Hsh as Heq. rewrite <- Heq in Hle. lia. }
  revert Hsound. generalize (AuditPayload (master_seed_hex (room w)) (deck (room w))
            (sha256_hex (join "|" (deck (room w)) +:+ "|"))
            (map (fun kv => (kv.1, seed kv.2, salt kv.2)) (sorted_by_key (items w)))
            (transcript (room w))).
  intros p Hp. revert w Hinv Hguest Hdeck.
  match goal with |- forall w, _ -> _ -> _ -> quiet w (?m w).2 =>
    intros w _ _ _; revert w; change (respects quiet m); quiet_tac end.
Qed.

Lemma quiet_step_guest ev w :
  table_inv w ->
  (forall h m, ev = Receive h (Text m) -> host_action m = true -> is_host (obj w h) = false) ->
  quiet w (step net ev w).2.
Proof.
  intros Hinv Hguest. destruct ev as [pid|h f|h]; cbn [step].
  - revert w Hinv Hguest. intros w _ _. revert w.
    change (respects quiet (ws_connect net pid)). unfold ws_connect. quiet_tac.
  - destruct (is_running w h); [|done]. apply quiet_handle; [done|].
    apply quiet_on_frame_guest; [done|]. intros m ->. by apply Hguest.
  - destruct (is_running w h); [|done]. by apply quiet_handle.
Qed.
End net.

(** X18. Only the host moves the cards.  In a reachable state, an event
    that is not a start_hand, deal or new_hand message of a player
    whose [is_host] is set leaves community, deck, cursor, master seed
    and transcript as they are, whatever the deliveries; such a message
    from another player is answered "Host only." and changes nothing
    at all. *)
Theorem only_host_moves_cards (code : string) (evs : list ((nat -> delivery) * event))
    (net : nat -> delivery) (ev : event) :
  let w := run code evs in
  (forall h m, ev = Receive h (Text m) -> host_action m = true -> is_host (obj w h) = false) ->
  hand_of (room (step net ev w).2) = hand_of (room w) /\
  (forall h m, ev = Receive h (Text m) -> host_action m = true ->
               is_running w h = true -> net h = Delivered ->
               step net ev w = (Ok tt, notify w h "Host only.")).
Proof.
  intros w Hguest. split.
  - destruct (quiet_step_guest net ev w (reachable_table_inv code evs) Hguest)
      as [(Hc & Hd & Hi & Hm & Ht) _].
    unfold hand_of. by rewrite Hc, Hd, Hi, Hm, Ht.
  - intros h m -> Hm Hrun Hnet. specialize (Hguest h m eq_refl Hm).
    cbn [step]. rewrite Hrun.
    assert (on_frame net h (Text m) w = send_text net h (Log "Host only.") w) as Hf.
    { destruct m; try done; cbn [on_frame]; step; by rewrite Hguest. }
    rewrite handle_ok; rewrite Hf; unfold send_text; by rewrite Hnet.
Qed.

Lemma only_host_moves_cards_witness :
  let w := run "ROOM01" [(reliable, Connect "A"); (reliable, Connect "B")] in
  hand_of (room (step reliable (Receive 1 (Text NewHand)) w).2) = hand_of (room w).
Proof.
  intros w.
  apply (only_host_moves_cards "ROOM01" [(reliable, Connect "A"); (reliable, Connect "B")]
           reliable (Receive 1 (Text NewHand))).
  intros h m [= <- <-] _. vm_compute. reflexivity.
Defined.


(** ** Connections and the room *)

Global Instance same_running_preorder : PreOrder same_running.
Proof. split; unfold same_running; [by intros w|intros w1 w2 w3; congruence]. Qed.

Global Instance shrinks_preorder : PreOrder shrinks.
Proof. split; unfold shrinks; [by intros w|]. intros w1 w2 w3 H1 H2. by etrans. Qed.

Lemma same_running_try_update_room (f : Room -> result Room) :
  respects same_running (try_update_room f).
Proof.
  intros w. unfold try_update_room, bind, get, lift, update_room. by destruct (f (room w)).
Qed.

Lemma shrinks_try_update_room (f : Room -> result Room) :
  (forall r r', f r = Ok r' -> players r' = players r) ->
  respects shrinks (try_update_room f).
Proof.
  intros Hf w. unfold try_update_room, bind, get, lift, update_room, shrinks.
  destruct (f (room w)) as [r'| |] eqn:Hr; [|done..]. cbn. by rewrite (Hf _ _ Hr).
Qed.

Lemma shrinks_pop k :
  respects shrinks (update_room (fun r => set_players (dict_pop k (players r)) r)).
Proof. intros w. apply dict_pop_sublist. Qed.

(** The walk through a handler, one primitive at a time; [prim] settles
    the primitives. *)
Ltac walk prim :=
  repeat lazymatch goal with
    | |- respects _ (bind get _) => apply respects_bind; [apply _|apply respects_get, _|intros ?]
    | |- respects _ (bind (lift _) _) =>
        apply respects_bind; [apply _|apply respects_lift, _|intros ?]
    | |- respects _ (bind _ _) => apply respects_bind; [apply _| |intros ?]
    | |- respects _ (ret _) => apply respects_ret, _
    | |- respects _ (raise _) => apply respects_raise, _
    | |- respects _ (for_each _ _) => apply respects_for_each; [apply _|intros ?]
    | |- respects _ (repeat_n _ _) => apply respects_repeat_n; [apply _|]
    | |- respects _ (match ?x with _ => _ end) => destruct x
    | |- respects _ (send_text _ _ _) => unfold send_text
    | |- respects _ (broadcast _ _) => unfold broadcast
    | |- respects _ (send_state _) => unfold send_state
    | |- respects _ reset_hand => unfold reset_hand
    | |- respects _ deal_hole => unfold deal_hole
    | |- respects _ (deal_community _) => unfold deal_community
    | |- respects _ (clear_hole _) => unfold clear_hole
    | |- respects _ (deal_to _) => unfold deal_to
    | |- respects _ deal_to_community => unfold deal_to_community
    | |- respects _ (deck_at _) => unfold deck_at
    | |- respects _ (on_disconnect _ _) => unfold on_disconnect
    | |- respects _ (on_exception _ _ _) => unfold on_exception
    | |- respects _ _ => prim
    end.

Ltac running_prim :=
  idtac; lazymatch goal with
  | |- respects same_running (try_update_room _) => apply same_running_try_update_room
  | |- respects same_running (update_obj _ _) => by intros ?
  | |- respects same_running (update_room _) => by intros ?
  | |- respects same_running (emit _ _) => by intros ?
  end.

Ltac shrinks_prim :=
  idtac; lazymatch goal with
  | |- respects shrinks (update_room (fun r => set_players (dict_pop _ _) r)) =>
      apply shrinks_pop
  | |- respects shrinks (try_update_room (set_holes _ _)) =>
      apply shrinks_try_update_room; intros ??; apply set_holes_players
  | |- respects shrinks (try_update_room (append_hole _ _)) =>
      apply shrinks_try_update_room; intros ??; apply append_hole_players
  | |- respects shrinks (try_update_room (append_community_index _)) =>
      apply shrinks_try_update_room; intros ??; apply append_community_index_players
  | |- respects shrinks (update_obj _ _) => intros ?; unfold shrinks; cbn; reflexivity
  | |- respects shrinks (update_room _) => intros ?; unfold shrinks; cbn; reflexivity
  | |- respects shrinks (emit _ _) => intros ?; unfold shrinks; cbn; reflexivity
  | |- respects shrinks (stop _) => intros ?; unfold shrinks; cbn; reflexivity
  end.

Section net.
Context (net : nat -> delivery).

Lemma same_running_on_frame h f : respects same_running (on_frame net h f).
Proof. destruct f as [[n a|c|sd sl|v|what| | |mtype]|err]; cbn [on_frame]; walk running_prim. Qed.

Lemma same_running_on_disconnect h : respects same_running (on_disconnect net h).
Proof. walk running_prim. Qed.

Lemma same_running_on_exception h e : respects same_running (on_exception net h e).
Proof. walk running_prim. Qed.

Lemma shrinks_on_disconnect h : respects shrinks (on_disconnect net h).
Proof. walk shrinks_prim. Qed.

(** A frame whose handling returns leaves the handlers as they are. *)
Lemma receive_running h f w :
  (on_frame net h f w).1 = Ok tt ->
  running (step net (Receive h f) w).2 = running w.
Proof.
  intros Hok. cbn [step]. destruct (is_running w h); [|done].
  rewrite handle_ok by done. apply same_running_on_frame.
Qed.

Lemma on_disconnect_ok h w : (on_disconnect net h w).1 = Ok tt.
Proof.
  unfold on_disconnect. do 3 step. step.
  destruct (negb _ && _).
  - destruct (players (room w0)) as [|[k r1] rest].
    + unfold bind at 1, ret at 1. apply send_state_ok.
    + unfold bind at 1. do 2 step.
      match goal with |- context [broadcast net ?p ?w'] =>
        destruct (broadcast_quiet net p w') as (w2 & _ & E); rewrite E end.
      apply send_state_ok.
  - unfold bind at 1, ret at 1. apply send_state_ok.
Qed.

(** Closing a connection: the disconnect handler runs to its end and the
    handler stops. *)
Lemma close_runs h w :
  is_running w h = true ->
  exists w1, on_disconnect net h w = (Ok tt, w1) /\
    step net (Close h) w
    = (Ok tt, mkWorld (room w1) (heap w1) (filter (fun x => x <> h) (running w)) (outbox w1)).
Proof.
  intros Hrun. cbn [step]. rewrite Hrun. unfold handle, raise.
  pose proof (on_disconnect_ok h w) as Hok.
  pose proof (same_running_on_disconnect h w) as Hr.
  unfold bind. destruct (on_disconnect net h w) as [[[]| |] w1]; cbn [fst snd] in *; [|done..].
  exists w1. split; [done|]. unfold stop. unfold same_running in Hr. by rewrite Hr.
Qed.
End net.

Lemma is_running_filter w h h' rm hp out :
  is_running (mkWorld rm hp (filter (fun x => x <> h) (running w)) out) h'
  = is_running w h' && negb (bool_decide (h' = h)).
Proof.
  unfold is_running. cbn [running].
  destruct (bool_decide (h' ∈ running w)) eqn:H1, (bool_decide (h' = h)) eqn:H2; cbn.
  - apply bool_decide_eq_false. apply bool_decide_eq_true in H2 as ->.
    by intros [? _]%list_elem_of_filter.
  - apply bool_decide_eq_true. apply bool_decide_eq_true in H1.
    apply bool_decide_eq_false in H2. by apply list_elem_of_filter.
  - apply bool_decide_eq_false. apply bool_decide_eq_false in H1.
    by intros [_ ?]%list_elem_of_filter.
  - apply bool_decide_eq_false. apply bool_decide_eq_false in H1.
    by intros [_ ?]%list_elem_of_filter.
Qed.

Lemma dict_pop_key {V} k (d : list (string * V)) : NoDup d.*1 -> k ∉ (dict_pop k d).*1.
Proof.
  intros Hnd. rewrite dict_pop_filter by done.
  intros [[k' v] [-> [Hk _]%list_elem_of_filter]]%list_elem_of_fmap. by apply Hk.
Qed.

(** X21. The disconnect handler removes the room's entry for its pid,
    whichever connection that entry belongs to.  When the pid has
    reconnected (the entry holds the object of another connection [h2])
    and the old connection [h] closes, the room loses the pid while the
    handler of [h2] goes on running. *)
Theorem stale_close_removes_reconnected (net : nat -> delivery) (w : World) (h h2 : nat) :
  wf w -> is_running w h = true -> h2 <> h ->
  (pid (obj w h), h2) ∈ players (room w) ->
  let w' := (step net (Close h) w).2 in
  (pid (obj w h) ∉ (players (room w')).*1) /\
  is_running w' h = false /\
  (is_running w h2 = true -> is_running w' h2 = true).
Proof.
  intros Hwf Hrun Hne Hin w'. subst w'.
  destruct (close_runs net h w Hrun) as (w1 & Hd & ->). cbn [snd].
  split_and!.
  - cbn [room].
    assert (shrinks (mkWorld (set_players (dict_pop (pid (obj w h)) (players (room w))) (room w))
                       (heap w) (running w) (outbox w)) w1) as Hs.
    { replace w1 with (on_disconnect net h w).2 by (by rewrite Hd).
      unfold on_disconnect. do 2 step.
      match goal with |- shrinks ?w0 (?m ?w0).2 =>
        assert (respects shrinks m) as Hm by walk shrinks_prim; apply Hm end. }
    unfold shrinks in Hs. cbn in Hs. intros Hk.
    apply (dict_pop_key (pid (obj w h)) (players (room w))); [apply Hwf|].
    eapply elem_of_sublist; [exact Hk|]. by apply fmap_sublist.
  - rewrite is_running_filter. rewrite bool_decide_eq_true_2 by done. by rewrite andb_false_r.
  - intros Hrun2. rewrite is_running_filter, Hrun2. by rewrite bool_decide_eq_false_2.
Qed.

Lemma stale_close_removes_reconnected_witness :
  let w := run "ROOM01" [(reliable, Connect "A"); (reliable, Connect "A")] in
  let w' := (step reliable (Close 0) w).2 in
  ("A" ∉ (players (room w')).*1) /\ is_running w' 0 = false /\
  (is_running w 1 = true -> is_running w' 1 = true).
Proof.
  intros w w'.
  apply (stale_close_removes_reconnected reliable w 0 1 (reachable_wf _ _));
    [vm_compute; reflexivity|lia|vm_compute; by left].
Defined.

(** *** A clean disconnect *)

Lemma wf_outbox w out :
  wf w -> wf (mkWorld (room w) (heap w) (running w) out).
Proof. done. Qed.

Lemma broadcast_reliable p w :
  wf w ->
  broadcast reliable p w
  = (Ok tt, mkWorld (room w) (heap w) (running w)
              (outbox w ++ map (fun kr => (kr.2, p)) (players (room w)))).
Proof.
  intros Hwf. rewrite broadcast_live by done. unfold sent_to_live.
  by rewrite live_reliable, set_players_id.
Qed.

Lemma send_state_reliable w :
  wf w ->
  send_state reliable w
  = (Ok tt, mkWorld (room w) (heap w) (running w)
              (outbox w ++ map (fun kr => (kr.2, State)) (players (room w)))).
Proof.
  intros Hwf. rewrite send_state_live by apply Hwf. unfold sent_to_live.
  by rewrite live_reliable, set_players_id.
Qed.









(** ** Commit, then reveal *)

Lemma or_default_truthy x : truthy (Some (or_default x "")) = truthy x.
Proof. by destruct x as [[|c s]|]. Qed.

Lemma or_default_Some s : or_default (Some s) "" = s.
Proof. by destruct s. Qed.

Section net.
Context (net : nat -> delivery).

Lemma commit_returns w h c :
  commit_accepts c = true -> (on_frame net h (Text (Commit c)) w).1 = Ok tt.
Proof.
  intros Hacc. cbn [on_frame]. unfold commit_accepts in Hacc.
  apply andb_true_iff in Hacc as [-> ->]. cbn [negb orb].
  do 4 step.
  destruct (decide _); [step|unfold bind at 1, ret at 1]; apply send_state_ok.
Qed.

Lemma reveal_stores w h sd sl :
  (h < length (heap w))%nat ->
  commitment (obj w h) = Some (sha256_hex (or_default sd "" +:+ "|" +:+ or_default sl "")) ->
  exists w',
    on_frame net h (Text (Reveal sd sl)) w = (Ok tt, w') /\
    heap w' = alter (fun p => set_salt (Some (or_default sl "")) (set_seed (Some (or_default sd "")) p))
                h (heap w) /\
    stage (room w') = REVEAL.
Proof.
  intros Hh Hc. cbn [on_frame]. step.
  assert (truthy (commitment (obj w h)) = true) as ->.
  { rewrite Hc. pose proof (sha256_hex_length (or_default sd "" +:+ "|" +:+ or_default sl "")).
    by destruct (sha256_hex _). }
  cbn [negb]. rewrite bool_decide_eq_true_2 by done. cbn [negb].
  do 3 step. destruct Hb as (_ & Hh2 & _). do 2 step.
  destruct Hs as (Hr & Hh3 & _).
  eexists. split; [done|]. split.
  - rewrite Hh3. cbn [heap]. rewrite Hh2. cbn [heap]. by rewrite list_alter_alter_eq.
  - by rewrite Hr.
Qed.

Lemma reveal_step w h sd sl :
  is_running w h = true -> (h < length (heap w))%nat ->
  commitment (obj w h) = Some (sha256_hex (or_default sd "" +:+ "|" +:+ or_default sl "")) ->
  let res := step net (Receive h (Text (Reveal sd sl))) w in
  res.1 = Ok tt /\
  obj res.2 h = set_salt (Some (or_default sl "")) (set_seed (Some (or_default sd "")) (obj w h)) /\
  stage (room res.2) = REVEAL /\ running res.2 = running w.
Proof.
  intros Hrun Hh Hc res. destruct (reveal_stores w h sd sl Hh Hc) as (w' & Hres & Hheap & Hst).
  assert (running res.2 = running w) as Hr.
  { apply receive_running. by rewrite Hres. }
  subst res. cbn [step] in *. rewrite Hrun in *.
  rewrite handle_ok in *; rewrite Hres in *; try done. cbn [fst snd] in *.
  split_and!; [done| |done..].
  by apply (obj_alter w' w (fun p => set_salt (Some (or_default sl ""))
                                       (set_seed (Some (or_default sd "")) p))).
Qed.
End net.

(** X19. An honest commit and reveal always go through.  Whatever the
    deliveries, a running handler that commits to the SHA-256 digest of
    seed "|" salt and then reveals that seed and salt ends with the
    commitment, the seed and the salt stored on its player, the room in
    stage REVEAL, and itself still running. *)
Theorem honest_commit_reveal (net1 net2 : nat -> delivery) (w : World) (h : nat)
    (sd sl : string) :
  is_running w h = true -> (h < length (heap w))%nat ->
  let c := sha256_hex (sd +:+ "|" +:+ sl) in
  let w1 := (step net1 (Receive h (Text (Commit (Some c)))) w).2 in
  let w2 := (step net2 (Receive h (Text (Reveal (Some sd) (Some sl)))) w1).2 in
  commit_accepts (Some c) = true /\
  obj w2 h = set_salt (Some sl) (set_seed (Some sd) (set_commitment (Some c) (obj w h))) /\
  stage (room w2) = REVEAL /\ is_running w2 h = true.
Proof.
  intros Hrun Hh c w1 w2.
  assert (commit_accepts (Some c) = true) as Hacc.
  { apply commit_accepts_iff. exists c. split; [done|]. apply sha256_hex_len. }
  destruct (commit_stores net1 w h (Some c) Hrun Hh Hacc) as (_ & Hheap1 & Hobj1).
  fold w1 in Hheap1, Hobj1.
  assert (running w1 = running w) as Hr1 by (apply receive_running; by apply commit_returns).
  assert (is_running w1 h = true) as Hrun1 by (unfold is_running in *; by rewrite Hr1).
  assert (h < length (heap w1))%nat as Hh1 by (by rewrite Hheap1, length_alter).
  destruct (reveal_step net2 w1 h (Some sd) (Some sl) Hrun1 Hh1) as (_ & Hobj2 & Hst & Hr2).
  { rewrite Hobj1, !or_default_Some. done. }
  fold w2 in Hobj2, Hst, Hr2. rewrite !or_default_Some in Hobj2.
  split_and!; [done|by rewrite Hobj2, Hobj1|done|].
  unfold is_running in *. by rewrite Hr2.
Qed.

Lemma honest_commit_reveal_witness :
  let w := run "ROOM01" [(reliable, Connect "A")] in
  let c := sha256_hex ("s" +:+ "|" +:+ "t") in
  let w1 := (step reliable (Receive 0 (Text (Commit (Some c)))) w).2 in
  let w2 := (step reliable (Receive 0 (Text (Reveal (Some "s") (Some "t")))) w1).2 in
  obj w2 0 = set_salt (Some "t") (set_seed (Some "s") (set_commitment (Some c) (obj w 0))) /\
  stage (room w2) = REVEAL.
Proof.
  intros w c w1 w2.
  destruct (honest_commit_reveal reliable reliable w 0 "s" "t"
              ltac:(vm_compute; reflexivity) ltac:(vm_compute; lia))
    as (_ & Hobj & Hst & _).
  split; [exact Hobj|exact Hst].
Defined.

(** X20. A reveal with an empty or missing seed or salt is accepted when
    its digest matches the commitment: the (empty) value is stored and
    the stage becomes REVEAL, yet the player does not count as revealed,
    and the master seed of any room with that player cannot be derived:
    [compute_master_seed] raises "Missing reveal for player". *)
Theorem empty_reveal_blocks_hand (net : nat -> delivery) (w : World) (h : nat)
    (sd sl : option string) :
  is_running w h = true -> (h < length (heap w))%nat ->
  truthy sd && truthy sl = false ->
  commitment (obj w h) = Some (sha256_hex (or_default sd "" +:+ "|" +:+ or_default sl "")) ->
  let res := step net (Receive h (Text (Reveal sd sl))) w in
  res.1 = Ok tt /\
  seed (obj res.2 h) = Some (or_default sd "") /\
  salt (obj res.2 h) = Some (or_default sl "") /\
  stage (room res.2) = REVEAL /\
  revealed (obj res.2 h) = false /\
  (forall ps k, (k, obj res.2 h) ∈ ps ->
                compute_master_seed ps = Raise (ValueError "Missing reveal for player")).
Proof.
  intros Hrun Hh Hempty Hc res.
  destruct (reveal_step net w h sd sl Hrun Hh Hc) as (Hok & Hobj & Hst & _).
  fold res in Hok, Hobj, Hst.
  assert (revealed (obj res.2 h) = false) as Hrev.
  { rewrite Hobj. unfold revealed. cbn [seed salt set_seed set_salt].
    by rewrite !or_default_truthy. }
  split_and!; [done|by rewrite Hobj|by rewrite Hobj|done|done|].
  intros ps k Hin. unfold compute_master_seed.
  rewrite master_seed_items_missing; [done|].
  exists (k, obj res.2 h). split; [by rewrite sorted_by_key_perm|done].
Qed.

Lemma empty_reveal_blocks_hand_witness :
  let w := run "ROOM01" [(reliable, Connect "A");
                         (reliable, Receive 0 (Text (Commit (Some (sha256_hex "|t")))))] in
  let res := step reliable (Receive 0 (Text (Reveal None (Some "t")))) w in
  res.1 = Ok tt /\ seed (obj res.2 0) = Some "" /\ revealed (obj res.2 0) = false.
Proof.
  intros w res.
  destruct (empty_reveal_blocks_hand reliable w 0 None (Some "t")
              ltac:(vm_compute; reflexivity) ltac:(vm_compute; lia)
              ltac:(reflexivity) ltac:(vm_compute; reflexivity))
    as (Hok & Hseed & _ & _ & Hrev & _).
  split; [exact Hok|]. split; [exact Hseed|exact Hrev].
Defined.


(** ** A hand from start to audit *)

Global Instance same_seed_preorder : PreOrder same_seed.
Proof.
  split; [by intros w|]. intros w1 w2 w3 (?&?&?) (?&?&?). split_and!; congruence.
Qed.

Lemma same_seed_try_update_room (f : Room -> result Room) :
  (forall r r', f r = Ok r' ->
     deck r' = deck r /\ master_seed_hex r' = master_seed_hex r /\ community r' = community r) ->
  respects same_seed (try_update_room f).
Proof.
  intros Hf w. unfold try_update_room, bind, get, lift, update_room.
  destruct (f (room w)) as [r'| |] eqn:Hr; [|done..]. by apply Hf.
Qed.

Lemma set_holes_seed k v r r' :
  set_holes k v r = Ok r' ->
  deck r' = deck r /\ master_seed_hex r' = master_seed_hex r /\ community r' = community r.
Proof. unfold set_holes. destruct (transcript r); by intros; simplify_eq/=. Qed.

Lemma append_hole_seed k idx r r' :
  append_hole k idx r = Ok r' ->
  deck r' = deck r /\ master_seed_hex r' = master_seed_hex r /\ community r' = community r.
Proof.
  unfold append_hole. destruct (transcript r) as [t|]; [|done].
  destruct (dict_get k (holes t)); [|done]. apply set_holes_seed.
Qed.

Ltac seed_prim :=
  idtac; lazymatch goal with
  | |- respects same_seed (try_update_room (set_holes _ _)) =>
      apply same_seed_try_update_room; intros ??; apply set_holes_seed
  | |- respects same_seed (try_update_room (append_hole _ _)) =>
      apply same_seed_try_update_room; intros ??; apply append_hole_seed
  | |- respects same_seed (update_obj _ _) => by intros ?
  | |- respects same_seed (update_room (set_deal_index _)) => by intros ?
  | |- respects same_seed (update_room (set_stage _)) => by intros ?
  | |- respects same_seed (update_room (fun r => set_players _ r)) => by intros ?
  | |- respects same_seed (emit _ _) => by intros ?
  end.

(** What [deal_hole] leaves when it returns: the seed of the room's
    reveals, in hex, and the shuffle under it. *)
Lemma deal_hole_seed w w' :
  deal_hole w = (Ok tt, w') ->
  exists seed, compute_master_seed (items w) = Ok seed /\
    master_seed_hex (room w') = Some seed.2 /\
    deterministic_shuffle make_deck seed.1 = Ok (deck (room w')) /\
    community (room w') = community (room w).
Proof.
  intros Hres. destruct (compute_master_seed (items w)) as [seed| |] eqn:Hseed.
  2,3: exfalso; revert Hres; unfold deal_hole; step; by rewrite Hseed.
  exists seed. split; [done|].
  destruct (shuffle_make_deck seed.1) as (d & Hd & _).
  set (order := map snd (players (room w))).
  set (w1 := mkWorld
               (set_transcript (Some (mkTranscript (variant (room w)) [] []))
                  (set_deal_index 0 (set_deck d (set_master_seed_hex (Some seed.2) (room w)))))
               (heap w) (running w) (outbox w)).
  set (m := let* _ := for_each order clear_hole in
            repeat_n (hole_n (variant (room w))) (for_each order deal_to)).
  assert (deal_hole w = m w1) as Heq.
  { unfold deal_hole. step. rewrite Hseed.
    unfold bind at 1, lift at 1. step.
    unfold bind at 1, lift at 1. rewrite Hd. by do 3 step. }
  assert (respects same_seed m) as Hm by (subst m; walk seed_prim).
  specialize (Hm w1). rewrite <- Heq, Hres in Hm. destruct Hm as (H1 & H2 & H3).
  cbn [snd] in *. rewrite H1, H2, H3. subst w1.
  cbn [room deck master_seed_hex community set_transcript set_deal_index set_deck
         set_master_seed_hex].
  split; [done|]. split; [exact Hd|done].
Qed.

Lemma items_reset w w' :
  players (room w') = players (room w) ->
  (forall r, obj w' r = obj w r \/ obj w' r = set_hole [] (obj w r)) ->
  triple <$> items w' = triple <$> items w.
Proof.
  intros Hp Hobj. unfold items. rewrite Hp.
  change (map ?f ?l) with (f <$> l). rewrite <- !list_fmap_compose.
  apply list_fmap_ext. intros i [k r] _. unfold triple. cbn.
  by destruct (Hobj r) as [-> | ->].
Qed.

(** X22. A hand from the reveals.  When the host asks for a hand in a
    well-formed room of [k >= 2] players who all hold a commitment and
    a reveal, with [n * k <= 52] for the [n] hole cards of the chosen
    variant, the request succeeds whatever the deliveries: the stage is
    HAND, the variant the chosen one, no community card is out, the
    master seed is the one derived from the reveals of the players,
    the deck the shuffle under it, and the player at position [j] of the
    join order holds the deck cards at [j], [k + j], ... *)
Theorem start_hand_deals (net : nat -> delivery) (w : World) (h : nat) (v : option string) :
  wf w -> is_running w h = true -> is_host (obj w h) = true ->
  let k := length (players (room w)) in
  let n := hole_n (chosen_variant v) in
  (2 <= k)%nat -> (n * k <= 52)%nat ->
  (forall p, p ∈ values w -> truthy (commitment p) = true /\ revealed p = true) ->
  let res := step net (Receive h (Text (StartHand v))) w in
  res.1 = Ok tt /\ stage (room res.2) = HAND /\ variant (room res.2) = chosen_variant v /\
  community (room res.2) = [] /\ deal_index (room res.2) = (n * k)%nat /\
  (exists seed, compute_master_seed (items w) = Ok seed /\
     master_seed_hex (room res.2) = Some seed.2 /\
     deterministic_shuffle make_deck seed.1 = Ok (deck (room res.2))) /\
  (forall j key r, players (room w) !! j = Some (key, r) ->
     Some <$> hole (obj res.2 r)
     = (fun m => deck (room res.2) !! (m * k + j)%nat) <$> seq 0 n).
Proof.
  intros Hwf Hrun Hhost k n Hk Hn Hall res. subst res. cbn [step]. rewrite Hrun.
  set (goal := fun w' : World =>
    stage (room w') = HAND /\ variant (room w') = chosen_variant v /\
    community (room w') = [] /\ deal_index (room w') = (n * k)%nat /\
    (exists seed, compute_master_seed (items w) = Ok seed /\
       master_seed_hex (room w') = Some seed.2 /\
       deterministic_shuffle make_deck seed.1 = Ok (deck (room w'))) /\
    (forall j key r, players (room w) !! j = Some (key, r) ->
       Some <$> hole (obj w' r)
       = (fun m => deck (room w') !! (m * k + j)%nat) <$> seq 0 n)).
  assert (exists w', on_frame net h (Text (StartHand v)) w = (Ok tt, w') /\ goal w')
    as (w' & Hres & Hgoal).
  { cbn [on_frame]. step. rewrite Hhost. cbn [negb]. fold (chosen_variant v). step.
    destruct (Nat.ltb_spec (length (players (room w))) 2) as [|_]; [subst k; lia|].
    rewrite (proj2 (first_unready_None (values w)) Hall).
    set (w1 := mkWorld _ _ _ _).
    assert (wf w1) as Hwf1 by done.
    destruct (reset_hand_spec w1) as (w2 & Hres2 & Hr2 & _ & _ & _ & Hobj2).
    assert (wf w2) as Hwf2.
    { assert (respects keeps_wf reset_hand) as Hkeep by wf_tac.
      specialize (Hkeep w1 Hwf1). by rewrite Hres2 in Hkeep. }
    rewrite (bind_ok _ _ _ _ _ Hres2).
    destruct (deal_hole_dealing w2) as (w3 & d & Hres3 & Hp & Hw3).
    { apply (values_revealed w); [by rewrite Hr2|exact Hobj2|]. intros p Hp. by apply Hall. }
    { by rewrite Hr2. }
    rewrite (bind_ok _ _ _ _ _ Hres3).
    destruct (deal_hole_cards w2 w3 Hwf2 Hres3) as (_ & Hidx & Hcards).
    destruct (deal_hole_seed w2 w3 Hres3) as (seed & Hseed & Hhex & Hdeck & Hcomm).
    pose proof (same_stage_deal_hole w2) as Hst. rewrite Hres3 in Hst.
    rewrite Hr2 in Hidx, Hcards, Hcomm. cbn [variant players community] in Hidx, Hcards, Hcomm.
    do 3 step. destruct Hb as (Hr4 & Hh4 & _), Hs as (Hr5 & Hh5 & _).
    eexists. split; [done|]. unfold goal. rewrite Hr5, Hr4. cbn.
    split_and!; [done| |done|done| |].
    - assert (respects (fun w w' => variant (room w') = variant (room w)) deal_hole) as Hv.
      { clear. unfold deal_hole.
        assert (PreOrder (fun w w' : World => variant (room w') = variant (room w))) as Hpre
          by (split; [by intros w|intros w1 w2 w3; congruence]).
        walk ltac:(idtac; lazymatch goal with
                   | |- respects _ (try_update_room (set_holes _ _)) =>
                       intros w; unfold try_update_room, bind, get, lift, update_room, set_holes;
                       by destruct (transcript (room w))
                   | |- respects _ (try_update_room (append_hole _ _)) =>
                       intros w; unfold try_update_room, bind, get, lift, update_room,
                         append_hole, set_holes;
                       destruct (transcript (room w)) as [t|]; [|done];
                       by destruct (dict_get _ (holes t))
                   | |- respects _ _ => by intros ?
                   end). }
      specialize (Hv w2). rewrite Hres3 in Hv. cbn [snd] in Hv. by rewrite Hv, Hr2.
    - exists seed. split_and!; [|done..]. rewrite <- Hseed. symmetry.
      apply compute_master_seed_triples.
      + unfold items. change (map ?f ?l) with (f <$> l). rewrite <- list_fmap_compose.
        erewrite list_fmap_ext; [apply Hwf|]. by intros _ [] _.
      + rewrite (items_reset w1 w2); [done|by rewrite Hr2|exact Hobj2].
    - intros j key r Hj. unfold obj at 1. rewrite Hh5, Hh4. cbn [heap].
      subst k n. exact (proj1 (Hcards j key r Hj)). }
  rewrite handle_ok; rewrite Hres; [|done]. cbn [fst snd]. split; [done|]. exact Hgoal.
Qed.

Lemma start_hand_deals_witness :
  let w := run "ROOM01"
             [(reliable, Connect "A"); (reliable, Connect "B");
              (reliable, Receive 0 (Text (Commit (Some (sha256_hex "s1|t1")))));
              (reliable, Receive 1 (Text (Commit (Some (sha256_hex "s2|t2")))));
              (reliable, Receive 0 (Text (Reveal (Some "s1") (Some "t1"))));
              (reliable, Receive 1 (Text (Reveal (Some "s2") (Some "t2"))))] in
  let res := step reliable (Receive 0 (Text (StartHand (Some "omaha")))) w in
  res.1 = Ok tt /\ stage (room res.2) = HAND /\ variant (room res.2) = "OMAHA" /\
  deal_index (room res.2) = 8%nat.
Proof.
  intros w res.
  destruct (start_hand_deals reliable w 0 (Some "omaha") (reachable_wf _ _)
              ltac:(vm_compute; reflexivity) ltac:(vm_compute; reflexivity)
              ltac:(vm_compute; lia) ltac:(vm_compute; lia))
    as (Hok & Hst & Hv & _ & Hidx & _).
  - intros p Hp. vm_compute in Hp.
    repeat (apply elem_of_cons in Hp as [->|Hp]; [by split|]). by apply elem_of_nil in Hp.
  - split; [exact Hok|]. split; [exact Hst|]. split; [exact Hv|exact Hidx].
Defined.


(** ** Community cards and the audit *)

(** [deal_community] with enough cards left. *)
Lemma deal_community_exact count w t :
  transcript (room w) = Some t ->
  (deal_index (room w) + count <= length (deck (room w)))%nat ->
  exists w' t',
    deal_community count w = (Ok tt, w') /\
    community (room w')
    = community (room w) ++ take count (drop (deal_index (room w)) (deck (room w))) /\
    deal_index (room w') = (deal_index (room w) + count)%nat /\
    deck (room w') = deck (room w) /\
    master_seed_hex (room w') = master_seed_hex (room w) /\
    transcript (room w') = Some t' /\
    community_indices t' = community_indices t ++ seq (deal_index (room w)) count /\
    holes t' = holes t /\
    outbox w' = outbox w.
Proof.
  unfold deal_community. revert w t. induction count as [|count IH]; intros w t Ht Hle.
  - exists w, t. cbn [repeat_n seq take]. rewrite !app_nil_r, Nat.add_0_r. done.
  - cbn [repeat_n].
    destruct (lookup_lt_is_Some_2 (deck (room w)) (deal_index (room w)) ltac:(lia))
      as [card Hcard].
    assert (exists w1, deal_to_community w = (Ok tt, w1) /\
              community (room w1) = community (room w) ++ [card] /\
              deal_index (room w1) = S (deal_index (room w)) /\
              deck (room w1) = deck (room w) /\
              master_seed_hex (room w1) = master_seed_hex (room w) /\
              transcript (room w1)
              = Some (mkTranscript (t_variant t) (holes t)
                        (community_indices t ++ [deal_index (room w)])) /\
              outbox w1 = outbox w) as (w1 & E & Hc1 & Hi1 & Hd1 & Hm1 & Ht1 & Ho1).
    { unfold deal_to_community, deck_at, try_update_room, append_community_index.
      unfold bind, get, lift, update_obj, update_room, ret, raise.
      cbn [room heap running outbox set_community deck deal_index transcript].
      rewrite Hcard, Ht. eexists. split; [done|]. cbn. split_and!; [done|lia|done..]. }
    rewrite (bind_ok _ _ _ _ _ E).
    destruct (IH w1 _ Ht1) as (w' & t' & E' & Hc & Hi & Hd & Hm & Ht' & Hci & Hh & Ho).
    { rewrite Hi1, Hd1. lia. }
    exists w', t'. split; [done|]. rewrite Hc, Hi, Hd, Hm, Hc1, Hi1, Hd1, Hm1, Ho, Ho1.
    split_and!; [|lia|done|done|done| |done|done].
    + rewrite <- app_assoc. f_equal. cbn [app].
      by rewrite (drop_S _ _ _ Hcard).
    + rewrite Hci, Hi1. cbn [community_indices seq]. by rewrite <- app_assoc.
Qed.

Section net.
Context (net : nat -> delivery).

Lemma quiet_tail (m : M unit) w :
  respects quiet m -> hand_of (room (m w).2) = hand_of (room w).
Proof.
  intros Hm. destruct (Hm w) as [(Hc & Hd & Hi & Hs & Ht) _].
  unfold hand_of. by rewrite Hc, Hd, Hi, Hs, Ht.
Qed.
End net.

(** X23. The deal branch.  In a reachable state with a hand under way
    (stage HAND, a deck), a deal request of the host puts out three
    cards for "flop" when no community card is out, one for "turn" when
    three are, one for "river" when four are: the next cards of the
    deck from the cursor on, which it advances, recording the positions
    in the transcript.  Any other request at that time leaves the hand
    as it is. *)
Theorem deal_request (code : string) (evs : list ((nat -> delivery) * event))
    (net : nat -> delivery) (h : nat) (what : option string) :
  let w := run code evs in
  is_running w h = true -> is_host (obj w h) = true ->
  stage (room w) = HAND -> deck (room w) <> [] ->
  let w' := (step net (Receive h (Text (Deal what))) w).2 in
  let c := deal_index (room w) in
  match deal_count what (length (community (room w))) with
  | Some count =>
      (c + count <= 52)%nat ->
      community (room w') = community (room w) ++ take count (drop c (deck (room w))) /\
      deal_index (room w') = (c + count)%nat /\
      deck (room w') = deck (room w) /\
      master_seed_hex (room w') = master_seed_hex (room w) /\
      community_indices <$> transcript (room w')
      = (fun t => community_indices t ++ seq c count) <$> transcript (room w)
  | None => hand_of (room w') = hand_of (room w)
  end.
Proof.
  intros w Hrun Hhost Hstage Hdeck w' c.
  pose proof (reachable_table_inv code evs) as Hinv. fold w in Hinv.
  pose proof Hinv as (Hh & _ & _). unfold hand_inv in Hh.
  destruct (transcript (room w)) as [t|] eqn:Ht; [|by destruct Hh as (_ & ? & _)].
  destruct Hh as ((b & _ & _ & Hsh) & _).
  assert (length (deck (room w)) = 52%nat) as Hlen.
  { destruct (shuffle_make_deck b) as (d & Hd & _ & _ & Hl). rewrite Hd in Hsh.
    by injection Hsh as <-. }
  assert (forall count (p : payload), audit_sound p ->
            (c + count <= 52)%nat ->
            let w2 := ((let* _ := (let* _ := deal_community count in broadcast net p) in
                        send_state net) w) in
            w2.1 = Ok tt /\
            community (room w2.2)
            = community (room w) ++ take count (drop c (deck (room w))) /\
            deal_index (room w2.2) = (c + count)%nat /\
            deck (room w2.2) = deck (room w) /\
            master_seed_hex (room w2.2) = master_seed_hex (room w) /\
            community_indices <$> transcript (room w2.2)
            = Some (community_indices t ++ seq c count)) as Hdeal.
  { intros count p Hp Hle w2. subst w2.
    destruct (deal_community_exact count w t Ht ltac:(fold c; lia))
      as (w1 & t1 & E & Hc1 & Hi1 & Hd1 & Hm1 & Ht1 & Hci & _ & _).
    destruct (broadcast_quiet net p w1) as (w2 & (Hr2 & _) & E2).
    destruct (send_state_quiet net w2) as (w3 & (Hr3 & _) & E3).
    assert ((let* _ := deal_community count in broadcast net p) w = (Ok tt, w2)) as Ein
      by (by rewrite (bind_ok _ _ _ _ _ E)).
    rewrite (bind_ok _ _ _ _ _ Ein), E3. cbn [fst snd]. rewrite Hr3, Hr2.
    cbn [community deal_index deck master_seed_hex transcript set_players].
    rewrite Hc1, Hi1, Hd1, Hm1, Ht1. cbn. by rewrite Hci. }
  cbn [step] in w'. subst w'. rewrite Hrun.
  assert (forall count text,
            (c + count <= 52)%nat ->
            on_frame net h (Text (Deal what)) w
            = (let* _ := (let* _ := deal_community count in broadcast net (Log text)) in
               send_state net) w ->
            let w' := (handle net h (on_frame net h (Text (Deal what))) w).2 in
            community (room w') = community (room w) ++ take count (drop c (deck (room w))) /\
            deal_index (room w') = (c + count)%nat /\
            deck (room w') = deck (room w) /\
            master_seed_hex (room w') = master_seed_hex (room w) /\
            community_indices <$> transcript (room w')
            = (fun t => community_indices t ++ seq c count) <$> Some t) as Hcase.
  { intros count text Hle Heq.
    destruct (Hdeal count (Log text) I Hle) as (Hok & Hrest).
    rewrite handle_ok; rewrite Heq; [exact Hrest|exact Hok]. }
  assert (on_frame net h (Text (Deal what)) w
          = (let n := length (community (room w)) in
             let* _ :=
               (if bool_decide (what = Some "flop") && (n =? 0)%nat
                then let* _ := deal_community 3 in broadcast net (Log "Flop dealt.")
                else if bool_decide (what = Some "turn") && (n =? 3)%nat
                then let* _ := deal_community 1 in broadcast net (Log "Turn dealt.")
                else if bool_decide (what = Some "river") && (n =? 4)%nat
                then let* _ := deal_community 1 in broadcast net (Log "River dealt.")
                else send_text net h (Log "That deal action is not valid right now.")) in
             send_state net) w) as Hframe.
  { cbn [on_frame]. step. rewrite Hhost, Hstage. cbn [negb].
    rewrite bool_decide_eq_true_2 by done. rewrite bool_decide_eq_false_2 by done. done. }
  unfold deal_count. cbv zeta in Hframe.
  destruct (bool_decide (what = Some "flop") && (length (community (room w)) =? 0)%nat).
  { intros Hle. by apply (Hcase 3%nat "Flop dealt."). }
  destruct (bool_decide (what = Some "turn") && (length (community (room w)) =? 3)%nat).
  { intros Hle. by apply (Hcase 1%nat "Turn dealt."). }
  destruct (bool_decide (what = Some "river") && (length (community (room w)) =? 4)%nat).
  { intros Hle. by apply (Hcase 1%nat "River dealt."). }
  destruct (quiet_handle net h (on_frame net h (Text (Deal what))) w Hinv)
    as [(Hc & Hd & Hi & Hs & Ht') _].
  { rewrite Hframe.
    match goal with |- quiet w (?m w).2 =>
      assert (respects quiet m) as Hm by quiet_tac; apply Hm end. }
  unfold hand_of. by rewrite Hc, Hd, Hi, Hs, Ht', Ht.
Qed.

Lemma deal_request_witness :
  let evs := [(reliable, Connect "A"); (reliable, Connect "B");
              (reliable, Receive 0 (Text (Commit (Some (sha256_hex "s1|t1")))));
              (reliable, Receive 1 (Text (Commit (Some (sha256_hex "s2|t2")))));
              (reliable, Receive 0 (Text (Reveal (Some "s1") (Some "t1"))));
              (reliable, Receive 1 (Text (Reveal (Some "s2") (Some "t2"))));
              (reliable, Receive 0 (Text (StartHand None)))] in
  let w := run "ROOM01" evs in
  hand_of (room (step reliable (Receive 0 (Text (Deal (Some "turn")))) w).2) = hand_of (room w).
Proof.
  intros evs w.
  exact (deal_request "ROOM01" evs reliable 0 (Some "turn")
           ltac:(vm_compute; reflexivity) ltac:(vm_compute; reflexivity)
           ltac:(vm_compute; reflexivity) ltac:(vm_compute; discriminate)).
Defined.

Lemma hex_truthy b : length b = 32%nat -> truthy (Some (hashlib.hex b)) = true.
Proof.
  intros Hb. pose proof (hex_length b) as Hl. rewrite Hb in Hl.
  by destruct (hashlib.hex b).
Qed.

(** X24. The audit branch.  In a reachable state any running handler,
    host or not, may ask for the audit; the hand (community, deck,
    cursor, master seed, transcript) is never changed by it.  With a
    hand under way (stage HAND, a deck) the request is accepted: the
    stage becomes AUDIT and, when every send is delivered, every player
    is sent the notice, then the audit message of the room, then the
    state, in join order.  Otherwise it is answered "Nothing to audit
    yet." and changes nothing. *)
Theorem audit_request (code : string) (evs : list ((nat -> delivery) * event))
    (net : nat -> delivery) (h : nat) :
  let w := run code evs in
  is_running w h = true ->
  let res := step net (Receive h (Text Audit)) w in
  hand_of (room res.2) = hand_of (room w) /\
  (stage (room w) = HAND -> deck (room w) <> [] ->
   res.1 = Ok tt /\ stage (room res.2) = AUDIT /\ heap res.2 = heap w /\
   (net = reliable ->
    players (room res.2) = players (room w) /\
    outbox res.2
    = outbox w ++ to_all w (Log "AUDIT broadcast: seeds revealed. Verify now.")
        ++ to_all w (audit_payload w) ++ to_all w State)) /\
  (stage (room w) <> HAND \/ deck (room w) = [] -> net h = Delivered ->
   res = (Ok tt, notify w h "Nothing to audit yet.")).
Proof.
  intros w Hrun res. subst res.
  pose proof (reachable_table_inv code evs) as Hinv. fold w in Hinv.
  pose proof (reachable_wf code evs) as Hwf. fold w in Hwf.
  split_and!.
  - destruct (quiet_step_guest net (Receive h (Text Audit)) w Hinv)
      as [(Hc & Hd & Hi & Hm & Ht) _]; [by intros ?? [= <- <-]|].
    unfold hand_of. by rewrite Hc, Hd, Hi, Hm, Ht.
  - intros Hstage Hdeck. cbn [step]. rewrite Hrun.
    assert (truthy (master_seed_hex (room w)) = true) as Hseed.
    { destruct Hinv as (Hh & _). unfold hand_inv in Hh.
      destruct (transcript (room w)); [|by destruct Hh as (_ & ? & _)].
      destruct Hh as ((b & Hb & -> & _) & _). by apply hex_truthy. }
    assert (on_frame net h (Text Audit) w
            = (let* _ := update_room (set_stage AUDIT) in
               let* _ := broadcast net (Log "AUDIT broadcast: seeds revealed. Verify now.") in
               let* _ := broadcast net (audit_payload w) in
               send_state net) w) as Hframe.
    { cbn [on_frame]. step. rewrite Hstage, Hseed. cbn [negb].
      rewrite bool_decide_eq_true_2 by done. rewrite bool_decide_eq_false_2 by done. done. }
    assert (exists w', on_frame net h (Text Audit) w = (Ok tt, w') /\
              stage (room w') = AUDIT /\ heap w' = heap w) as (w' & Hres & Hst & Hheap).
    { rewrite Hframe. step. step. step. step.
      destruct Hb as (Hr1 & Hh1 & _), Hb0 as (Hr2 & Hh2 & _), Hs as (Hr3 & Hh3 & _).
      eexists. split; [done|]. rewrite Hr3, Hr2, Hr1, Hh3, Hh2, Hh1. done. }
    rewrite handle_ok; rewrite Hres; [|done]. cbn [fst snd].
    split_and!; [done..|]. intros ->.
    rewrite Hframe in Hres. revert Hres. step.
    set (w1 := mkWorld _ _ _ _). assert (wf w1) as Hwf1 by done.
    rewrite (bind_ok _ _ _ _ _ (broadcast_reliable _ w1 Hwf1)).
    set (w2 := mkWorld _ _ _ _). assert (wf w2) as Hwf2 by done.
    rewrite (bind_ok _ _ _ _ _ (broadcast_reliable _ w2 Hwf2)).
    set (w3 := mkWorld _ _ _ _). assert (wf w3) as Hwf3 by done.
    rewrite (send_state_reliable w3 Hwf3). intros [= <-].
    subst w3 w2 w1. cbn [room heap running outbox players set_stage]. unfold to_all.
    by rewrite <- !app_assoc.
  - intros Hno Hnet. cbn [step]. rewrite Hrun.
    assert (on_frame net h (Text Audit) w = send_text net h (Log "Nothing to audit yet.") w)
      as Hf.
    { cbn [on_frame]. step. destruct Hno as [Hst | ->].
      - by rewrite bool_decide_eq_false_2.
      - rewrite (bool_decide_eq_true_2 ([] = [])) by done. by rewrite orb_true_r. }
    rewrite handle_ok; rewrite Hf; unfold send_text; by rewrite Hnet.
Qed.

Lemma audit_request_witness :
  let evs := [(reliable, Connect "A"); (reliable, Connect "B")] in
  let w := run "ROOM01" evs in
  step reliable (Receive 1 (Text Audit)) w = (Ok tt, notify w 1 "Nothing to audit yet.").
Proof.
  intros evs w.
  destruct (audit_request "ROOM01" evs reliable 1 ltac:(vm_compute; reflexivity))
    as (_ & _ & Hno).
  apply Hno; [left; vm_compute; discriminate|reflexivity].
Defined.
